(** * The form builder: field tree, locator, mutators, preview validation

    A shallow embedding of the field-tree engine of the form builder:
    - [types.ts]                        the field model,
    - [utils/findField.ts]              the tree locator,
    - [context/FormBuilderContext.tsx]  the tree mutators,
    - [components/FormPreview.tsx]      validation and the labelled export,
    - [ConfigurableFormBuilder.tsx]     import and export of the schema,
    - [utils/generateId.ts]             the ids of new fields,
    - [components/FieldEditor.tsx], [components/FieldTree.tsx]
                                        the updates the editor sends.

    Conventions of the embedding.
    - A JavaScript string is a [string], a character standing for a code
      unit below 256; [===] on strings is [String.eqb].
    - A JavaScript number is a [JsNumber]: a rational, or one of the three
      non-finite values; the two zeros are one.  Only comparisons are taken
      on numbers.
    - A plain object used as a dictionary ([FormData], [FieldErrors], the
      labelled export, a parsed JSON object) is a [gmap string _] of its own
      properties.  The import reads a parsed object under fixed names
      ([id], [type], ...), none of them a property of [Object.prototype],
      and there the own properties are all there is to read.  The preview
      reads and writes under the ids and labels of the form, which are any
      strings: there a read that finds no own property goes on to
      [Object.prototype] ([Preview.get]), and a write under [__proto__]
      goes to the setter of that accessor ([Preview.assign],
      [Preview.store], [Preview.setLabel]).  [Object.prototype] is taken as
      the engine sets it up; where the code would write on it, or put
      another object in its place, the embedding stops with [None].
      A record of the form data that is coerced to a number is taken to
      inherit [valueOf] and [toString], so that it coerces to [NaN]; form
      data in which one record owns both properties, where the coercion
      throws, are outside the embedding.
    - State held by React hooks is passed explicitly; a [setX (prev => ...)]
      updater is the function from the previous to the next state. *)

From Stdlib Require Import String Ascii List Bool ZArith QArith Lia.
From Stdlib Require DecimalString.
From stdpp Require Import base gmap strings list.

Set Warnings "-register-all".
#[local] Open Scope string_scope.
#[local] Open Scope nat_scope.
#[local] Open Scope list_scope.

(** ** Numbers *)

Inductive JsNumber : Type :=
| Finite (q : Q)
| NaN
| PosInfinity
| NegInfinity.

(** [a < b] of JavaScript: false as soon as one side is [NaN]. *)
Definition js_lt (a b : JsNumber) : bool :=
  match a, b with
  | NaN, _ | _, NaN => false
  | Finite x, Finite y => negb (Qle_bool y x)
  | Finite _, PosInfinity => true
  | Finite _, NegInfinity => false
  | PosInfinity, _ => false
  | NegInfinity, NegInfinity => false
  | NegInfinity, _ => true
  end.

(** [a > b] is [b < a]. *)
Definition js_gt (a b : JsNumber) : bool := js_lt b a.

Definition isNaN (n : JsNumber) : bool :=
  match n with NaN => true | _ => false end.

Definition isFiniteNumber (n : JsNumber) : bool :=
  match n with Finite _ => true | _ => false end.

(** ** The field model ([types.ts]) *)

Inductive FieldType : Type := text | number | group.

Definition FieldType_eqb (a b : FieldType) : bool :=
  match a, b with
  | text, text | number, number | group, group => true
  | _, _ => false
  end.

(** The attributes a field object owns besides [type] and [fields].
    [BaseField] of the source lists [id], [label], [required]; [min] and
    [max] are declared on [NumberField] only, but a field object of any
    type can own them at run time (object spread copies them), so they are
    kept here.  [None] is an absent or [undefined] property. *)
Record BaseField : Type := mkBase {
  id : string;
  label : string;
  required : bool;
  min : option JsNumber;
  max : option JsNumber
}.

(** [FormField = TextField | NumberField | GroupField]; a group always owns
    its [fields] array. *)
Inductive FormField : Type :=
| TextField (b : BaseField)
| NumberField (b : BaseField)
| GroupField (b : BaseField) (fields : list FormField).

Definition base (f : FormField) : BaseField :=
  match f with
  | TextField b | NumberField b | GroupField b _ => b
  end.

Definition type (f : FormField) : FieldType :=
  match f with
  | TextField _ => text
  | NumberField _ => number
  | GroupField _ _ => group
  end.

Definition fid (f : FormField) : string := id (base f).
Definition flabel (f : FormField) : string := label (base f).
Definition frequired (f : FormField) : bool := required (base f).
Definition fmin (f : FormField) : option JsNumber := min (base f).
Definition fmax (f : FormField) : option JsNumber := max (base f).

(** [FormConfig = { fields: FormField[] }]. *)
Record FormConfig : Type := mkConfig { cfg_fields : list FormField }.

(** Induction over the tree, with the children of a group covered. *)
Section FormField_induction.
Variable P : FormField -> Prop.
Hypothesis Htext : forall b, P (TextField b).
Hypothesis Hnumber : forall b, P (NumberField b).
Hypothesis Hgroup : forall b fs, Forall P fs -> P (GroupField b fs).

Fixpoint FormField_tree_ind (f : FormField) : P f :=
  match f with
  | TextField b => Htext b
  | NumberField b => Hnumber b
  | GroupField b fs =>
      Hgroup b fs
        ((fix all (l : list FormField) : Forall P l :=
            match l with
            | [] => @List.Forall_nil _ P
            | g :: r => @List.Forall_cons _ P g r (FormField_tree_ind g) (all r)
            end) fs)
  end.
End FormField_induction.

(** ** The tree locator ([utils/findField.ts]) *)

Module Locator.

Record FieldSearchResult : Type := mkResult {
  field : FormField;
  parent : list FormField;
  index : nat
}.

(** [arr.every((id, idx) => id === other[idx])], the index starting at
    [start]; [other[idx]] out of range is [undefined], equal to no id. *)
Fixpoint everyMatches (arr other : list string) (start : nat) : bool :=
  match arr with
  | [] => true
  | x :: rest =>
      match other !! start with
      | Some y => String.eqb x y && everyMatches rest other (S start)
      | None => false
      end
  end.

Definition pathStartsWith (target prefix : list string) : bool :=
  (length prefix <=? length target) && everyMatches prefix target 0.

(** [parentPath] is [None] when the caller passes no path. *)
Definition checkWithinScope (parentPath : option (list string))
    (currentPath : list string) : bool :=
  match parentPath with
  | None => true
  | Some pp =>
      if length pp =? 0 then length currentPath =? 0
      else pathStartsWith currentPath pp
  end.

Section findField.
Variable fieldId : string.
Variable parentPath : option (list string).

(** The early rejection for a root-only search. *)
Definition rootOnlyRejects (currentPath : list string) : bool :=
  match parentPath with
  | Some pp => (length pp =? 0) && (0 <? length currentPath)
  | None => false
  end.

(** Whether the loop descends into a group reached at [nextPath]. *)
Definition descends (nextPath : list string) : bool :=
  match parentPath with
  | None => true
  | Some pp =>
      let isAtOrBeyondPrefix := pathStartsWith nextPath pp in
      let isBuildingPrefix :=
        (length nextPath <? length pp) && everyMatches nextPath pp 0 in
      isAtOrBeyondPrefix || isBuildingPrefix
  end.

Section searchLevel.
(** [into g p] stands for the recursive call on the children of the
    group [g]; [isWithinScope] is computed once per level. *)
Variable into : FormField -> list string -> option FieldSearchResult.
Variable fieldList : list FormField.
Variable currentPath : list string.
Variable isWithinScope : bool.

(** The [for] loop, from the index [i] on; [rest] is what is left of
    [fieldList] there. *)
Fixpoint scanFrom (rest : list FormField) (i : nat)
    : option FieldSearchResult :=
  match rest with
  | [] => None
  | f :: rest' =>
      if isWithinScope && String.eqb (fid f) fieldId then
        Some {| field := f; parent := fieldList; index := i |}
      else
        let found :=
          match f with
          | GroupField _ _ =>
              let nextPath := currentPath ++ [fid f] in
              if descends nextPath then into f nextPath else None
          | _ => None
          end in
        match found with
        | Some r => Some r
        | None => scanFrom rest' (S i)
        end
  end.
End searchLevel.

(** One call of [searchRecursive (fieldList, currentPath)]. *)
Definition searchLevel
    (into : FormField -> list string -> option FieldSearchResult)
    (fieldList : list FormField) (currentPath : list string)
    : option FieldSearchResult :=
  if rootOnlyRejects currentPath then None
  else
    scanFrom into fieldList currentPath
      (checkWithinScope parentPath currentPath) fieldList 0.

Fixpoint searchChildren (g : FormField) (nextPath : list string)
    : option FieldSearchResult :=
  match g with
  | GroupField _ fields => searchLevel searchChildren fields nextPath
  | _ => None
  end.

Definition searchRecursive (fieldList : list FormField)
    (currentPath : list string) : option FieldSearchResult :=
  searchLevel searchChildren fieldList currentPath.

Definition findField (fields : list FormField) : option FieldSearchResult :=
  searchRecursive fields [].
End findField.

Definition findFieldByPath (fieldId : string) (parentPath : list string)
    (fields : list FormField) : option FormField :=
  match findField fieldId (Some parentPath) fields with
  | Some result => Some (field result)
  | None => None
  end.

End Locator.

(** ** The tree mutators ([context/FormBuilderContext.tsx]) *)

Module Mutator.

(** [Partial<FormField>]: every key is optional.  A key that is present
    carries a value of the property's type, except [min] and [max], which
    the editor also sends as [undefined] ([Some None]); ['min' in updates]
    is [u_min <> None]. *)
Record FieldUpdates : Type := mkUpdates {
  u_id : option string;
  u_label : option string;
  u_required : option bool;
  u_type : option FieldType;
  u_min : option (option JsNumber);
  u_max : option (option JsNumber);
  u_fields : option (list FormField)
}.

(** The update [{ type: newType }]. *)
Definition retype (newType : FieldType) : FieldUpdates :=
  mkUpdates None None None (Some newType) None None None.

(** [a ?? b]. *)
Definition orElse {A : Type} (a : option A) (b : A) : A :=
  match a with Some x => x | None => b end.

(** The [id], [label], [required], [min], [max] of [{...field, ...updates}]. *)
Definition spreadBase (b : BaseField) (updates : FieldUpdates) : BaseField :=
  {| id := orElse (u_id updates) (id b);
     label := orElse (u_label updates) (label b);
     required := orElse (u_required updates) (required b);
     min := orElse (u_min updates) (min b);
     max := orElse (u_max updates) (max b) |}.

(** [{ ...field, ...updates } as FormField], the type being unchanged.  The
    model gives [fields] to groups only: a [fields] key spread onto a text
    or a number field is not kept. *)
Definition spreadField (field : FormField) (updates : FieldUpdates)
    : FormField :=
  match field with
  | TextField b => TextField (spreadBase b updates)
  | NumberField b => NumberField (spreadBase b updates)
  | GroupField b fields =>
      GroupField (spreadBase b updates) (orElse (u_fields updates) fields)
  end.

(** [baseField] of the conversion to a text or a number field. *)
Definition cleanBase (field : FormField) (updates : FieldUpdates)
    (newMin newMax : option JsNumber) : BaseField :=
  {| id := fid field;
     label := orElse (u_label updates) (flabel field);
     required := orElse (u_required updates) (frequired field);
     min := newMin;
     max := newMax |}.

(** The branch taken when [field.id === fieldId]. *)
Definition applyUpdates (field : FormField) (updates : FieldUpdates)
    : FormField :=
  match u_type updates with
  | Some newType =>
      if negb (FieldType_eqb newType (type field)) then
        match newType with
        | group =>
            (* { ...field, ...updates,
                 fields: field.type === 'group' ? field.fields : [] } *)
            GroupField (spreadBase (base field) updates)
              match field with
              | GroupField _ fields => fields
              | _ => []
              end
        | number =>
            (* min: 'min' in updates ? updates.min : undefined *)
            NumberField
              (cleanBase field updates
                 (match u_min updates with Some m => m | None => None end)
                 (match u_max updates with Some m => m | None => None end))
        | text => TextField (cleanBase field updates None None)
        end
      else spreadField field updates
  | None => spreadField field updates
  end.

Section updateField.
Variable fieldId : string.
Variable updates : FieldUpdates.

(** The callback of [fields.map] in [updateFields]. *)
Fixpoint updateOne (field : FormField) : FormField :=
  if String.eqb (fid field) fieldId then applyUpdates field updates
  else
    match field with
    | GroupField b fields => GroupField b (map updateOne fields)
    | _ => field
    end.

Definition updateFields (fields : list FormField) : list FormField :=
  map updateOne fields.

Definition updateField (prev : FormConfig) : FormConfig :=
  {| cfg_fields := updateFields (cfg_fields prev) |}.
End updateField.

Inductive Direction : Type := up | down.

(** [fields.findIndex((f) => f.id === fieldId)]; [None] is [-1]. *)
Fixpoint findIndex (fieldId : string) (fields : list FormField) : option nat :=
  match fields with
  | [] => None
  | f :: rest =>
      if String.eqb (fid f) fieldId then Some 0
      else match findIndex fieldId rest with
           | Some i => Some (S i)
           | None => None
           end
  end.

(** [[a[i], a[j]] = [a[j], a[i]]] on a copy of [fields]. *)
Definition swap (fields : list FormField) (i j : nat) : list FormField :=
  match fields !! i, fields !! j with
  | Some x, Some y => <[j := x]> (<[i := y]> fields)
  | _, _ => fields
  end.

Section moveField.
Variable fieldId : string.
Variable direction : Direction.

(** One call of [moveInFields (fields)]; [into] is the callback of
    [fields.map] that recurses into groups. *)
Definition moveLevel (into : FormField -> FormField)
    (fields : list FormField) : list FormField :=
  match findIndex fieldId fields with
  | None => map into fields
  | Some index =>
      let newIndex : Z :=
        match direction with
        | up => (Z.of_nat index - 1)%Z
        | down => (Z.of_nat index + 1)%Z
        end in
      if (newIndex <? 0)%Z || (newIndex >=? Z.of_nat (length fields))%Z
      then fields
      else swap fields index (Z.to_nat newIndex)
  end.

Fixpoint moveInGroup (field : FormField) : FormField :=
  match field with
  | GroupField b fields => GroupField b (moveLevel moveInGroup fields)
  | _ => field
  end.

Definition moveInFields (fields : list FormField) : list FormField :=
  moveLevel moveInGroup fields.

Definition moveField (prev : FormConfig) : FormConfig :=
  {| cfg_fields := moveInFields (cfg_fields prev) |}.
End moveField.

End Mutator.

(** ** Validation and the labelled export ([components/FormPreview.tsx]) *)

Module Preview.

(** A value that the code reads under a key of the form data: a
    [PrimitiveValue], a nested record or, under a key that the record
    does not own, what the record inherits from [Object.prototype]: one
    of its functions, or, under [__proto__], [Object.prototype] itself. *)
Inductive FormValue : Type :=
| VString (s : string)
| VNumber (n : JsNumber)
| VNull
| VObject (m : gmap string FormValue)
| VFunction
| VPrototype.

(** The message [t (key, params)] shown next to a control. *)
Inductive ValidationError : Type :=
| Required
| InvalidNumber
| MinValue (min : JsNumber)
| MaxValue (max : JsNumber).

(** [[...parentPath, fieldId].join('.')]. *)
Definition makeErrorKey (parentPath : list string) (fieldId : string)
    : string :=
  String.concat "." (parentPath ++ [fieldId]).

(** White space and line terminators of ECMAScript among the code units
    below 256: TAB, LF, VT, FF, CR, SP, NBSP. *)
Definition isWhiteSpace (c : ascii) : bool :=
  match nat_of_ascii c with
  | 9 | 10 | 11 | 12 | 13 | 32 | 160 => true
  | _ => false
  end.

Fixpoint trimStart (s : string) : string :=
  match s with
  | EmptyString => EmptyString
  | String c rest => if isWhiteSpace c then trimStart rest else s
  end.

Definition reverse_string (s : string) : string :=
  string_of_list_ascii (rev (list_ascii_of_string s)).

Definition trim (s : string) : string :=
  reverse_string (trimStart (reverse_string (trimStart s))).

(** [value] is [None] for [undefined]. *)
Definition isEmptyValue (value : option FormValue) : bool :=
  match value with
  | None | Some VNull => true
  | Some (VString s) => String.eqb s "" || String.eqb (trim s) ""
  | Some _ => false
  end.

(** *** Plain objects and [Object.prototype] *)

(** The properties of [Object.prototype] that hold a function. *)
Definition prototypeFunctions : list string :=
  ["constructor"; "hasOwnProperty"; "isPrototypeOf"; "propertyIsEnumerable";
   "toLocaleString"; "toString"; "valueOf";
   "__defineGetter__"; "__defineSetter__";
   "__lookupGetter__"; "__lookupSetter__"].

Definition isPrototypeFunction (key : string) : bool :=
  existsb (String.eqb key) prototypeFunctions.

(** An object that the code reads a key of: a plain object, given by the
    properties it owns, or [Object.prototype]. *)
Inductive JsObject : Type :=
| Plain (own : gmap string FormValue)
| ObjectPrototype.

(** [object[key]]; [None] is [undefined].  A plain object answers with
    its own property, then with what it inherits; the accessor
    [__proto__] answers with the prototype, which is [null] for
    [Object.prototype]. *)
Definition get (object : JsObject) (key : string) : option FormValue :=
  match object with
  | Plain own =>
      match own !! key with
      | Some value => Some value
      | None =>
          if String.eqb key "__proto__" then Some VPrototype
          else if isPrototypeFunction key then Some VFunction
          else None
      end
  | ObjectPrototype =>
      if String.eqb key "__proto__" then Some VNull
      else if isPrototypeFunction key then Some VFunction
      else None
  end.

(** The descent that [getFieldValue], [validateFieldRecursive] and
    [buildLabeledData] make, each in a loop of its own: one step per id
    of [parentPath]; it ends ([None]) at a step that reads a falsy value
    or a value whose [typeof] is not ['object']. *)
Fixpoint walk (current : JsObject) (parentPath : list string)
    : option JsObject :=
  match parentPath with
  | [] => Some current
  | parentId :: rest =>
      match get current parentId with
      | Some (VObject m) => walk (Plain m) rest
      | Some VPrototype => walk ObjectPrototype rest
      | _ => None
      end
  end.

(** [object[key] = value] for a [value] that is a string, on a plain
    object given by its own properties: the setter of [__proto__]
    ignores a value that is no object and not [null], so that no
    property is written, unless the object owns a property of that
    name; every other key is written as an own property. *)
Definition assign {A : Type} (own : gmap string A) (key : string) (value : A)
    : gmap string A :=
  if String.eqb key "__proto__" then
    match own !! key with
    | Some _ => <[key := value]> own
    | None => own
    end
  else <[key := value]> own.

(** [current[key] = value] on a record of the form data.  The setter of
    [__proto__] ignores a string and a number; with [null] or an object
    it replaces the prototype of the record, and the embedding, which
    has every record inherit from [Object.prototype], stops ([None]). *)
Definition store (own : gmap string FormValue) (key : string)
    (value : FormValue) : option (gmap string FormValue) :=
  if String.eqb key "__proto__" then
    match own !! key with
    | Some _ => Some (<[key := value]> own)
    | None =>
        match value with
        | VString _ | VNumber _ => Some own
        | _ => None
        end
    end
  else Some (<[key := value]> own).

Section validation.
(** [Number (s)] on a string, the coercion of the engine. *)
Variable toNumber : string -> JsNumber.

(** [typeof value === 'string' ? Number (value) : value], as [isNaN] and
    the comparisons read it: [null] coerces to 0; a nested record, a
    function and [Object.prototype] coerce to [NaN]. *)
Definition numValueOf (value : FormValue) : JsNumber :=
  match value with
  | VString s => toNumber s
  | VNumber n => n
  | VNull => Finite 0
  | VObject _ | VFunction | VPrototype => NaN
  end.

Definition validateValue (field : FormField) (value : FormValue)
    : option ValidationError :=
  if frequired field && isEmptyValue (Some value) then Some Required
  else if isEmptyValue (Some value) then None
  else
    match type field with
    | number =>
        match value with
        | VNull => None
        | _ =>
            let numValue := numValueOf value in
            let checkMax :=
              match fmax field with
              | Some M => if js_gt numValue M then Some (MaxValue M) else None
              | None => None
              end in
            if isNaN numValue then Some InvalidNumber
            else
              match fmin field with
              | Some m =>
                  if js_lt numValue m then Some (MinValue m) else checkMax
              | None => checkMax
              end
        end
    | _ => None
    end.

(** The loop of [validateFieldRecursive] that walks [formData] down
    [parentPath]; where the descent ends early it goes on with [{}]. *)
Definition dataAt (formData : gmap string FormValue)
    (parentPath : list string) : JsObject :=
  match walk (Plain formData) parentPath with
  | Some currentData => currentData
  | None => Plain ∅
  end.

(** [fieldValue ?? null]. *)
Definition orNull (v : option FormValue) : FormValue :=
  match v with Some x => x | None => VNull end.

(** The updater that [handleFieldChange] passes to [setFormData]: the
    value is written at [parentPath], then [fieldId]; a step of the path
    that reads a falsy value, or a value whose [typeof] is not
    ['object'], is replaced by a fresh record.  A step that reads
    [Object.prototype] takes the assignments that follow out of the form
    data, onto the object that every object inherits from; the
    embedding stops there ([None]), as it does where [store] stops.
    The code writes into the nested records in place; [writeAt] gives
    the form data after the writes, and [mirror] below says which other
    holder of these records sees them. *)
Fixpoint writeAt (prev : gmap string FormValue) (parentPath : list string)
    (fieldId : string) (value : FormValue)
    : option (gmap string FormValue) :=
  match parentPath with
  | [] => store prev fieldId value
  | parentId :: rest =>
      match get (Plain prev) parentId with
      | Some VPrototype => None
      | Some (VObject m) =>
          match writeAt m rest fieldId value with
          | Some m' => Some (<[parentId := VObject m']> prev)
          | None => None
          end
      | _ =>
          match writeAt ∅ rest fieldId value with
          | Some m' => Some (<[parentId := VObject m']> prev)
          | None => None
          end
      end
  end.

(** What the preview holds: the four states of the component and, to
    follow the sharing of records, [shared]: the keys under which
    [formData] and [submittedData] hold one and the same record.
    [handleSubmit] stores [formData] itself, and the copy [{ ...prev }]
    that a later change makes is one level deep, so a write below such a
    key changes the record that [submittedData] holds too. *)
Record PreviewState : Type := mkPreview {
  formData : gmap string FormValue;
  errors : gmap string ValidationError;
  showSubmitModal : bool;
  submittedData : option (gmap string FormValue);
  shared : gset string
}.

(** The state the preview starts from, and returns to when [fields]
    changes. *)
Definition initial : PreviewState :=
  {| formData := ∅;
     errors := ∅;
     showSubmitModal := false;
     submittedData := None;
     shared := ∅ |}.

(** The data submitted after a write at [parentPath] that took the form
    data from [prev] to [newData]: a write below a key under which [prev]
    held a record, shared with the data submitted, went into that very
    record, which the data submitted hold under the key as well. *)
Definition mirror (sharedKeys : gset string) (parentPath : list string)
    (prev newData : gmap string FormValue)
    (submitted : option (gmap string FormValue))
    : option (gmap string FormValue) :=
  match parentPath, submitted with
  | parentId :: _, Some data =>
      match prev !! parentId, newData !! parentId with
      | Some (VObject _), Some record =>
          if bool_decide (parentId ∈ sharedKeys)
          then Some (<[parentId := record]> data)
          else Some data
      | _, _ => Some data
      end
  | _, _ => submitted
  end.

(** A write at the top level puts a value in the place of the record in
    the copy only. *)
Definition stillShared (sharedKeys : gset string) (parentPath : list string)
    (fieldId : string) : gset string :=
  match parentPath with
  | [] => sharedKeys ∖ {[ fieldId ]}
  | _ => sharedKeys
  end.

(** [handleFieldChange (fieldId, value, parentPath)] on the field tree
    [fields]: the value is stored, the error under the key of the field is
    cleared, and [validateField] records the new error, if any.  Where
    the write leaves the form data ([writeAt] is [None]) the embedding
    stops for the handler as a whole. *)
Definition handleFieldChange (fields : list FormField) (fieldId : string)
    (value : FormValue) (parentPath : list string) (st : PreviewState)
    : option PreviewState :=
  let errorKey := makeErrorKey parentPath fieldId in
  let cleared := delete errorKey (errors st) in
  match writeAt (formData st) parentPath fieldId value with
  | None => None
  | Some newData =>
      Some
        {| formData := newData;
           errors :=
             match Locator.findFieldByPath fieldId parentPath fields with
             | None => cleared
             | Some field =>
                 match validateValue field value with
                 | Some error => assign cleared errorKey error
                 | None => delete errorKey cleared
                 end
             end;
           showSubmitModal := showSubmitModal st;
           submittedData :=
             mirror (shared st) parentPath (formData st) newData
               (submittedData st);
           shared := stillShared (shared st) parentPath fieldId |}
  end.

(** [getFieldValue (fieldId, parentPath)] on the form data; [None] is
    [undefined]. *)
Definition getFieldValue (formData : gmap string FormValue)
    (fieldId : string) (parentPath : list string) : option FormValue :=
  match walk (Plain formData) parentPath with
  | None => None
  | Some current =>
      match get current fieldId with
      | Some (VObject _) | Some VPrototype => None
      | value => value
      end
  end.

Section validateAllFields.
Variable formData : gmap string FormValue.

(** One call of [validateFieldRecursive (fieldsToCheck, parentPath)],
    threading [newErrors]; [into g p errs] is the recursive call on
    the children of the group [g]. *)
Definition validateLevel
    (into : FormField -> list string ->
            gmap string ValidationError -> gmap string ValidationError)
    (fieldsToCheck : list FormField) (parentPath : list string)
    (newErrors : gmap string ValidationError)
    : gmap string ValidationError :=
  let currentData := dataAt formData parentPath in
  fold_left
    (fun errs field =>
       let fieldValue := get currentData (fid field) in
       let errorKey := makeErrorKey parentPath (fid field) in
       let errs' :=
         match validateValue field (orNull fieldValue) with
         | Some error => assign errs errorKey error
         | None => errs
         end in
       match field with
       | GroupField _ _ => into field (parentPath ++ [fid field]) errs'
       | _ => errs'
       end)
    fieldsToCheck newErrors.

Fixpoint validateChildren (g : FormField) (path : list string)
    (newErrors : gmap string ValidationError)
    : gmap string ValidationError :=
  match g with
  | GroupField _ fields => validateLevel validateChildren fields path newErrors
  | _ => newErrors
  end.

Definition validateFieldRecursive (fieldsToCheck : list FormField)
    (parentPath : list string) (newErrors : gmap string ValidationError)
    : gmap string ValidationError :=
  validateLevel validateChildren fieldsToCheck parentPath newErrors.

Definition validateAllFields (fields : list FormField)
    : gmap string ValidationError :=
  validateFieldRecursive fields [] ∅.
End validateAllFields.

(** The keys under which the form data holds a record. *)
Definition isRecord (value : FormValue) : bool :=
  match value with VObject _ => true | _ => false end.

Definition recordKeys (formData : gmap string FormValue) : gset string :=
  dom (filter (fun entry => isRecord (snd entry) = true) formData).

(** [handleSubmit]; scrolling to the first error is left out. *)
Definition handleSubmit (fields : list FormField) (st : PreviewState)
    : PreviewState :=
  let newErrors := validateAllFields (formData st) fields in
  if size newErrors =? 0 then
    {| formData := formData st;
       errors := newErrors;
       showSubmitModal := true;
       submittedData := Some (formData st);
       shared := recordKeys (formData st) |}
  else
    {| formData := formData st;
       errors := newErrors;
       showSubmitModal := showSubmitModal st;
       submittedData := submittedData st;
       shared := shared st |}.
End validation.

(** *** What is drawn *)

(** [errors[errorKey]], the prop [error] of a control: a message of the
    error map or, under a key that the map does not own, what the map
    inherits. *)
Inductive ErrorProp : Type :=
| Shown (error : ValidationError)
| Inherited.

Definition errorAt (errors : gmap string ValidationError) (errorKey : string)
    : option ErrorProp :=
  match errors !! errorKey with
  | Some error => Some (Shown error)
  | None =>
      if String.eqb errorKey "__proto__" || isPrototypeFunction errorKey
      then Some Inherited
      else None
  end.

(** What [renderField] draws, as far as the errors go: for a text or a
    number field a control with the attribute [data-field-id] and the
    prop [error]; for a group a box with that attribute around what is
    drawn for its children.  The box is handed no [error]. *)
Inductive Rendered : Type :=
| Control (fieldIdAttr : string) (error : option ErrorProp)
| Box (fieldIdAttr : string) (children : list Rendered).

Fixpoint renderField (errors : gmap string ValidationError)
    (field : FormField) (parentPath : list string) : Rendered :=
  let errorKey := makeErrorKey parentPath (fid field) in
  match field with
  | GroupField _ children =>
      Box errorKey
        (map (fun childField =>
                renderField errors childField (parentPath ++ [fid field]))
           children)
  | _ => Control errorKey (errorAt errors errorKey)
  end.

(** *** The labelled export *)

(** A value of the labelled document: a string, a number or a record of
    a group; or a function, where the value read for a field was
    inherited from [Object.prototype].  [Object.keys] counts a property
    that holds a function. *)
Inductive Labeled : Type :=
| LString (s : string)
| LNumber (n : JsNumber)
| LObject (m : gmap string Labeled)
| LFunction.

(** The first loop of [buildLabeledData]; [None] is its early [return]. *)
Definition walkData (data : gmap string FormValue) (parentPath : list string)
    : option JsObject :=
  walk (Plain data) parentPath.

(** [result[label] = value].  Under the label [__proto__], which
    [result] does not own, the setter ignores a string and a number; it
    puts a record in the place of the prototype of [result], which
    leaves the own properties of [result] as they are and the later
    assignments as well, a record having writable properties only; it
    does the same with a function, whose properties [name] and [length]
    are not writable, and there the embedding stops ([None]). *)
Definition setLabel (result : gmap string Labeled) (label : string)
    (value : Labeled) : option (gmap string Labeled) :=
  if String.eqb label "__proto__" then
    match result !! label with
    | Some _ => Some (<[label := value]> result)
    | None =>
        match value with
        | LFunction => None
        | _ => Some result
        end
    end
  else Some (<[label := value]> result).

Section buildLabeledData.
Variable data : gmap string FormValue.

(** What the body of the second loop does to [result] for one field. *)
Definition labelField
    (into : FormField -> list string -> option (gmap string Labeled))
    (currentData : JsObject) (parentPath : list string)
    (result : gmap string Labeled) (field : FormField)
    : option (gmap string Labeled) :=
  let value := get currentData (fid field) in
  match field with
  | GroupField _ _ =>
      match into field (parentPath ++ [fid field]) with
      | Some groupValue =>
          if 0 <? size groupValue
          then setLabel result (flabel field) (LObject groupValue)
          else Some result
      | None => None
      end
  | _ =>
      match value with
      | None | Some VNull => Some result
      | Some (VString s) =>
          if String.eqb s "" then Some result
          else setLabel result (flabel field) (LString s)
      | Some (VNumber n) => setLabel result (flabel field) (LNumber n)
      | Some (VObject _) | Some VPrototype => Some result
      | Some VFunction => setLabel result (flabel field) LFunction
      end
  end.

Definition labelLevel
    (into : FormField -> list string -> option (gmap string Labeled))
    (fieldList : list FormField) (parentPath : list string)
    : option (gmap string Labeled) :=
  match walkData data parentPath with
  | None => Some ∅
  | Some currentData =>
      fold_left
        (fun result field =>
           match result with
           | Some result => labelField into currentData parentPath result field
           | None => None
           end)
        fieldList (Some ∅)
  end.

Fixpoint labelChildren (g : FormField) (path : list string)
    : option (gmap string Labeled) :=
  match g with
  | GroupField _ fields => labelLevel labelChildren fields path
  | _ => Some ∅
  end.

Definition buildLabeledData (fieldList : list FormField)
    (parentPath : list string) : option (gmap string Labeled) :=
  labelLevel labelChildren fieldList parentPath.
End buildLabeledData.

End Preview.

(** ** Import and export of the schema ([ConfigurableFormBuilder.tsx]) *)

Module Exchange.

(** A value that [JSON.parse] returns and [JSON.stringify] writes. *)
Inductive Json : Type :=
| JNull
| JBool (b : bool)
| JNumber (n : JsNumber)
| JString (s : string)
| JArray (items : list Json)
| JObject (props : gmap string Json).

(** The outcome of [JSON.parse (importJson)]: the parsed value, or the
    [SyntaxError] the engine throws, with the engine's own message. *)
Inductive ParseOutcome : Type :=
| Parsed (value : Json)
| SyntaxError (message : string).

Inductive MessageKey : Type :=
| invalidJson
| invalidFormat
| missingFields
| invalidFields.

(** The text of an error message: [t (key)] of the translations, or a text
    that the engine supplied. *)
Inductive Message : Type :=
| Translated (key : MessageKey)
| EngineText (text : string).

(** What a [catch] clause receives. *)
Inductive Thrown : Type :=
| ErrorInstance (message : Message)
| OtherValue.

(** [typeof v === 'string'] with [v] truthy. *)
Definition nonEmptyString (v : option Json) : bool :=
  match v with
  | Some (JString s) => negb (String.eqb s "")
  | _ => false
  end.

Definition isBoolean (v : option Json) : bool :=
  match v with Some (JBool _) => true | _ => false end.

(** [['text', 'number', 'group'].includes (v)]. *)
Definition isFieldTypeName (v : option Json) : bool :=
  match v with
  | Some (JString s) =>
      String.eqb s "text" || String.eqb s "number" || String.eqb s "group"
  | _ => false
  end.

Definition isGroupName (v : option Json) : bool :=
  match v with Some (JString s) => String.eqb s "group" | _ => false end.

(** The recursive [validateField] of [handleImportSubmit].  The recursion
    goes through the values of the object; [validateField_unfold] below
    states it with the property reads of the source. *)
Fixpoint validateField (field : Json) : bool :=
  match field with
  | JObject props =>
      let everyValid :=
        (fun v : Json =>
           match v with
           | JArray items => Some (forallb validateField items)
           | _ => None
           end) <$> props in
      nonEmptyString (props !! "id")
      && nonEmptyString (props !! "type")
      && nonEmptyString (props !! "label")
      && isBoolean (props !! "required")
      && isFieldTypeName (props !! "type")
      && (if isGroupName (props !! "type") then
            match everyValid !! "fields" with
            | Some (Some b) => b
            | _ => false
            end
          else true)
  | _ => false
  end.

(** The [try] block: the parsed document, or what is thrown. *)
Definition tryImport (outcome : ParseOutcome) : Thrown + Json :=
  match outcome with
  | SyntaxError message => inl (ErrorInstance (EngineText message))
  | Parsed parsed =>
      match parsed with
      | JNull | JBool _ | JNumber _ | JString _ =>
          inl (ErrorInstance (Translated invalidFormat))
      | JArray _ =>
          (* an array is an object without a [fields] property *)
          inl (ErrorInstance (Translated missingFields))
      | JObject props =>
          match props !! "fields" with
          | Some (JArray fields) =>
              if forallb validateField fields then inr parsed
              else inl (ErrorInstance (Translated invalidFields))
          | _ => inl (ErrorInstance (Translated missingFields))
          end
      end
  end.

(** The state the import dialog and the builder hold. *)
Record BuilderState : Type := mkState {
  config : Json;
  showImportModal : bool;
  importJson : string;
  importError : option Message
}.

(** [handleImportSubmit], given the outcome of parsing [importJson].  An
    empty [importError] is [None]. *)
Definition handleImportSubmit (outcome : ParseOutcome) (st : BuilderState)
    : BuilderState :=
  match tryImport outcome with
  | inr parsed =>
      {| config := parsed;
         showImportModal := false;
         importJson := "";
         importError := None |}
  | inl error =>
      {| config := config st;
         showImportModal := showImportModal st;
         importJson := importJson st;
         importError :=
           Some match error with
                | ErrorInstance message => message
                | OtherValue => Translated invalidJson
                end |}
  end.

(** The document [JSON.stringify] writes for a field: its own properties
    whose value is not [undefined]; a number that is not finite is written
    as [null]. *)
Definition numberToJson (n : JsNumber) : Json :=
  if isFiniteNumber n then JNumber n else JNull.

Definition typeName (t : FieldType) : string :=
  match t with
  | text => "text"
  | number => "number"
  | group => "group"
  end.

Definition addOptional (key : string) (v : option JsNumber)
    (props : gmap string Json) : gmap string Json :=
  match v with
  | Some n => <[key := numberToJson n]> props
  | None => props
  end.

Definition baseProps (b : BaseField) (t : FieldType) : gmap string Json :=
  addOptional "min" (min b)
    (addOptional "max" (max b)
       (<["id" := JString (id b)]>
          (<["label" := JString (label b)]>
             (<["required" := JBool (required b)]>
                (<["type" := JString (typeName t)]> ∅))))).

Fixpoint fieldToJson (f : FormField) : Json :=
  match f with
  | GroupField b fields =>
      JObject
        (<["fields" := JArray (map fieldToJson fields)]> (baseProps b group))
  | _ => JObject (baseProps (base f) (type f))
  end.

(** The properties of the document written for a field. *)
Definition propsOf (f : FormField) : gmap string Json :=
  match fieldToJson f with JObject props => props | _ => ∅ end.

Definition configToJson (c : FormConfig) : Json :=
  JObject {[ "fields" := JArray (map fieldToJson (cfg_fields c)) ]}.

(** The two ways [handleImportSubmit] ends: the dialog stays open with a
    message and the live config is the previous one, or the parsed document
    becomes the live config and the dialog is reset. *)
Definition rejected (st : BuilderState) (message : Message) : BuilderState :=
  {| config := config st;
     showImportModal := showImportModal st;
     importJson := importJson st;
     importError := Some message |}.

Definition accepted (parsed : Json) : BuilderState :=
  {| config := parsed;
     showImportModal := false;
     importJson := "";
     importError := None |}.

(** The checks of the [try] block, each on a parsed value. *)
Definition isObject (v : Json) : bool :=
  match v with JArray _ | JObject _ => true | _ => false end.

Definition fieldsArray (v : Json) : option (list Json) :=
  match v with
  | JObject props =>
      match props !! "fields" with
      | Some (JArray fields) => Some fields
      | _ => None
      end
  | _ => None
  end.

End Exchange.

(** ** Vocabulary of the statements *)

Module Tree.

(** The sibling lists found at [path]: from [fields], follow the groups
    whose ids are the elements of [path], in order.  Ids may repeat, so
    there can be several. *)
Fixpoint levelsAt (fields : list FormField) (path : list string)
    : list (list FormField) :=
  match path with
  | [] => [fields]
  | p :: rest =>
      flat_map
        (fun f =>
           match f with
           | GroupField b children =>
               if String.eqb (id b) p then levelsAt children rest else []
           | _ => []
           end)
        fields
  end.

(** [occursAt fields path f]: the field [f] is a member of a sibling list
    found at [path] below [fields]; [path] is the parent path of that
    occurrence of [f]. *)
Inductive occursAt : list FormField -> list string -> FormField -> Prop :=
| occurs_here fields f :
    In f fields -> occursAt fields [] f
| occurs_below fields b children path f :
    In (GroupField b children) fields ->
    occursAt children path f ->
    occursAt fields (id b :: path) f.

(** How many members of [fields] carry the id [fieldId]. *)
Definition countId (fieldId : string) (fields : list FormField) : nat :=
  length (List.filter (fun f => String.eqb (fid f) fieldId) fields).

Section everyFound.
Variable fieldId : string.
Variable ok : list FormField -> nat -> bool.

(** The sibling lists that [moveField] rearranges are those where its
    scan finds [fieldId]: the first level, from each branch root, that
    has a member with that id.  [everyFound] holds when each of them,
    with the index found there, passes [ok]. *)
Definition foundLevel (into : FormField -> bool)
    (fields : list FormField) : bool :=
  match Mutator.findIndex fieldId fields with
  | Some i => ok fields i
  | None => forallb into fields
  end.

Fixpoint foundInGroup (f : FormField) : bool :=
  match f with
  | GroupField _ children => foundLevel foundInGroup children
  | _ => true
  end.

Definition everyFound (fields : list FormField) : bool :=
  foundLevel foundInGroup fields.
End everyFound.

(** The index [i] is neither the first nor the last of [fields]. *)
Definition inside (fields : list FormField) (i : nat) : bool :=
  (0 <? i) && (i + 1 <? length fields).

(** [sitsInside]: wherever [moveField] finds the id, the field sits at a
    non-boundary position of its sibling list.  [sitsAlone]: moreover no
    other member of that sibling list carries the id. *)
Definition sitsInside (fieldId : string) (fields : list FormField) : bool :=
  everyFound fieldId inside fields.

Definition sitsAlone (fieldId : string) (fields : list FormField) : bool :=
  everyFound fieldId
    (fun l i => inside l i && (countId fieldId l =? 1)) fields.

(** How many fields of the tree carry the id [fieldId], groups and their
    descendants included. *)
Fixpoint occurrences (fieldId : string) (f : FormField) : nat :=
  (if String.eqb (fid f) fieldId then 1 else 0)
  + match f with
    | GroupField _ children => list_sum (map (occurrences fieldId) children)
    | _ => 0
    end.

Definition occurrencesIn (fieldId : string) (fields : list FormField) : nat :=
  list_sum (map (occurrences fieldId) fields).


(** No character of [s] is the separator of the composite keys. *)
Fixpoint dotFree (s : string) : bool :=
  match s with
  | EmptyString => true
  | String c rest => negb (Ascii.eqb c ".") && dotFree rest
  end.

(** What the import accepts of a field: a non-empty id and label, here and
    below; [finiteBounds]: the bounds that are present are finite numbers. *)
Fixpoint importable (f : FormField) : bool :=
  negb (String.eqb (fid f) "") && negb (String.eqb (flabel f) "")
  && match f with
     | GroupField _ children => forallb importable children
     | _ => true
     end.

Definition finiteBound (v : option JsNumber) : bool :=
  match v with Some n => isFiniteNumber n | None => true end.

Fixpoint finiteBounds (f : FormField) : bool :=
  finiteBound (fmin f) && finiteBound (fmax f)
  && match f with
     | GroupField _ children => forallb finiteBounds children
     | _ => true
     end.

(** What a result of the search for [fieldId] is: a field with that id, at
    its index of a sibling list found at some path [suffix] below the
    fields searched, where the path from the root passes the scope check
    of the search. *)
Definition located (fieldId : string) (parentPath : option (list string))
    (fields : list FormField) (currentPath : list string)
    (r : Locator.FieldSearchResult) : Prop :=
  exists suffix,
    In (Locator.parent r) (levelsAt fields suffix)
    /\ Locator.parent r !! Locator.index r = Some (Locator.field r)
    /\ fid (Locator.field r) = fieldId
    /\ Locator.checkWithinScope parentPath (currentPath ++ suffix) = true.

(** A field with another id than [fieldId]. *)
Definition otherId (fieldId : string) (f : FormField) : Prop :=
  String.eqb (fid f) fieldId = false.

(** Moving [fieldId] in the direction [first] and then in the direction
    [second], inside the field [f], gives [f] back, provided every sibling
    list where the id is found passes [ok]. *)
Definition restores (fieldId : string) (ok : list FormField -> nat -> bool)
    (first second : Mutator.Direction) (f : FormField) : Prop :=
  foundInGroup fieldId ok f = true ->
  Mutator.moveInGroup fieldId second (Mutator.moveInGroup fieldId first f) = f.

(** The body of the second loop of [buildLabeledData]. *)
Definition labelStep (data : gmap string Preview.FormValue)
    (currentData : Preview.JsObject) (parentPath : list string)
    : gmap string Preview.Labeled -> FormField
      -> option (gmap string Preview.Labeled) :=
  Preview.labelField (Preview.labelChildren data) currentData parentPath.

(** The second loop of [buildLabeledData], from the result [acc]. *)
Definition labelLoop (data : gmap string Preview.FormValue)
    (currentData : Preview.JsObject) (parentPath : list string)
    (fieldList : list FormField) (acc : option (gmap string Preview.Labeled))
    : option (gmap string Preview.Labeled) :=
  fold_left
    (fun result field =>
       match result with
       | Some result => labelStep data currentData parentPath result field
       | None => None
       end)
    fieldList acc.

(** A value that the form data holds: a string, a number, [null], or a
    record of such values.  What a read inherits is read, never held. *)
Inductive held : Preview.FormValue -> Prop :=
| held_string s : held (Preview.VString s)
| held_number n : held (Preview.VNumber n)
| held_null : held Preview.VNull
| held_record m :
    (forall key value, m !! key = Some value -> held value) ->
    held (Preview.VObject m).

(** A key that a plain object inherits nothing under: it is not
    [__proto__] and no function of [Object.prototype] has that name. *)
Definition ordinary (key : string) : bool :=
  negb (String.eqb key "__proto__") && negb (Preview.isPrototypeFunction key).

(** Every id of the tree is ordinary. *)
Fixpoint ordinaryIds (f : FormField) : bool :=
  ordinary (fid f)
  && match f with
     | GroupField _ children => forallb ordinaryIds children
     | _ => true
     end.

(** No field of the tree is labelled [__proto__]. *)
Fixpoint plainLabels (f : FormField) : bool :=
  negb (String.eqb (flabel f) "__proto__")
  && match f with
     | GroupField _ children => forallb plainLabels children
     | _ => true
     end.

(** The children of a group; a text or a number field has none. *)
Definition children (f : FormField) : list FormField :=
  match f with GroupField _ fs => fs | _ => [] end.

Section origin.
Variable toNumber : string -> JsNumber.
Variable formData : gmap string Preview.FormValue.

(** The value [validateFieldRecursive] reads for a field at [path]. *)
Definition valueAt (path : list string) (f : FormField)
    : option Preview.FormValue :=
  Preview.get (Preview.dataAt formData path) (fid f).

(** [origin fields path key e]: the entry [(key, e)] is the validation
    error of a field that occurs below [fields], [path] being the path at
    which [fields] is reached. *)
Definition origin (fields : list FormField) (path : list string)
    (key : string) (e : Preview.ValidationError) : Prop :=
  exists suffix f,
    occursAt fields suffix f
    /\ key = Preview.makeErrorKey (path ++ suffix) (fid f)
    /\ Preview.validateValue toNumber f
         (Preview.orNull (valueAt (path ++ suffix) f)) = Some e.
End origin.

(** A number, a string that is not [''] or a function, as a value of the
    export. *)
Definition labeledOf (v : Preview.FormValue) : option Preview.Labeled :=
  match v with
  | Preview.VString s =>
      if String.eqb s "" then None else Some (Preview.LString s)
  | Preview.VNumber n => Some (Preview.LNumber n)
  | Preview.VFunction => Some Preview.LFunction
  | _ => None
  end.

(** The entry that the second loop of [buildLabeledData] assigns under
    the label of [f], if it assigns one: for a group the export of its
    children, one step down the path, when that is not empty; for a text
    or number field the value read for it, when [labeledOf] keeps it. *)
Definition entryOf (data : gmap string Preview.FormValue)
    (currentData : Preview.JsObject) (parentPath : list string)
    (f : FormField) : option Preview.Labeled :=
  match f with
  | GroupField _ children =>
      match
        Preview.buildLabeledData data children (parentPath ++ [fid f])
      with
      | Some groupValue =>
          if 0 <? size groupValue then Some (Preview.LObject groupValue)
          else None
      | None => None
      end
  | _ =>
      match Preview.get currentData (fid f) with
      | Some x => labeledOf x
      | None => None
      end
  end.


(** The result of the second loop after the field [f], as long as no
    label is [__proto__]: the entry of [f], if it has one, is put under
    its label. *)
Definition entryStep (data : gmap string Preview.FormValue)
    (currentData : Preview.JsObject) (parentPath : list string)
    (result : gmap string Preview.Labeled) (f : FormField)
    : gmap string Preview.Labeled :=
  match entryOf data currentData parentPath f with
  | Some v => <[flabel f := v]> result
  | None => result
  end.


(** The record that a write goes on in, one step down the path. *)
Definition recordAt (data : gmap string Preview.FormValue) (p : string)
    : gmap string Preview.FormValue :=
  match Preview.get (Preview.Plain data) p with
  | Some (Preview.VObject m) => m
  | _ => ∅
  end.


End Tree.

(** ** Sample trees *)

Module Samples.

Definition textField (i l : string) : FormField :=
  TextField (mkBase i l false None None).

Definition groupField (i l : string) (children : list FormField) : FormField :=
  GroupField (mkBase i l false None None) children.

(** A field [x] two groups deep. *)
Definition deepX : FormField := textField "x" "deep".
Definition nested : list FormField :=
  [groupField "g1" "G1" [groupField "g2" "G2" [deepX]]].

(** [x] directly under [g1], and again under [g2], a group of [g1]. *)
Definition underG1 : FormField := textField "x" "under g1".
Definition underG2 : FormField := textField "x" "under g2".
Definition duplicated : list FormField :=
  [groupField "g1" "G1" [groupField "g2" "G2" [underG2]; underG1]].

(** Two groups side by side, each with a field [x] as second member. *)
Definition sideBySide : list FormField :=
  [groupField "g1" "G1" [textField "a" "A"; textField "x" "X1"];
   groupField "g2" "G2" [textField "b" "B"; textField "x" "X2"]].

(** A required group of optional fields. *)
Definition requiredGroup : list FormField :=
  [GroupField (mkBase "g" "G" true None None) [textField "t" "T"]].

(** A form whose only field has an empty label, as the editor leaves it
    when the label input is cleared. *)
Definition unlabelled : FormConfig :=
  mkConfig [textField "field-1" ""].

(** The state of the builder with the import dialog open on a text that
    is no JSON. *)
Definition dialogOpen : Exchange.BuilderState :=
  {| Exchange.config := Exchange.configToJson (mkConfig [textField "t" "T"]);
     Exchange.showImportModal := true;
     Exchange.importJson := "invalid json{";
     Exchange.importError := None |}.






(** The id [x] in the middle of the group [g1] and at the head of the
    group [g2]: no two fields of one sibling list have one id. *)
Definition crossDup : FormConfig :=
  mkConfig
    [groupField "g1" "G1"
       [textField "a" "A"; textField "x" "X1"; textField "b" "B"];
     groupField "g2" "G2" [textField "x" "X2"; textField "c" "C"]].


(** Two fields with the id [x] next to each other, inside a sibling list. *)
Definition twins : FormConfig :=
  mkConfig
    [textField "a" "A"; textField "x" "X1"; textField "x" "X2";
     textField "b" "B"].

(** A number field with both bounds. *)
Definition percent : FormField :=
  NumberField
    (mkBase "n" "Percent" false (Some (Finite 0)) (Some (Finite 100))).

(** A coercion for the samples: an optional minus sign and decimal
    digits give the integer they write, exactly, the empty string gives
    0, and every other string gives [NaN].  [Number (s)] gives the same
    on the empty string, on a string of at most fifteen digits with or
    without the sign, and on a string that is no numeric literal.  It
    differs elsewhere: [Number] rounds a longer string of digits to a
    double, and it reads white space around a literal, a plus sign, a
    fraction, an exponent, the prefixes [0x], [0o] and [0b], and
    [Infinity], all of which are [NaN] here.  The samples stay where
    the two agree. *)
Definition digitValue (c : ascii) : option Z :=
  let n := Z.of_nat (nat_of_ascii c) in
  if ((48 <=? n) && (n <=? 57))%Z then Some (n - 48)%Z else None.

Fixpoint digitsValue (s : string) (acc : Z) : option Z :=
  match s with
  | EmptyString => Some acc
  | String c rest =>
      match digitValue c with
      | Some d => digitsValue rest (10 * acc + d)%Z
      | None => None
      end
  end.

Definition decimalToNumber (s : string) : JsNumber :=
  match s with
  | String "-" (String c rest) =>
      match digitsValue (String c rest) 0 with
      | Some n => Finite (inject_Z (- n))
      | None => NaN
      end
  | _ =>
      match digitsValue s 0 with
      | Some n => Finite (inject_Z n)
      | None => NaN
      end
  end.

End Samples.

(** ** Identifiers of new fields ([utils/generateId.ts]) *)

Module Identifier.

(** [CreateIdOptions]: every key is optional; [None] is an absent key, for
    which the destructuring takes the default.  [length] is a count of
    loop turns, a natural number here. *)
Record CreateIdOptions : Type := mkOptions {
  o_length : option nat;
  o_lowercase : option bool;
  o_uppercase : option bool;
  o_numbers : option bool;
  o_symbols : option bool
}.

(** [generateId ()], called with no options. *)
Definition noOptions : CreateIdOptions := mkOptions None None None None None.

Definition lowercaseSet : string := "abcdefghijklmnopqrstuvwxyz".
Definition uppercaseSet : string := "ABCDEFGHIJKLMNOPQRSTUVWXYZ".
Definition numberSet : string := "0123456789".
Definition symbolSet : string := "!@#$%^&*()_+-=[]{}|;:,.<>?".

(** [flag && set], kept by [filter (Boolean)] when the flag is set, then
    joined with the empty separator. *)
Definition enabled (flag : option bool) (default : bool) (set : string)
    : string :=
  if Mutator.orElse flag default then set else "".

Definition alphabetOf (options : CreateIdOptions) : string :=
  enabled (o_lowercase options) true lowercaseSet
  +:+ enabled (o_uppercase options) true uppercaseSet
  +:+ enabled (o_numbers options) true numberSet
  +:+ enabled (o_symbols options) false symbolSet.

(** [id += alphabet[index]]: an index out of range reads [undefined],
    which the concatenation writes out. *)
Definition charAt (alphabet : string) (index : nat) : string :=
  match String.get index alphabet with
  | Some c => String c ""
  | None => "undefined"
  end.

(** The [for] loop from the turn [i] on, [turns] turns being left;
    [draw i] is the value of [Math.floor (Math.random () * alphabet.length)]
    in the turn [i]. *)
Fixpoint randomPart (alphabet : string) (draw : nat -> nat) (i turns : nat)
    : string :=
  match turns with
  | 0 => ""
  | S turns' =>
      charAt alphabet (draw i) +:+ randomPart alphabet draw (S i) turns'
  end.

(** The decimal digits that a template literal writes for an integer. *)
Definition decimal (n : N) : string :=
  DecimalString.NilZero.string_of_uint (N.to_uint n).

(** [generateId (options)], given the clock [now = Date.now ()] and the
    draws of the random source.  [None] is the [Error] thrown for an empty
    alphabet. *)
Definition generateId (options : CreateIdOptions) (now : N)
    (draw : nat -> nat) : option string :=
  let alphabet := alphabetOf options in
  if String.length alphabet =? 0 then None
  else
    Some ("field-" +:+ decimal now +:+ "-"
          +:+ randomPart alphabet draw 0 (Mutator.orElse (o_length options) 11)).

End Identifier.

(** ** Adding and deleting fields ([context/FormBuilderContext.tsx]) *)

Module Builder.

(** The keys of the default labels in the translations. *)
Inductive DefaultLabel : Type :=
| textFieldLabel
| numberFieldLabel
| groupFieldLabel.

Section addField.
(** [i18n.t (key)] on the keys of the default labels. *)
Variable t : DefaultLabel -> string.
(** The id that [generateId ()] returns in this call. *)
Variable newId : string.

Definition getDefaultLabel (type : FieldType) : string :=
  match type with
  | text => t textFieldLabel
  | number => t numberFieldLabel
  | group => t groupFieldLabel
  end.

Definition newField (fieldType : FieldType) : FormField :=
  let b := mkBase newId (getDefaultLabel fieldType) false None None in
  match fieldType with
  | group => GroupField b []
  | number => NumberField b
  | text => TextField b
  end.

Section updateFields.
Variable parentId : string.
Variable added : FormField.

(** The callback of [fields.map] in [updateFields]; the second component
    tells whether this call set [parentFound]. *)
Fixpoint addInto (field : FormField) : FormField * bool :=
  match field with
  | GroupField b fields =>
      if String.eqb (id b) parentId then
        (GroupField b (fields ++ [added]), true)
      else
        let results := map addInto fields in
        (GroupField b (map fst results), existsb snd results)
  | _ => (field, false)
  end.

(** [updateFields (fields)], with the value [parentFound] has afterwards,
    when it was [false] before. *)
Definition updateFields (fields : list FormField)
    : list FormField * bool :=
  let results := map addInto fields in
  (map fst results, existsb snd results).
End updateFields.

(** The updater of [addField (parentId, fieldType)]; [parentId] is [None]
    for [null]. *)
Definition addField (parentId : option string) (fieldType : FieldType)
    (prev : FormConfig) : FormConfig :=
  let added := newField fieldType in
  match parentId with
  | None => {| cfg_fields := cfg_fields prev ++ [added] |}
  | Some p =>
      let (updatedFields, parentFound) :=
        updateFields p added (cfg_fields prev) in
      if negb parentFound then {| cfg_fields := updatedFields ++ [added] |}
      else {| cfg_fields := updatedFields |}
  end.
End addField.

Section deleteField.
Variable fieldId : string.

(** [fields.filter (...).map (...)] of [deleteFromFields], the two passes
    in one; [deleteFromFields_unfold] below states it with the two passes
    of the source. *)
Fixpoint deleteInGroup (field : FormField) : FormField :=
  match field with
  | GroupField b fields =>
      GroupField b
        ((fix deleteFrom (l : list FormField) : list FormField :=
            match l with
            | [] => []
            | f :: rest =>
                if negb (String.eqb (fid f) fieldId)
                then deleteInGroup f :: deleteFrom rest
                else deleteFrom rest
            end) fields)
  | _ => field
  end.

Fixpoint deleteFromFields (fields : list FormField) : list FormField :=
  match fields with
  | [] => []
  | f :: rest =>
      if negb (String.eqb (fid f) fieldId)
      then deleteInGroup f :: deleteFromFields rest
      else deleteFromFields rest
  end.

Definition deleteField (prev : FormConfig) : FormConfig :=
  {| cfg_fields := deleteFromFields (cfg_fields prev) |}.
End deleteField.

End Builder.

(** The [findField] that the context hands out: an unscoped search of
    [fields], or of the live config when no list is given. *)
Module Context.

Definition findField (config : FormConfig) (fieldId : string)
    (fields : option (list FormField)) : option Locator.FieldSearchResult :=
  let searchFields := Mutator.orElse fields (cfg_fields config) in
  Locator.findField fieldId None searchFields.

End Context.

(** ** The field editor ([components/FieldEditor.tsx], [FieldTree.tsx]) *)

Module Editor.

(** [onUpdate ({ label: value })]. *)
Definition handleLabelChange (value : string) : Mutator.FieldUpdates :=
  Mutator.mkUpdates None (Some value) None None None None None.

(** [onUpdate ({ required: checked })]. *)
Definition handleRequiredChange (checked : bool) : Mutator.FieldUpdates :=
  Mutator.mkUpdates None None (Some checked) None None None None.

Section bounds.
(** [Number (s)] on a string, the coercion of the engine. *)
Variable toNumber : string -> JsNumber.

(** The bound sent for the text of an input: [undefined] for an empty
    text or one that is no number. *)
Definition boundOf (value : string) : option JsNumber :=
  if String.eqb value "" || isNaN (toNumber value) then None
  else Some (toNumber value).

(** [handleMinChange (value)]: the update sent, if one is sent. *)
Definition handleMinChange (field : FormField) (value : string)
    : option Mutator.FieldUpdates :=
  match type field with
  | number =>
      Some (Mutator.mkUpdates None None None None
              (Some (boundOf value)) None None)
  | _ => None
  end.

Definition handleMaxChange (field : FormField) (value : string)
    : option Mutator.FieldUpdates :=
  match type field with
  | number =>
      Some (Mutator.mkUpdates None None None None
              None (Some (boundOf value)) None)
  | _ => None
  end.
End bounds.

(** The two flags [FieldTree] computes for the member at [index] of
    [fields]. *)
Definition canMoveUp (index : nat) : bool := 0 <? index.

Definition canMoveDown (fields : list FormField) (index : nat) : bool :=
  (Z.of_nat index <? Z.of_nat (length fields) - 1)%Z.

End Editor.

(** ** Further vocabulary *)

Module Shape.

(** How many groups of the tree carry the id [parentId]. *)
Fixpoint groupsNamed (parentId : string) (f : FormField) : nat :=
  match f with
  | GroupField b children =>
      (if String.eqb (id b) parentId then 1 else 0)
      + list_sum (map (groupsNamed parentId) children)
  | _ => 0
  end.

Definition groupsNamedIn (parentId : string) (fields : list FormField) : nat :=
  list_sum (map (groupsNamed parentId) fields).

(** The button of [direction] is disabled for the member at the index [i]
    of [fields]. *)
Definition disabled (direction : Mutator.Direction)
    (fields : list FormField) (i : nat) : bool :=
  match direction with
  | Mutator.up => negb (Editor.canMoveUp i)
  | Mutator.down => negb (Editor.canMoveDown fields i)
  end.

(** Wherever [moveField] finds the id, the button of [direction] is
    disabled for the member it finds. *)
Definition sitsAtEnd (direction : Mutator.Direction) (fieldId : string)
    (fields : list FormField) : bool :=
  Tree.everyFound fieldId (disabled direction) fields.

(** The condition of the export and import round trip, on a list of
    fields: every id and label is non-empty, every bound present is
    finite. *)
Definition roundTrips (fields : list FormField) : bool :=
  forallb Tree.importable fields && forallb Tree.finiteBounds fields.

(** The fields of the tree in depth-first order, a group before its
    children. *)
Fixpoint preorder (f : FormField) : list FormField :=
  f :: match f with
       | GroupField _ children => flat_map preorder children
       | _ => []
       end.

Definition preorderIn (fields : list FormField) : list FormField :=
  flat_map preorder fields.

(** Every character of [s] is white space. *)
Fixpoint allWhiteSpace (s : string) : bool :=
  match s with
  | EmptyString => true
  | String c rest => Preview.isWhiteSpace c && allWhiteSpace rest
  end.

(** A value that a control stores: a string, a number or [null]. *)
Definition isPrimitive (v : Preview.FormValue) : bool :=
  match v with
  | Preview.VString _ | Preview.VNumber _ | Preview.VNull => true
  | _ => false
  end.

(** An occurrence of the id [fieldId] that a search with [parentPath]
    accepts: a member [f] at the index [i] of a sibling list found at
    [path], where [path] passes the scope check. *)
Definition inScope (fieldId : string) (parentPath : option (list string))
    (fields : list FormField) (path : list string) (level : list FormField)
    (i : nat) (f : FormField) : Prop :=
  In level (Tree.levelsAt fields path)
  /\ level !! i = Some f
  /\ fid f = fieldId
  /\ Locator.checkWithinScope parentPath path = true.

End Shape.

(** ** More samples *)

Module Cases.

(** The default labels of the English translations. *)
Definition englishLabels (key : Builder.DefaultLabel) : string :=
  match key with
  | Builder.textFieldLabel => "New Text Field"
  | Builder.numberFieldLabel => "New Number Field"
  | Builder.groupFieldLabel => "New Group"
  end.

Definition street : FormField := Samples.textField "street" "Street".

Definition geo : FormField :=
  Samples.groupField "geo" "Position" [Samples.percent].

(** A form with a group two levels deep. *)
Definition contactForm : FormConfig :=
  mkConfig
    [Samples.textField "name" "Name";
     Samples.groupField "address" "Address" [street; geo];
     Samples.textField "note" "Note"].

(** A required text field. *)
Definition requiredName : FormField :=
  TextField (mkBase "name" "Name" true None None).


(** Form data of [contactForm] with the street filled in. *)
Definition streetData : gmap string Preview.FormValue :=
  {[ "address" :=
       Preview.VObject {[ "street" := Preview.VString "Main" ]} ]}.

(** A field object of an import with a [min] that is no number. *)
Definition oddNumber : gmap string Exchange.Json :=
  <["id" := Exchange.JString "n"]>
    (<["type" := Exchange.JString "number"]>
       (<["label" := Exchange.JString "N"]>
          (<["required" := Exchange.JBool false]> ∅))).

(** A random source that draws the index 7 each time. *)
Definition sevens (turn : nat) : nat := 7.

End Cases.

(** * Properties *)

Import Locator Mutator Preview Exchange Tree Samples.

(** ** The scoped search *)

Lemma searchChildren_group fieldId parentPath b fields nextPath :
  searchChildren fieldId parentPath (GroupField b fields) nextPath
  = searchRecursive fieldId parentPath fields nextPath.
Proof. reflexivity. Qed.

(** [pathStartsWith target prefix] holds exactly when [target] is [prefix]
    followed by some further ids. *)
Lemma everyMatches_spec (arr skipped target : list string) :
  everyMatches arr (skipped ++ target) (length skipped) = true
  <-> exists rest, target = arr ++ rest.
Proof.
  revert skipped target. induction arr as [|x arr IH]; intros skipped target.
  - simpl. split; [intros _; now exists target | reflexivity].
  - simpl. destruct target as [|y target].
    + rewrite lookup_ge_None_2 by (rewrite length_app; simpl; lia).
      split; [discriminate | intros [rest H]; discriminate H].
    + rewrite list_lookup_middle by reflexivity.
      replace (skipped ++ y :: target) with ((skipped ++ [y]) ++ target)
        by (rewrite <- app_assoc; reflexivity).
      replace (S (length skipped)) with (length (skipped ++ [y]))
        by (rewrite length_app; simpl; lia).
      rewrite andb_true_iff, IH, String.eqb_eq. split.
      * intros [-> [rest ->]]. now exists rest.
      * intros [rest H]. injection H as -> ->.
        split; [reflexivity|now exists rest].
Qed.

Lemma pathStartsWith_spec (target prefix : list string) :
  pathStartsWith target prefix = true <-> exists rest, target = prefix ++ rest.
Proof.
  pose proof (everyMatches_spec prefix [] target) as Hevery. simpl in Hevery.
  unfold pathStartsWith. rewrite andb_true_iff, Hevery.
  split; [tauto|]. intros [rest ->]. split; [|now exists rest].
  apply Nat.leb_le. rewrite length_app. lia.
Qed.

Section locator_facts.
Variable fieldId : string.
Variable parentPath : option (list string).

Lemma scanFrom_located (fieldList : list FormField) (currentPath : list string)
    (rest : list FormField) :
  Forall
    (fun g => forall p r,
       searchChildren fieldId parentPath g p = Some r ->
       located fieldId parentPath (children g) p r)
    rest ->
  forall done i r,
    fieldList = done ++ rest -> i = length done ->
    scanFrom fieldId parentPath (searchChildren fieldId parentPath)
      fieldList currentPath (checkWithinScope parentPath currentPath) rest i
    = Some r ->
    located fieldId parentPath fieldList currentPath r.
Proof.
  induction 1 as [|f rest Hf _ IH]; intros done i r Hlist Hi Hscan;
    [discriminate|].
  simpl in Hscan.
  destruct (checkWithinScope parentPath currentPath
            && String.eqb (fid f) fieldId) eqn:Hmatch.
  - injection Hscan as <-. apply andb_true_iff in Hmatch as [Hscope Hid].
    exists []. simpl. rewrite app_nil_r.
    repeat split; [now left | | now apply String.eqb_eq | exact Hscope].
    subst. now apply list_lookup_middle.
  - assert (Hnext : scanFrom fieldId parentPath
                      (searchChildren fieldId parentPath) fieldList currentPath
                      (checkWithinScope parentPath currentPath) rest (S i)
                    = Some r ->
                    located fieldId parentPath fieldList currentPath r).
    { apply (IH (done ++ [f])).
      - now rewrite <- app_assoc.
      - rewrite length_app. simpl. lia. }
    destruct f as [b|b|b cs]; try (now apply Hnext).
    destruct (descends parentPath (currentPath ++ [fid (GroupField b cs)]));
      [|now apply Hnext].
    destruct (searchChildren fieldId parentPath (GroupField b cs)
                (currentPath ++ [fid (GroupField b cs)])) as [r'|] eqn:Hinto;
      [|now apply Hnext].
    injection Hscan as <-.
    destruct (Hf _ _ Hinto) as (suffix & Hlevel & Hlook & Hid & Hscope).
    exists (id b :: suffix). rewrite <- app_assoc in Hscope.
    repeat split; try assumption.
    simpl. apply in_flat_map. exists (GroupField b cs).
    split; [subst; apply in_or_app; right; now left|].
    now rewrite String.eqb_refl.
Qed.

Lemma searchChildren_located (g : FormField) (p : list string)
    (r : FieldSearchResult) :
  searchChildren fieldId parentPath g p = Some r ->
  located fieldId parentPath (children g) p r.
Proof.
  revert p r. induction g as [b|b|b cs IH] using FormField_tree_ind;
    intros p r Hsearch; try discriminate.
  simpl in Hsearch. unfold searchLevel in Hsearch.
  destruct (rootOnlyRejects parentPath p); [discriminate|].
  exact (scanFrom_located cs p cs IH [] 0 r eq_refl eq_refl Hsearch).
Qed.

(** The scoped search is sound up to the scope check: what it returns has
    the id asked for and lies at a path that starts with the parent path
    given (the root level itself when that path is empty). *)
Lemma findField_located (fields : list FormField) (r : FieldSearchResult) :
  findField fieldId parentPath fields = Some r ->
  located fieldId parentPath fields [] r.
Proof.
  unfold findField, searchRecursive, searchLevel. intros Hsearch.
  destruct (rootOnlyRejects parentPath []); [discriminate|].
  refine (scanFrom_located fields [] fields _ [] 0 r eq_refl eq_refl Hsearch).
  apply List.Forall_forall. intros g _ p r'. apply searchChildren_located.
Qed.
End locator_facts.

(** C1. The scoped search at the parent path [["g1"]] returns a field whose
    parent path is [["g1"; "g2"]], a strict extension of the path asked
    for.  In [nested] the only [x] lies two groups deep, and no member of
    the sibling list at [["g1"]] has the id [x]; in [duplicated], where
    [x] occurs directly under [g1] and under [g2], the search scoped to
    [g1] returns the occurrence under [g2]. *)
Theorem findField_scope_returns_deeper_field :
  findField "x" (Some ["g1"]) nested
    = Some {| field := deepX; parent := [deepX]; index := 0 |}
  /\ levelsAt nested ["g1"; "g2"] = [[deepX]]
  /\ levelsAt nested ["g1"] = [[groupField "g2" "G2" [deepX]]]
  /\ findField "x" (Some ["g1"]) duplicated
    = Some {| field := underG2; parent := [underG2]; index := 0 |}
  /\ levelsAt duplicated ["g1"]
    = [[groupField "g2" "G2" [underG2]; underG1]].
Proof. repeat split; reflexivity. Qed.

(** ** Re-typing a field *)

(** A type change to [group] keeps every attribute of the field that the
    update does not override, [min] and [max] included. *)
Lemma applyUpdates_to_group_keeps_bounds b :
  applyUpdates (NumberField b) (retype group) = GroupField b [].
Proof. destruct b; reflexivity. Qed.

(** C2. Re-typing the number field [percent], which carries [min = 0] and
    [max = 100], to a group yields a group field that still carries both
    bounds. *)
Theorem updateField_to_group_retains_min_max :
  updateField "n" (retype group) (mkConfig [percent])
  = mkConfig
      [GroupField
         (mkBase "n" "Percent" false (Some (Finite 0)) (Some (Finite 100)))
         []].
Proof. reflexivity. Qed.

(** ** Moving a field *)

(** C7. With the id [x] under two sibling groups, one call of [moveField]
    reorders the children of both groups. *)
Theorem moveField_reorders_every_branch :
  moveField "x" up (mkConfig sideBySide)
  = mkConfig
      [groupField "g1" "G1" [textField "x" "X1"; textField "a" "A"];
       groupField "g2" "G2" [textField "x" "X2"; textField "b" "B"]].
Proof. reflexivity. Qed.

(** *** Moving up and down again *)

Section move_facts.
Variable fieldId : string.

Lemma findIndex_found pre x post :
  Forall (otherId fieldId) pre ->
  String.eqb (fid x) fieldId = true ->
  findIndex fieldId (pre ++ x :: post) = Some (length pre).
Proof.
  intros Hpre Hx. induction Hpre as [|y pre Hy _ IH]; simpl.
  - now rewrite Hx.
  - unfold otherId in Hy. now rewrite Hy, IH.
Qed.

Lemma findIndex_split fields i :
  findIndex fieldId fields = Some i ->
  exists pre x post,
    fields = pre ++ x :: post /\ length pre = i
    /\ String.eqb (fid x) fieldId = true /\ Forall (otherId fieldId) pre.
Proof.
  revert i. induction fields as [|f rest IH]; intros i H; simpl in H.
  - discriminate.
  - destruct (String.eqb (fid f) fieldId) eqn:Hf.
    + inversion H; subst. exists [], f, rest. repeat split; auto.
    + destruct (findIndex fieldId rest) as [j|] eqn:Hj; [|discriminate].
      inversion H; subst.
      destruct (IH j eq_refl) as (pre & x & post & -> & Hlen & Hx & Hpre).
      exists (f :: pre), x, post. simpl. repeat split; auto.
Qed.

Lemma findIndex_none fields :
  findIndex fieldId fields = None -> Forall (otherId fieldId) fields.
Proof.
  induction fields as [|f rest IH]; simpl; intros H; [constructor|].
  destruct (String.eqb (fid f) fieldId) eqn:Hf; [discriminate|].
  destruct (findIndex fieldId rest); [discriminate|].
  constructor; auto.
Qed.

Lemma findIndex_none_intro fields :
  Forall (otherId fieldId) fields -> findIndex fieldId fields = None.
Proof.
  induction 1 as [|f rest Hf _ IH]; simpl; [reflexivity|].
  unfold otherId in Hf. now rewrite Hf, IH.
Qed.

Lemma swap_cons f fields i j :
  swap (f :: fields) (S i) (S j) = f :: swap fields i j.
Proof.
  unfold swap. simpl.
  destruct (fields !! i), (fields !! j); reflexivity.
Qed.

Lemma swap_right pre a b post :
  swap (pre ++ a :: b :: post) (length pre) (S (length pre))
  = pre ++ b :: a :: post.
Proof.
  induction pre as [|y pre IH]; simpl; [reflexivity|].
  now rewrite swap_cons, IH.
Qed.

Lemma swap_left pre a b post :
  swap (pre ++ a :: b :: post) (S (length pre)) (length pre)
  = pre ++ b :: a :: post.
Proof.
  induction pre as [|y pre IH]; simpl; [reflexivity|].
  now rewrite swap_cons, IH.
Qed.

Lemma moveInFields_up_at pre y x post :
  Forall (otherId fieldId) (pre ++ [y]) ->
  String.eqb (fid x) fieldId = true ->
  moveInFields fieldId up (pre ++ y :: x :: post) = pre ++ x :: y :: post.
Proof.
  intros Hpre Hx. unfold moveInFields, moveLevel.
  replace (pre ++ y :: x :: post) with ((pre ++ [y]) ++ x :: post)
    by now rewrite <- app_assoc.
  rewrite findIndex_found by assumption.
  rewrite !length_app. simpl length.
  replace (Z.of_nat (length pre + 1) - 1)%Z with (Z.of_nat (length pre)) by lia.
  rewrite Nat2Z.id.
  destruct (_ || _) eqn:Hb.
  - apply orb_true_iff in Hb as [Hb|Hb];
      [apply Z.ltb_lt in Hb | apply Z.geb_le in Hb]; lia.
  - rewrite <- app_assoc. simpl.
    replace (length pre + 1) with (S (length pre)) by lia.
    apply swap_left.
Qed.

Lemma moveInFields_down_at pre x z post :
  Forall (otherId fieldId) pre ->
  String.eqb (fid x) fieldId = true ->
  moveInFields fieldId down (pre ++ x :: z :: post) = pre ++ z :: x :: post.
Proof.
  intros Hpre Hx. unfold moveInFields, moveLevel.
  rewrite findIndex_found by assumption.
  rewrite !length_app. simpl length.
  replace (Z.of_nat (length pre) + 1)%Z with (Z.of_nat (S (length pre))) by lia.
  rewrite Nat2Z.id.
  destruct (_ || _) eqn:Hb.
  - apply orb_true_iff in Hb as [Hb|Hb];
      [apply Z.ltb_lt in Hb | apply Z.geb_le in Hb]; lia.
  - apply swap_right.
Qed.

Lemma moveInGroup_id direction f :
  fid (moveInGroup fieldId direction f) = fid f.
Proof. destruct f; reflexivity. Qed.

Lemma moveInFields_none direction fields :
  findIndex fieldId fields = None ->
  moveInFields fieldId direction fields
  = map (moveInGroup fieldId direction) fields.
Proof. intros H. unfold moveInFields, moveLevel. now rewrite H. Qed.

Lemma findIndex_none_map direction fields :
  findIndex fieldId fields = None ->
  findIndex fieldId (map (moveInGroup fieldId direction) fields) = None.
Proof.
  intros H. apply findIndex_none_intro.
  apply findIndex_none in H. apply List.Forall_map.
  eapply List.Forall_impl; [|exact H]. intros f Hf.
  unfold otherId. now rewrite moveInGroup_id.
Qed.

Lemma countId_app l1 l2 :
  countId fieldId (l1 ++ l2) = countId fieldId l1 + countId fieldId l2.
Proof. unfold countId. now rewrite List.filter_app, length_app. Qed.

Lemma countId_other fields :
  Forall (otherId fieldId) fields -> countId fieldId fields = 0.
Proof.
  unfold countId. induction 1 as [|f rest Hf _ IH]; simpl; [reflexivity|].
  unfold otherId in Hf. now rewrite Hf.
Qed.

(** Up and down again, in a sibling list where the scan finds the id
    after the first place. *)
Lemma up_down_found fields i :
  findIndex fieldId fields = Some i ->
  inside fields i = true ->
  moveInFields fieldId down (moveInFields fieldId up fields) = fields.
Proof.
  intros Hfind Hin. apply andb_true_iff in Hin as [Hlo _].
  apply Nat.ltb_lt in Hlo.
  destruct (findIndex_split _ _ Hfind)
    as (pre & x & post & -> & Hlen & Hx & Hpre).
  destruct (exists_last (l := pre)) as (pre' & y & ->).
  { intros ->. simpl in Hlen. lia. }
  rewrite <- app_assoc. simpl.
  rewrite moveInFields_up_at by assumption.
  apply moveInFields_down_at; [|assumption].
  apply Forall_app in Hpre. tauto.
Qed.

(** Down and up again, in a sibling list where the scan finds the id
    before the last place and no other member carries it. *)
Lemma down_up_found fields i :
  findIndex fieldId fields = Some i ->
  inside fields i && (countId fieldId fields =? 1) = true ->
  moveInFields fieldId up (moveInFields fieldId down fields) = fields.
Proof.
  intros Hfind Hin. apply andb_true_iff in Hin as [Hin Hcount].
  apply andb_true_iff in Hin as [_ Hhi].
  apply Nat.ltb_lt in Hhi. apply Nat.eqb_eq in Hcount.
  destruct (findIndex_split _ _ Hfind)
    as (pre & x & post & -> & Hlen & Hx & Hpre).
  rewrite length_app in Hhi. simpl in Hhi.
  destruct post as [|z post]; [simpl in Hhi; lia|].
  rewrite moveInFields_down_at by assumption.
  apply moveInFields_up_at; [|assumption].
  apply Forall_app. split; [assumption|].
  constructor; [|constructor].
  rewrite countId_app, (countId_other pre Hpre) in Hcount.
  unfold countId in Hcount. simpl in Hcount. rewrite Hx in Hcount.
  simpl in Hcount. unfold otherId.
  destruct (String.eqb (fid z) fieldId); [simpl in Hcount; lia|reflexivity].
Qed.

Section there_and_back.
Variable ok : list FormField -> nat -> bool.
Variables first second : Direction.
Hypothesis found_restores : forall fields i,
  findIndex fieldId fields = Some i ->
  ok fields i = true ->
  moveInFields fieldId second (moveInFields fieldId first fields) = fields.

Lemma move_restores_level fields :
  Forall (restores fieldId ok first second) fields ->
  everyFound fieldId ok fields = true ->
  moveInFields fieldId second (moveInFields fieldId first fields) = fields.
Proof.
  intros IH Hin. unfold everyFound, foundLevel in Hin.
  destruct (findIndex fieldId fields) as [i|] eqn:Hfind.
  - exact (found_restores fields i Hfind Hin).
  - rewrite (moveInFields_none first fields Hfind),
      (moveInFields_none second _ (findIndex_none_map first _ Hfind)).
    rewrite List.map_map. rewrite <- (List.map_id fields) at 2.
    apply List.map_ext_in. intros g Hg.
    rewrite List.Forall_forall in IH. apply IH; [assumption|].
    rewrite forallb_forall in Hin. now apply Hin.
Qed.

Lemma move_restores_group f : restores fieldId ok first second f.
Proof.
  induction f as [b|b|b children IH] using FormField_tree_ind;
    intros Hin; try reflexivity.
  change (GroupField b
            (moveInFields fieldId second (moveInFields fieldId first children))
          = GroupField b children).
  now rewrite (move_restores_level children IH Hin).
Qed.

Lemma move_restores fields :
  everyFound fieldId ok fields = true ->
  moveInFields fieldId second (moveInFields fieldId first fields) = fields.
Proof.
  apply move_restores_level. apply List.Forall_forall.
  intros f _. apply move_restores_group.
Qed.
End there_and_back.
End move_facts.

(** *** A field whose id occurs once *)

Section unique_id.
Variable fieldId : string.

Lemma occurrencesIn_cons f fields :
  occurrencesIn fieldId (f :: fields)
  = occurrences fieldId f + occurrencesIn fieldId fields.
Proof. reflexivity. Qed.

Lemma occurrencesIn_app l1 l2 :
  occurrencesIn fieldId (l1 ++ l2)
  = occurrencesIn fieldId l1 + occurrencesIn fieldId l2.
Proof. unfold occurrencesIn. now rewrite List.map_app, list_sum_app. Qed.

Lemma occurrences_group b cs :
  occurrences fieldId (GroupField b cs)
  = (if String.eqb (id b) fieldId then 1 else 0) + occurrencesIn fieldId cs.
Proof. reflexivity. Qed.

Lemma occurrences_own f :
  String.eqb (fid f) fieldId = true -> 1 <= occurrences fieldId f.
Proof. intros H. destruct f; cbn [occurrences]; rewrite H; lia. Qed.

Lemma occurrences_none_other f :
  occurrences fieldId f = 0 -> otherId fieldId f.
Proof.
  unfold otherId. intros H.
  destruct (String.eqb (fid f) fieldId) eqn:Hid; [|reflexivity].
  apply occurrences_own in Hid. lia.
Qed.

Lemma occurrencesIn_none fields :
  occurrencesIn fieldId fields = 0 ->
  Forall (fun f => occurrences fieldId f = 0) fields.
Proof.
  induction fields as [|f fields IH]; intros H; constructor;
    rewrite occurrencesIn_cons in H; [lia | apply IH; lia].
Qed.

(** Where the id is absent, no sibling list is found. *)
Lemma absent_foundInGroup ok f :
  occurrences fieldId f = 0 -> foundInGroup fieldId ok f = true.
Proof.
  induction f as [b|b|b cs IH] using FormField_tree_ind; intros H;
    try reflexivity.
  rewrite occurrences_group in H.
  assert (Hcs : occurrencesIn fieldId cs = 0) by lia.
  apply occurrencesIn_none in Hcs.
  change (foundLevel fieldId ok (foundInGroup fieldId ok) cs = true).
  unfold foundLevel.
  rewrite findIndex_none_intro.
  - apply forallb_forall. intros g Hg.
    rewrite List.Forall_forall in IH, Hcs. apply IH; auto.
  - eapply List.Forall_impl; [|exact Hcs].
    intros g. apply occurrences_none_other.
Qed.

Lemma countId_le_occurrences fields :
  countId fieldId fields <= occurrencesIn fieldId fields.
Proof.
  unfold countId. induction fields as [|f fields IH]; simpl; [lia|].
  rewrite occurrencesIn_cons.
  destruct (String.eqb (fid f) fieldId) eqn:Hid; simpl.
  - apply occurrences_own in Hid. lia.
  - lia.
Qed.

(** An occurrence at [path] is counted. *)
Lemma occurrence_counted path : forall fields level i f,
  In level (levelsAt fields path) ->
  level !! i = Some f ->
  String.eqb (fid f) fieldId = true ->
  1 <= occurrencesIn fieldId fields.
Proof.
  induction path as [|p rest IH]; intros fields level i f Hlevel Hlook Hid.
  - simpl in Hlevel. destruct Hlevel as [<-|[]].
    apply list_elem_of_lookup_2, list_elem_of_In, in_split in Hlook
      as (l1 & l2 & ->).
    rewrite occurrencesIn_app, occurrencesIn_cons.
    apply occurrences_own in Hid. lia.
  - simpl in Hlevel. apply in_flat_map in Hlevel as (g & Hg & Hlevel).
    destruct g as [b|b|b cs]; try contradiction.
    destruct (String.eqb (id b) p); [|contradiction].
    apply in_split in Hg as (l1 & l2 & ->).
    rewrite occurrencesIn_app, occurrencesIn_cons, occurrences_group.
    pose proof (IH cs level i f Hlevel Hlook Hid). lia.
Qed.

(** When the id occurs once in the tree, at a place that is neither the
    first nor the last of its sibling list, it sits inside, alone. *)
Lemma unique_sitsAlone path : forall fields level i f,
  occurrencesIn fieldId fields = 1 ->
  In level (levelsAt fields path) ->
  level !! i = Some f ->
  String.eqb (fid f) fieldId = true ->
  0 < i -> i + 1 < length level ->
  sitsAlone fieldId fields = true.
Proof.
  induction path as [|p rest IH];
    intros fields level i f Hone Hlevel Hlook Hid Hlo Hhi.
  - simpl in Hlevel. destruct Hlevel as [<-|[]].
    unfold sitsAlone, everyFound, foundLevel, inside.
    pose proof (countId_le_occurrences fields) as Hle.
    destruct (findIndex fieldId fields) as [j|] eqn:Hfind.
    + destruct (findIndex_split _ _ _ Hfind)
        as (pre & x & post & Hsplit & Hlen & Hx & Hpre).
      assert (Hcount : countId fieldId fields = 1).
      { subst fields. rewrite countId_app, (countId_other _ pre Hpre) in *.
        unfold countId in *. simpl in *. rewrite Hx in *. simpl in *. lia. }
      assert (Hpost : countId fieldId post = 0).
      { subst fields. rewrite countId_app, (countId_other _ pre Hpre) in Hcount.
        unfold countId in *. simpl in Hcount. rewrite Hx in Hcount.
        simpl in Hcount. lia. }
      assert (Hji : j = i).
      { subst fields j.
        destruct (Nat.lt_trichotomy i (length pre)) as [Hlt|[Heq|Hgt]];
          [|now symmetry|].
        - rewrite lookup_app_l in Hlook by assumption.
          rewrite List.Forall_forall in Hpre.
          apply list_elem_of_lookup_2, list_elem_of_In, Hpre in Hlook.
          unfold otherId in Hlook. congruence.
        - rewrite lookup_app_r in Hlook by lia.
          destruct (i - length pre) as [|k] eqn:Hk; [lia|]. simpl in Hlook.
          apply list_elem_of_lookup_2, list_elem_of_In, in_split in Hlook
            as (l1 & l2 & ->).
          rewrite countId_app in Hpost. unfold countId in Hpost.
          simpl in Hpost. rewrite Hid in Hpost. simpl in Hpost. lia. }
      rewrite Hcount.
      apply andb_true_iff. split; [apply andb_true_iff; split|reflexivity];
        apply Nat.ltb_lt; lia.
    + apply findIndex_none in Hfind. rewrite List.Forall_forall in Hfind.
      apply list_elem_of_lookup_2, list_elem_of_In, Hfind in Hlook.
      unfold otherId in Hlook. congruence.
  - simpl in Hlevel. apply in_flat_map in Hlevel as (g & Hg & Hlevel).
    destruct g as [b|b|b cs]; try contradiction.
    destruct (String.eqb (id b) p); [|contradiction].
    pose proof (occurrence_counted rest cs level i f Hlevel Hlook Hid) as Hdeep.
    apply in_split in Hg as (l1 & l2 & ->).
    rewrite occurrencesIn_app, occurrencesIn_cons, occurrences_group in Hone.
    assert (Hown : String.eqb (id b) fieldId = false)
      by (destruct (String.eqb (id b) fieldId); [lia|reflexivity]).
    rewrite Hown in Hone.
    assert (H1 : occurrencesIn fieldId l1 = 0) by lia.
    assert (H2 : occurrencesIn fieldId l2 = 0) by lia.
    assert (Hcs : occurrencesIn fieldId cs = 1) by lia.
    apply occurrencesIn_none in H1, H2.
    unfold sitsAlone, everyFound, foundLevel.
    rewrite findIndex_none_intro.
    + rewrite forallb_app. simpl.
      match goal with
      | |- context [foundLevel fieldId ?ok (foundInGroup fieldId ?ok) cs] =>
          change (foundLevel fieldId ok (foundInGroup fieldId ok) cs)
            with (sitsAlone fieldId cs)
      end.
      rewrite (IH cs level i f Hcs Hlevel Hlook Hid Hlo Hhi).
      apply andb_true_iff. split; [|simpl]; apply forallb_forall;
        intros g Hg; apply absent_foundInGroup;
        [rewrite List.Forall_forall in H1; now apply H1
        |rewrite List.Forall_forall in H2; now apply H2].
    + apply Forall_app. split; [|constructor].
      * eapply List.Forall_impl; [|exact H1].
        intros g. apply occurrences_none_other.
      * exact Hown.
      * eapply List.Forall_impl; [|exact H2].
        intros g. apply occurrences_none_other.
Qed.
End unique_id.

(** A sibling list that passes the stronger test passes the weaker. *)
Lemma sitsAlone_sitsInside (X : string) (fields : list FormField) :
  sitsAlone X fields = true -> sitsInside X fields = true.
Proof.
  unfold sitsAlone, sitsInside.
  set (P := fun f : FormField =>
              foundInGroup X (fun l i => inside l i && (countId X l =? 1)) f
              = true ->
              foundInGroup X inside f = true).
  assert (Hgroup : forall f, P f).
  { induction f as [b|b|b cs IH] using FormField_tree_ind; unfold P;
      try reflexivity.
    cbn [foundInGroup]. unfold foundLevel.
    destruct (findIndex X cs); [intros H; now apply andb_true_iff in H|].
    rewrite !forallb_forall. intros H g Hg.
    rewrite List.Forall_forall in IH. apply IH; auto. }
  unfold everyFound, foundLevel.
  destruct (findIndex X fields); [intros H; now apply andb_true_iff in H|].
  rewrite !forallb_forall. intros H g Hg. apply Hgroup; auto.
Qed.

(** With two fields of one id next to each other, which the builder
    never makes, moving down and up again moves two different fields. *)
Lemma moveField_down_up_with_twins :
  findIndex "x" (cfg_fields twins) = Some 1
  /\ moveField "x" up (moveField "x" down twins)
     = mkConfig
         [textField "x" "X2"; textField "a" "A"; textField "x" "X1";
          textField "b" "B"]
  /\ moveField "x" up (moveField "x" down twins) <> twins.
Proof. repeat split. discriminate. Qed.

(** Where [X] sits at a non-boundary position in every sibling list
    where the scan of [moveField] finds it, [moveField (X, 'up')] followed
    by [moveField (X, 'down')] returns the original tree; where moreover
    no other member of such a sibling list carries the id of [X],
    [moveField (X, 'down')] followed by [moveField (X, 'up')] returns the
    original tree too. *)
Lemma moveField_up_down_restores (X : string) (config : FormConfig) :
  sitsInside X (cfg_fields config) = true ->
  moveField X down (moveField X up config) = config
  /\ (sitsAlone X (cfg_fields config) = true ->
      moveField X up (moveField X down config) = config).
Proof.
  intros Hin. destruct config as [fields]. unfold moveField, cfg_fields in *.
  split.
  - now rewrite (move_restores X inside up down (up_down_found X) fields Hin).
  - intros Halone.
    now rewrite (move_restores X _ down up (down_up_found X) fields Halone).
Qed.

(** An instance: [x] in the middle of the three fields of a group. *)
Lemma moveField_up_down_restores_witness :
  let config :=
    mkConfig
      [groupField "g" "G"
         [textField "a" "A"; textField "x" "X"; textField "b" "B"]] in
  moveField "x" down (moveField "x" up config) = config
  /\ (sitsAlone "x" (cfg_fields config) = true ->
      moveField "x" up (moveField "x" down config) = config).
Proof.
  intros config.
  apply (moveField_up_down_restores "x" config). reflexivity.
Defined.

(** The same, for a tree in which the id [X] occurs once: the field sits
    at the index [i] of the sibling list [level], found at [path], and is
    neither its first nor its last member. *)
Corollary moveField_restores_unique (X : string) (config : FormConfig)
    (path : list string) (level : list FormField) (i : nat) (f : FormField) :
  occurrencesIn X (cfg_fields config) = 1 ->
  In level (levelsAt (cfg_fields config) path) ->
  level !! i = Some f -> fid f = X ->
  0 < i -> i + 1 < length level ->
  moveField X down (moveField X up config) = config
  /\ moveField X up (moveField X down config) = config.
Proof.
  intros Hone Hlevel Hlook Hid Hlo Hhi.
  destruct config as [fields]. unfold moveField, cfg_fields in *.
  apply String.eqb_eq in Hid.
  pose proof (unique_sitsAlone X path fields level i f
                Hone Hlevel Hlook Hid Hlo Hhi) as Halone.
  pose proof (sitsAlone_sitsInside X fields Halone) as Hin.
  rewrite (move_restores X inside up down (up_down_found X) fields Hin).
  now rewrite (move_restores X _ down up (down_up_found X) fields Halone).
Qed.

(** C8. The tree [crossDup] has the id [x] in the middle of the three
    fields of [g1] and at the head of the two fields of [g2]; no sibling
    list has an id twice.  The first field [x] that a depth-first search
    meets, the one that [moveField] is documented to move, sits at a
    non-boundary position.  [moveField ('x', 'up')] followed by
    [moveField ('x', 'down')] does not return the tree: the first call
    moves [x] in [g1] and leaves [g2], where [x] is the first; the second
    call moves [x] back in [g1] and moves the other [x] down in [g2]. *)
Theorem moveField_up_down_reorders_other_branch :
  (forall path level,
     In level (levelsAt (cfg_fields crossDup) path) ->
     countId "x" level <= 1)
  /\ (field <$> findField "x" None (cfg_fields crossDup)
      = Some (textField "x" "X1")
      /\ index <$> findField "x" None (cfg_fields crossDup) = Some 1
      /\ length <$> (parent <$> findField "x" None (cfg_fields crossDup))
         = Some 3)
  /\ moveField "x" up crossDup
     = mkConfig
         [groupField "g1" "G1"
            [textField "x" "X1"; textField "a" "A"; textField "b" "B"];
          groupField "g2" "G2" [textField "x" "X2"; textField "c" "C"]]
  /\ moveField "x" down (moveField "x" up crossDup)
     = mkConfig
         [groupField "g1" "G1"
            [textField "a" "A"; textField "x" "X1"; textField "b" "B"];
          groupField "g2" "G2" [textField "c" "C"; textField "x" "X2"]]
  /\ moveField "x" down (moveField "x" up crossDup) <> crossDup.
Proof.
  split; [|repeat split; discriminate].
  intros path level Hlevel.
  unfold crossDup, cfg_fields, groupField, textField in Hlevel.
  destruct path as [|p [|q rest]];
    cbn [levelsAt flat_map id app] in Hlevel.
  - destruct Hlevel as [<-|[]]. vm_compute. lia.
  - destruct (String.eqb "g1" p), (String.eqb "g2" p);
      cbn [app In] in Hlevel;
      repeat (destruct Hlevel as [<-|Hlevel]; [vm_compute; lia|]);
      destruct Hlevel.
  - destruct (String.eqb "g1" p), (String.eqb "g2" p);
      cbn [app In] in Hlevel; destruct Hlevel.
Qed.

(** ** Validation of a number field *)

Section number_bounds.
Variable toNumber : string -> JsNumber.

Lemma validateValue_number b value :
  isEmptyValue (Some value) = false ->
  validateValue toNumber (NumberField b) value
  = let numValue := numValueOf toNumber value in
    if isNaN numValue then Some InvalidNumber
    else
      match min b with
      | Some m =>
          if js_lt numValue m then Some (MinValue m)
          else match max b with
               | Some M => if js_gt numValue M then Some (MaxValue M) else None
               | None => None
               end
      | None =>
          match max b with
          | Some M => if js_gt numValue M then Some (MaxValue M) else None
          | None => None
          end
      end.
Proof.
  intros Hne. unfold validateValue. rewrite Hne, andb_false_r.
  cbn [type fmin fmax base].
  destruct value; try reflexivity. discriminate Hne.
Qed.

(** The first failing bound wins: [min] is read before [max]. *)
Lemma validateValue_min_before_max b value lo hi :
  isEmptyValue (Some value) = false ->
  min b = Some lo -> max b = Some hi ->
  js_lt (numValueOf toNumber value) lo = true ->
  js_gt (numValueOf toNumber value) hi = true ->
  validateValue toNumber (NumberField b) value = Some (MinValue lo).
Proof.
  intros Hne Hlo Hhi Hlt _. rewrite validateValue_number by assumption.
  cbv zeta. rewrite Hlo, Hlt.
  destruct (numValueOf toNumber value), lo; try discriminate; reflexivity.
Qed.

(** A number, as the value of a number field, is read as it is. *)
Lemma validateValue_of_number b (n : JsNumber) :
  validateValue toNumber (NumberField b) (VNumber n)
  = if isNaN n then Some InvalidNumber
    else
      match min b with
      | Some m =>
          if js_lt n m then Some (MinValue m)
          else match max b with
               | Some M => if js_gt n M then Some (MaxValue M) else None
               | None => None
               end
      | None =>
          match max b with
          | Some M => if js_gt n M then Some (MaxValue M) else None
          | None => None
          end
      end.
Proof. now rewrite validateValue_number. Qed.

Lemma Qle_bool_false (x y : Q) : Qle_bool x y = false <-> (y < x)%Q.
Proof.
  split.
  - intros H. apply Qnot_le_lt. intros Hle.
    apply Qle_bool_iff in Hle. congruence.
  - intros H. destruct (Qle_bool x y) eqn:Hle; [|reflexivity].
    apply Qle_bool_iff in Hle. now apply Qlt_not_le in H.
Qed.

(** C9. A number field with [min = 0] and [max = 100], whatever its id,
    its label and its flag [required].  A number is accepted exactly when
    it lies in [[0, 100]], both ends included; it gets the message "at
    least 0" exactly when it is below 0, the message "at most 100"
    exactly when it is above 100, and [NaN] gets the message "invalid
    number".  A string that is not blank is validated as the number it
    coerces to.  So 0 and 100 pass, -1 gets "at least 0" and 101 gets "at
    most 100".  And [min] is checked before [max]: for any two bounds, a
    number below [min] gets the message of [min], whatever [max] says of
    it; with [min = 10] and [max = 5] the number 7 breaks both bounds and
    gets "at least 10". *)
Theorem validateValue_min_0_max_100 (i l : string) (r : bool) :
  let bounded lo hi := NumberField (mkBase i l r (Some lo) (Some hi)) in
  let f := bounded (Finite 0) (Finite 100) in
  (forall n,
     validateValue toNumber f (VNumber n) = None
     <-> exists q, n = Finite q /\ (0 <= q)%Q /\ (q <= 100)%Q)
  /\ (forall n,
        validateValue toNumber f (VNumber n) = Some (MinValue (Finite 0))
        <-> n = NegInfinity \/ exists q, n = Finite q /\ (q < 0)%Q)
  /\ (forall n,
        validateValue toNumber f (VNumber n) = Some (MaxValue (Finite 100))
        <-> n = PosInfinity \/ exists q, n = Finite q /\ (100 < q)%Q)
  /\ (forall n,
        validateValue toNumber f (VNumber n) = Some InvalidNumber <-> n = NaN)
  /\ (forall s,
        isEmptyValue (Some (VString s)) = false ->
        validateValue toNumber f (VString s)
        = validateValue toNumber f (VNumber (toNumber s)))
  /\ (validateValue toNumber f (VNumber (Finite 0)) = None
      /\ validateValue toNumber f (VNumber (Finite 100)) = None
      /\ validateValue toNumber f (VNumber (Finite (-1 # 1)))
         = Some (MinValue (Finite 0))
      /\ validateValue toNumber f (VNumber (Finite (101 # 1)))
         = Some (MaxValue (Finite 100)))
  /\ (forall lo hi n,
        js_lt n lo = true ->
        validateValue toNumber (bounded lo hi) (VNumber n)
        = Some (MinValue lo))
  /\ validateValue toNumber (bounded (Finite 10) (Finite 5))
       (VNumber (Finite 7))
     = Some (MinValue (Finite 10)).
Proof.
  intros bounded f.
  assert (Hres : forall n,
            validateValue toNumber f (VNumber n)
            = if isNaN n then Some InvalidNumber
              else if js_lt n (Finite 0) then Some (MinValue (Finite 0))
              else if js_gt n (Finite 100) then Some (MaxValue (Finite 100))
              else None).
  { intros n. unfold f, bounded. now rewrite validateValue_of_number. }
  split; [|split; [|split; [|split; [|split; [|split; [|split]]]]]].
  - intros n. rewrite Hres. split.
    + destruct n as [q| | |]; simpl; try discriminate.
      unfold js_gt. simpl.
      destruct (Qle_bool 0 q) eqn:Hlo; simpl; [|discriminate].
      destruct (Qle_bool q 100) eqn:Hhi; simpl; [|discriminate].
      intros _. exists q. apply Qle_bool_iff in Hlo, Hhi. auto.
    + intros (q & -> & Hlo & Hhi). unfold js_gt. simpl.
      apply Qle_bool_iff in Hlo, Hhi. now rewrite Hlo, Hhi.
  - intros n. rewrite Hres. split.
    + destruct n as [q| | |]; simpl; try discriminate; [|now left].
      unfold js_gt. simpl.
      destruct (Qle_bool 0 q) eqn:Hlo; simpl.
      * destruct (Qle_bool q 100); simpl; discriminate.
      * intros _. right. exists q. split; [reflexivity|].
        now apply Qle_bool_false.
    + intros [->|(q & -> & Hq)]; [reflexivity|]. simpl.
      apply Qle_bool_false in Hq. now rewrite Hq.
  - intros n. rewrite Hres. split.
    + destruct n as [q| | |]; simpl; try discriminate; [|now left].
      unfold js_gt. simpl.
      destruct (Qle_bool 0 q) eqn:Hlo; simpl; [|discriminate].
      destruct (Qle_bool q 100) eqn:Hhi; simpl; [discriminate|].
      intros _. right. exists q. split; [reflexivity|].
      now apply Qle_bool_false.
    + intros [->|(q & -> & Hq)]; [reflexivity|]. unfold js_gt. simpl.
      assert (Hlo : Qle_bool 0 q = true).
      { apply Qle_bool_iff. apply Qlt_le_weak.
        eapply Qlt_trans; [|exact Hq]. reflexivity. }
      apply Qle_bool_false in Hq. now rewrite Hlo, Hq.
  - intros n. rewrite Hres. split.
    + destruct n as [q| | |]; simpl; try discriminate; [|reflexivity].
      unfold js_gt. simpl.
      destruct (Qle_bool 0 q); simpl; [|discriminate].
      destruct (Qle_bool q 100); simpl; discriminate.
    + now intros ->.
  - intros s Hne. unfold f, bounded.
    now rewrite validateValue_number, validateValue_of_number.
  - rewrite !Hres. repeat split.
  - intros lo hi n Hlt. unfold bounded. rewrite validateValue_of_number.
    cbn [min max]. rewrite Hlt.
    destruct n, lo; try discriminate; reflexivity.
  - unfold bounded. now rewrite validateValue_of_number.
Qed.
End number_bounds.

(** ** Path-qualified keys *)

Lemma string_length_append (s1 s2 : string) :
  String.length (s1 +:+ s2) = String.length s1 + String.length s2.
Proof. induction s1 as [|c s1 IH]; simpl; [reflexivity|now rewrite IH]. Qed.

(** The key of a field one level down: its parent's id, a dot, and the key
    below that parent. *)
Lemma makeErrorKey_cons p parentPath fieldId :
  makeErrorKey (p :: parentPath) fieldId
  = p +:+ "." +:+ makeErrorKey parentPath fieldId.
Proof.
  unfold makeErrorKey. simpl.
  destruct (parentPath ++ [fieldId]) eqn:H; [|reflexivity].
  now destruct parentPath.
Qed.




(** *** Reads and writes of plain objects *)

Lemma get_insert_eq (own : gmap string FormValue) key value :
  get (Plain (<[key := value]> own)) key = Some value.
Proof. unfold get. now rewrite lookup_insert_eq. Qed.



Lemma lookup_assign_eq {A} (own : gmap string A) key (value : A) :
  key <> "__proto__" -> assign own key value !! key = Some value.
Proof.
  intros Hne. unfold assign. apply String.eqb_neq in Hne. rewrite Hne.
  apply lookup_insert_eq.
Qed.

(** What a record inherits it inherits from [Object.prototype], which
    has the same under every key but [__proto__]. *)
Lemma get_prototype (key : string) :
  key <> "__proto__" -> get ObjectPrototype key = get (Plain ∅) key.
Proof.
  intros Hne. unfold get. rewrite lookup_empty.
  apply String.eqb_neq in Hne. now rewrite Hne.
Qed.

(** No descent goes on from [Object.prototype]. *)
Lemma walk_prototype (p : string) (rest : list string) :
  walk ObjectPrototype (p :: rest) = None.
Proof.
  simpl. destruct (String.eqb p "__proto__"); [reflexivity|].
  now destruct (isPrototypeFunction p).
Qed.

(** *** The form data *)

(** Below empty form data every read is a read of what [{}] inherits. *)
Lemma dataAt_empty (P : list string) (key : string) :
  key <> "__proto__" -> get (dataAt ∅ P) key = get (Plain ∅) key.
Proof.
  intros Hne. destruct P as [|p rest]; [reflexivity|].
  unfold dataAt. cbn [walk]. unfold get at 2. rewrite lookup_empty.
  destruct (String.eqb p "__proto__").
  - destruct rest as [|q rest]; [now apply get_prototype|].
    now rewrite walk_prototype.
  - now destruct (isPrototypeFunction p).
Qed.

Lemma writeAt_cons data p rest fieldId value data' :
  writeAt data (p :: rest) fieldId value = Some data' ->
  get (Plain data) p <> Some VPrototype
  /\ exists m',
       writeAt (recordAt data p) rest fieldId value = Some m'
       /\ data' = <[p := VObject m']> data.
Proof.
  cbn [writeAt]. unfold recordAt.
  destruct (get (Plain data) p) as [[s|n| |m| |]|] eqn:Hget;
    try discriminate;
    (destruct (writeAt _ rest fieldId value) as [m'|] eqn:Hw;
     [|discriminate]);
    intros [= <-]; (split; [discriminate|]); exists m'; auto.
Qed.




(** A write at a path without the step [__proto__], of a field with
    another id than [__proto__], stays in form data that hold what was
    written before. *)
Lemma writeAt_held (P : list string) (fieldId : string) (value : FormValue)
    (data : gmap string FormValue) :
  ~ In "__proto__" P -> fieldId <> "__proto__" ->
  held (VObject data) -> held value ->
  exists data',
    writeAt data P fieldId value = Some data' /\ held (VObject data').
Proof.
  intros HP Hid. revert data.
  induction P as [|p rest IH]; intros data Hdata Hvalue.
  - cbn [writeAt]. unfold store. apply String.eqb_neq in Hid. rewrite Hid.
    eexists. split; [reflexivity|]. constructor. intros key x Hx.
    inversion Hdata as [| | |m Hm]; subst.
    destruct (decide (fieldId = key)) as [->|Hk].
    + rewrite lookup_insert_eq in Hx. now injection Hx as <-.
    + rewrite lookup_insert_ne in Hx by assumption. eauto.
  - assert (Hp : p <> "__proto__") by (intros ->; apply HP; now left).
    assert (Hrest : ~ In "__proto__" rest) by (intros H; apply HP; now right).
    assert (Hinsert : forall m',
              held (VObject m') -> held (VObject (<[p := VObject m']> data))).
    { intros m' Hm'. constructor. intros key x Hx.
      inversion Hdata as [| | |m Hm]; subst.
      destruct (decide (p = key)) as [->|Hk].
      - rewrite lookup_insert_eq in Hx. now injection Hx as <-.
      - rewrite lookup_insert_ne in Hx by assumption. eauto. }
    assert (Hempty : held (VObject ∅)).
    { constructor. intros key x Hx. now rewrite lookup_empty in Hx. }
    cbn [writeAt]. unfold get.
    destruct (data !! p) as [x|] eqn:Hx.
    + assert (Hheld : held x).
      { inversion Hdata as [| | |m Hm]; subst. eauto. }
      destruct Hheld as [s|n| |m Hm].
      * destruct (IH Hrest ∅ Hempty Hvalue) as (m' & -> & Hm'). eauto.
      * destruct (IH Hrest ∅ Hempty Hvalue) as (m' & -> & Hm'). eauto.
      * destruct (IH Hrest ∅ Hempty Hvalue) as (m' & -> & Hm'). eauto.
      * destruct (IH Hrest m (held_record m Hm) Hvalue) as (m' & -> & Hm').
        eauto.
    + apply String.eqb_neq in Hp. rewrite Hp.
      destruct (isPrototypeFunction p);
        destruct (IH Hrest ∅ Hempty Hvalue) as (m' & -> & Hm'); eauto.
Qed.

(** Whatever a write stores, the form data hold what was typed in and
    records of it, as they did before. *)
Lemma writeAt_keeps_held (P : list string) (fieldId : string)
    (value : FormValue) :
  held value ->
  forall data data',
    held (VObject data) ->
    writeAt data P fieldId value = Some data' ->
    held (VObject data').
Proof.
  intros Hvalue.
  assert (Hinsert : forall data key x,
            held (VObject data) -> held x ->
            held (VObject (<[key := x]> data))).
  { intros data key x Hdata Hx. constructor. intros k y Hy.
    inversion Hdata as [| | |m Hm]; subst.
    destruct (decide (key = k)) as [->|Hk].
    - rewrite lookup_insert_eq in Hy. now injection Hy as <-.
    - rewrite lookup_insert_ne in Hy by assumption. eauto. }
  assert (Hempty : held (VObject ∅)).
  { constructor. intros key x Hx. now rewrite lookup_empty in Hx. }
  induction P as [|p rest IH]; intros data data' Hdata Hw.
  - cbn [writeAt] in Hw. unfold store in Hw.
    destruct (String.eqb fieldId "__proto__").
    + destruct (data !! fieldId).
      * injection Hw as <-. now apply Hinsert.
      * destruct value; try discriminate Hw; now injection Hw as <-.
    + injection Hw as <-. now apply Hinsert.
  - apply writeAt_cons in Hw as (_ & m' & Hw & ->).
    apply Hinsert; [exact Hdata|].
    apply (IH (recordAt data p) m'); [|exact Hw].
    unfold recordAt, get.
    destruct (data !! p) as [x|] eqn:Hx.
    + assert (Hheld : held x).
      { inversion Hdata as [| | |m Hm]; subst. eauto. }
      destruct Hheld; try exact Hempty. now constructor.
    + destruct (String.eqb p "__proto__"); [exact Hempty|].
      destruct (isPrototypeFunction p); exact Hempty.
Qed.




(** ** Validation of the whole tree *)

Section validateAll_facts.
Variable toNumber : string -> JsNumber.
Variable formData : gmap string FormValue.

Lemma occursAt_tail f fields path g :
  occursAt fields path g -> occursAt (f :: fields) path g.
Proof.
  induction 1 as [fields g Hin | fields b cs path g Hin Hocc IH].
  - apply occurs_here. now right.
  - eapply occurs_below; [right; exact Hin | exact Hocc].
Qed.

Lemma origin_tail f fields path key e :
  origin toNumber formData fields path key e ->
  origin toNumber formData (f :: fields) path key e.
Proof.
  intros (suffix & g & Hocc & Hkey & Hval).
  exists suffix, g. split; [now apply occursAt_tail | auto].
Qed.

Lemma validateFieldRecursive_cons f fields path errs :
  validateFieldRecursive toNumber formData (f :: fields) path errs
  = validateFieldRecursive toNumber formData fields path
      (let errs' :=
         match validateValue toNumber f (orNull (valueAt formData path f)) with
         | Some error => assign errs (makeErrorKey path (fid f)) error
         | None => errs
         end in
       match f with
       | GroupField _ _ =>
           validateChildren toNumber formData f (path ++ [fid f]) errs'
       | _ => errs'
       end).
Proof. reflexivity. Qed.

(** An entry after an assignment was there before, or is the one
    assigned. *)
Lemma lookup_assign_Some {A} (own : gmap string A) key key' (value x : A) :
  assign own key value !! key' = Some x ->
  own !! key' = Some x \/ (key = key' /\ value = x).
Proof.
  unfold assign.
  destruct (String.eqb key "__proto__"), (own !! key) eqn:Hown;
    try (now left); intros Hl;
    (destruct (decide (key = key')) as [<-|Hne];
     [rewrite lookup_insert_eq in Hl; injection Hl as <-; now right
     |rewrite lookup_insert_ne in Hl by assumption; now left]).
Qed.

Lemma validateFieldRecursive_entries fields :
  Forall
    (fun f => forall path errs key e,
       validateChildren toNumber formData f path errs !! key = Some e ->
       errs !! key = Some e \/ origin toNumber formData (children f) path key e)
    fields ->
  forall path errs key e,
    validateFieldRecursive toNumber formData fields path errs !! key = Some e ->
    errs !! key = Some e \/ origin toNumber formData fields path key e.
Proof.
  induction 1 as [|f fields Hf _ IH]; intros path errs key e Hlook.
  - left. exact Hlook.
  - rewrite validateFieldRecursive_cons in Hlook. cbv zeta in Hlook.
    apply IH in Hlook as [Hlook | Hrest]; [|right; now apply origin_tail].
    set (value := orNull (valueAt formData path f)) in Hlook.
    set (errs' :=
           match validateValue toNumber f value with
           | Some error => assign errs (makeErrorKey path (fid f)) error
           | None => errs
           end) in Hlook.
    assert (Hown : errs' !! key = Some e ->
                   errs !! key = Some e
                   \/ origin toNumber formData (f :: fields) path key e).
    { unfold errs', value. intros Hl.
      destruct (validateValue toNumber f (orNull (valueAt formData path f)))
        as [error|] eqn:Hval; [|now left].
      apply lookup_assign_Some in Hl as [Hl | [<- <-]]; [now left|].
      right. exists [], f. rewrite app_nil_r.
      split; [apply occurs_here; now left | auto]. }
    destruct f as [b|b|b cs]; try (now apply Hown).
    apply Hf in Hlook as [Hlook | (suffix & g & Hocc & Hkey & Hval)];
      [now apply Hown|].
    right. exists (id b :: suffix), g.
    rewrite <- app_assoc in Hkey, Hval. simpl in Hkey, Hval.
    split; [|auto]. eapply occurs_below; [now left | exact Hocc].
Qed.

Lemma validateChildren_entries f path errs key e :
  validateChildren toNumber formData f path errs !! key = Some e ->
  errs !! key = Some e \/ origin toNumber formData (children f) path key e.
Proof.
  revert path errs key e.
  induction f as [b|b|b cs IH] using FormField_tree_ind;
    intros path errs key e Hlook; try (now left).
  exact (validateFieldRecursive_entries cs IH path errs key e Hlook).
Qed.

(** A group field is validated like a leaf: it fails exactly when it is
    required and its value is empty. *)
Lemma validateValue_group b cs value :
  validateValue toNumber (GroupField b cs) value
  = if required b && isEmptyValue (Some value) then Some Required else None.
Proof.
  unfold validateValue, frequired. cbn [base type].
  destruct (required b && isEmptyValue (Some value)); [reflexivity|].
  now destruct (isEmptyValue (Some value)).
Qed.

Lemma isEmptyValue_orNull (v : option FormValue) :
  isEmptyValue (Some (orNull v)) = isEmptyValue v.
Proof. now destruct v. Qed.

(** Every entry of the error map of [validateAllFields] is the
    validation error of a field of the tree, under that field's
    path-qualified key.  When that field is a group, the group is marked
    required, the value read at its place is empty, and the error is the
    "required" message. *)
Lemma validateAllFields_entry_origin
    (fields : list FormField) (key : string) (e : ValidationError) :
  validateAllFields toNumber formData fields !! key = Some e ->
  exists path f,
    occursAt fields path f
    /\ key = makeErrorKey path (fid f)
    /\ validateValue toNumber f (orNull (valueAt formData path f)) = Some e
    /\ (type f = group ->
        frequired f = true
        /\ isEmptyValue (valueAt formData path f) = true
        /\ e = Required).
Proof.
  intros Hlook. unfold validateAllFields in Hlook.
  apply validateFieldRecursive_entries in Hlook
    as [Hlook | (suffix & f & Hocc & Hkey & Hval)].
  - rewrite lookup_empty in Hlook. discriminate.
  - simpl in Hkey, Hval. exists suffix, f.
    split; [exact Hocc|]. split; [exact Hkey|]. split; [exact Hval|].
    intros Hgroup. destruct f as [b|b|b cs]; try discriminate Hgroup.
    rewrite validateValue_group, isEmptyValue_orNull in Hval.
    unfold frequired. cbn [base].
    destruct (required b); simpl in Hval; [|discriminate].
    destruct (isEmptyValue (valueAt formData suffix (GroupField b cs)));
      [|discriminate].
    inversion Hval. auto.
  - apply List.Forall_forall. intros f _ path errs k e'.
    apply validateChildren_entries.
Qed.

(** What is drawn for a group is a box, whatever the error map holds
    under the key of the group. *)
Lemma renderField_group errors b cs path :
  renderField errors (GroupField b cs) path
  = Box (makeErrorKey path (id b))
      (map (fun child => renderField errors child (path ++ [id b])) cs).
Proof. reflexivity. Qed.
End validateAll_facts.

(** C3. The form [requiredGroup] is a required group [g] around an
    optional text field [t].  Submitted untouched, [validateAllFields]
    records the "required" message under [g], the own key of the
    group; [handleSubmit] then keeps the dialog closed and stores no
    data.  What is drawn shows the message nowhere: the group is a box
    that is handed no error, where a text field with the same entry has
    it handed to its control.  Once the field [t] is filled in the group
    holds a record and the entry is gone. *)
Theorem handleSubmit_required_group_blocks_unseen :
  let st := handleSubmit decimalToNumber requiredGroup initial in
  validateAllFields decimalToNumber ∅ requiredGroup = {[ "g" := Required ]}
  /\ validateAllFields decimalToNumber ∅ requiredGroup !! makeErrorKey [] "g"
     = Some Required
  /\ (errors st = {[ "g" := Required ]}
      /\ showSubmitModal st = false
      /\ submittedData st = None)
  /\ map (fun f => renderField (errors st) f []) requiredGroup
     = [Box "g" [Control "g.t" None]]
  /\ renderField (errors st) (TextField (mkBase "g" "G" true None None)) []
     = Control "g" (Some (Shown Required))
  /\ (exists st',
        handleFieldChange decimalToNumber requiredGroup "t" (VString "v")
          ["g"] st = Some st'
        /\ formData st' = {[ "g" := VObject {[ "t" := VString "v" ]} ]}
        /\ validateAllFields decimalToNumber (formData st') requiredGroup = ∅
        /\ showSubmitModal
             (handleSubmit decimalToNumber requiredGroup st') = true).
Proof.
  repeat split; try (vm_compute; reflexivity).
  eexists. repeat split; vm_compute; reflexivity.
Qed.

(** ** Import *)

(** [validateField] with the property reads of the source. *)
Lemma validateField_unfold (props : gmap string Json) :
  validateField (JObject props)
  = nonEmptyString (props !! "id")
    && nonEmptyString (props !! "type")
    && nonEmptyString (props !! "label")
    && isBoolean (props !! "required")
    && isFieldTypeName (props !! "type")
    && (if isGroupName (props !! "type") then
          match props !! "fields" with
          | Some (JArray items) => forallb validateField items
          | _ => false
          end
        else true).
Proof.
  cbn [validateField]. rewrite lookup_fmap.
  destruct (props !! "fields") as [[]|]; reflexivity.
Qed.

(** The import either rejects with the message of the first failing check
    and keeps the live config, or accepts and stores the parsed document
    as it is.  A text that does not parse is rejected with the message of
    the engine's [SyntaxError]. *)
Lemma handleImportSubmit_cases (outcome : ParseOutcome) (st : BuilderState) :
  handleImportSubmit outcome st
  = match outcome with
    | SyntaxError message => rejected st (EngineText message)
    | Parsed parsed =>
        if negb (isObject parsed) then rejected st (Translated invalidFormat)
        else
          match fieldsArray parsed with
          | None => rejected st (Translated missingFields)
          | Some fields =>
              if forallb validateField fields then accepted parsed
              else rejected st (Translated invalidFields)
          end
    end.
Proof.
  unfold handleImportSubmit, tryImport.
  destruct outcome as [parsed|message]; [|reflexivity].
  destruct parsed as [| | | | |props]; try reflexivity.
  simpl. destruct (props !! "fields") as [[| | | |fields|]|]; try reflexivity.
  now destruct (forallb validateField fields).
Qed.

Lemma handleImportSubmit_all_or_nothing (outcome : ParseOutcome)
    (st : BuilderState) :
  (exists message, handleImportSubmit outcome st = rejected st message)
  \/ (exists parsed, outcome = Parsed parsed
                     /\ handleImportSubmit outcome st = accepted parsed).
Proof.
  rewrite handleImportSubmit_cases.
  destruct outcome as [parsed|message]; [|left; eauto].
  destruct (negb (isObject parsed)); [left; eauto|].
  destruct (fieldsArray parsed) as [fields|]; [|left; eauto].
  destruct (forallb validateField fields); [right; eauto | left; eauto].
Qed.

(** The message written for a text that is no JSON is never the
    translated "invalid JSON" message: the [catch] clause receives an
    [Error] instance on every path. *)
Lemma handleImportSubmit_never_invalidJson (outcome : ParseOutcome)
    (st : BuilderState) :
  importError (handleImportSubmit outcome st) <> Some (Translated invalidJson).
Proof.
  rewrite handleImportSubmit_cases.
  destruct outcome as [parsed|message]; [|discriminate].
  destruct (negb (isObject parsed)); [discriminate|].
  destruct (fieldsArray parsed) as [fields|]; [|discriminate].
  destruct (forallb validateField fields); discriminate.
Qed.

(** C4. The text [invalid json{] does not parse; the engine throws a
    [SyntaxError], and the dialog shows that error's own message, not the
    "invalid JSON" message of the translations.  The live config is left
    as it was. *)
Theorem handleImportSubmit_unparseable_shows_engine_message :
  handleImportSubmit
    (SyntaxError "Unexpected token i in JSON at position 0") dialogOpen
  = rejected dialogOpen
      (EngineText "Unexpected token i in JSON at position 0")
  /\ importError
       (handleImportSubmit
          (SyntaxError "Unexpected token i in JSON at position 0") dialogOpen)
     <> Some (Translated invalidJson)
  /\ config
       (handleImportSubmit
          (SyntaxError "Unexpected token i in JSON at position 0") dialogOpen)
     = config dialogOpen.
Proof. repeat split. discriminate. Qed.

(** ** Export and import again *)

Lemma fieldToJson_props f : fieldToJson f = JObject (propsOf f).
Proof. destruct f; reflexivity. Qed.

Lemma propsOf_eq f :
  propsOf f
  = match f with
    | GroupField b cs =>
        <["fields" := JArray (map fieldToJson cs)]> (baseProps b group)
    | _ => baseProps (base f) (type f)
    end.
Proof. destruct f; reflexivity. Qed.

Ltac lookup_base b :=
  unfold baseProps, addOptional; destruct (min b), (max b); by simplify_map_eq.

Lemma baseProps_id b t : baseProps b t !! "id" = Some (JString (id b)).
Proof. lookup_base b. Qed.

Lemma baseProps_label b t : baseProps b t !! "label" = Some (JString (label b)).
Proof. lookup_base b. Qed.

Lemma baseProps_required b t :
  baseProps b t !! "required" = Some (JBool (required b)).
Proof. lookup_base b. Qed.

Lemma baseProps_type b t :
  baseProps b t !! "type" = Some (JString (typeName t)).
Proof. lookup_base b. Qed.

Lemma baseProps_min b t : baseProps b t !! "min" = numberToJson <$> min b.
Proof. lookup_base b. Qed.

Lemma baseProps_max b t : baseProps b t !! "max" = numberToJson <$> max b.
Proof. lookup_base b. Qed.

Lemma baseProps_fields b t : baseProps b t !! "fields" = None.
Proof. lookup_base b. Qed.

Ltac lookup_props f lem :=
  rewrite propsOf_eq; destruct f as [b|b|b cs];
  rewrite ?lookup_insert_ne by done; apply lem.

Lemma propsOf_id f : propsOf f !! "id" = Some (JString (fid f)).
Proof. lookup_props f baseProps_id. Qed.

Lemma propsOf_label f : propsOf f !! "label" = Some (JString (flabel f)).
Proof. lookup_props f baseProps_label. Qed.

Lemma propsOf_required f : propsOf f !! "required" = Some (JBool (frequired f)).
Proof. lookup_props f baseProps_required. Qed.

Lemma propsOf_type f : propsOf f !! "type" = Some (JString (typeName (type f))).
Proof. lookup_props f baseProps_type. Qed.

Lemma propsOf_min f : propsOf f !! "min" = numberToJson <$> fmin f.
Proof. lookup_props f baseProps_min. Qed.

Lemma propsOf_max f : propsOf f !! "max" = numberToJson <$> fmax f.
Proof. lookup_props f baseProps_max. Qed.

Lemma propsOf_fields f :
  propsOf f !! "fields"
  = match f with
    | GroupField _ cs => Some (JArray (map fieldToJson cs))
    | _ => None
    end.
Proof.
  rewrite propsOf_eq. destruct f as [b|b|b cs];
    [apply baseProps_fields | apply baseProps_fields | apply lookup_insert_eq].
Qed.

(** The document of a field with a non-empty id and label, here and below,
    passes the check of the import. *)
Lemma validateField_fieldToJson f :
  importable f = true -> validateField (fieldToJson f) = true.
Proof.
  induction f as [b|b|b cs IH] using FormField_tree_ind; intros Himp;
    rewrite fieldToJson_props, validateField_unfold,
      propsOf_id, propsOf_label, propsOf_required, propsOf_type, propsOf_fields;
    cbn [importable] in Himp;
    apply andb_true_iff in Himp as [Himp Hcs];
    apply andb_true_iff in Himp as [Hid Hlabel];
    cbn [nonEmptyString isBoolean isFieldTypeName isGroupName type typeName];
    rewrite Hid, Hlabel; try reflexivity.
  simpl. rewrite forallb_forall in Hcs. rewrite List.Forall_forall in IH.
  apply forallb_forall. intros j Hj. apply in_map_iff in Hj as (g & <- & Hg).
  apply IH; auto.
Qed.

Lemma numberToJson_bound_injective (v1 v2 : option JsNumber) :
  finiteBound v1 = true ->
  numberToJson <$> v1 = numberToJson <$> v2 -> v1 = v2.
Proof.
  destruct v1 as [[q| | |]|], v2 as [[q'| | |]|]; simpl;
    try discriminate; try reflexivity.
  intros _ H. inversion H. reflexivity.
Qed.

Lemma typeName_injective t1 t2 : typeName t1 = typeName t2 -> t1 = t2.
Proof. destruct t1, t2; simpl; congruence. Qed.

(** Equal documents: equal attributes, type and children documents. *)
Lemma fieldToJson_attributes f1 f2 :
  finiteBound (fmin f1) = true -> finiteBound (fmax f1) = true ->
  fieldToJson f2 = fieldToJson f1 ->
  base f2 = base f1 /\ type f2 = type f1
  /\ propsOf f2 !! "fields" = propsOf f1 !! "fields".
Proof.
  intros Hfmin Hfmax Heq.
  rewrite !fieldToJson_props in Heq. injection Heq as Heq.
  pose proof (f_equal (lookup "id") Heq) as Hid.
  pose proof (f_equal (lookup "label") Heq) as Hlabel.
  pose proof (f_equal (lookup "required") Heq) as Hreq.
  pose proof (f_equal (lookup "type") Heq) as Htype.
  pose proof (f_equal (lookup "min") Heq) as Hmin.
  pose proof (f_equal (lookup "max") Heq) as Hmax.
  rewrite !propsOf_id in Hid. rewrite !propsOf_label in Hlabel.
  rewrite !propsOf_required in Hreq. rewrite !propsOf_type in Htype.
  rewrite !propsOf_min in Hmin. rewrite !propsOf_max in Hmax.
  injection Hid as Hid. injection Hlabel as Hlabel. injection Hreq as Hreq.
  injection Htype as Htype. apply typeName_injective in Htype.
  symmetry in Hmin, Hmax.
  apply numberToJson_bound_injective in Hmin; [|assumption].
  apply numberToJson_bound_injective in Hmax; [|assumption].
  split; [|split; [assumption | now rewrite Heq]].
  unfold fid, flabel, frequired, fmin, fmax in *.
  destruct (base f1), (base f2); simpl in *; congruence.
Qed.

(** The document determines the field it was written for, when the bounds
    of that field are finite. *)
Lemma fieldToJson_injective f1 :
  finiteBounds f1 = true ->
  forall f2, fieldToJson f2 = fieldToJson f1 -> f2 = f1.
Proof.
  induction f1 as [b1|b1|b1 cs1 IH] using FormField_tree_ind;
    intros Hfin f2 Heq;
    cbn [finiteBounds] in Hfin;
    apply andb_true_iff in Hfin as [Hfin Hcs];
    apply andb_true_iff in Hfin as [Hfmin Hfmax];
    destruct (fieldToJson_attributes _ f2 Hfmin Hfmax Heq)
      as (Hbase & Htype & Hfields);
    destruct f2 as [b2|b2|b2 cs2]; try discriminate Htype;
    cbn [base] in Hbase; subst b2; try reflexivity.
  f_equal. rewrite !propsOf_fields in Hfields. injection Hfields as Hfields.
  clear -IH Hcs Hfields. revert cs2 Hfields.
  induction IH as [|g1 cs1 Hg1 _ IHcs]; intros [|g2 cs2] Hmap;
    try discriminate; [reflexivity|].
  simpl in Hcs. apply andb_true_iff in Hcs as [Hg Hcs].
  simpl in Hmap. injection Hmap as Hhead Htail.
  f_equal; [now apply Hg1 | now apply IHcs].
Qed.

(** C5, as stated, fails: a form with an empty label is exported, and the
    import of that very document is rejected as "invalid fields". *)
Lemma export_import_rejects_empty_label :
  handleImportSubmit (Parsed (configToJson unlabelled)) dialogOpen
  = rejected dialogOpen (Translated invalidFields).
Proof. vm_compute. reflexivity. Qed.

(** C5, amended. For a config in which every id and every label is a
    non-empty string and every bound that is present is a finite number,
    the import of the exported document succeeds, the live config is that
    document, and the document is the export of no other config: ids,
    labels, flags, bounds, nesting and order are those of the original. *)
Theorem export_import_roundtrip (c : FormConfig) (st : BuilderState) :
  forallb importable (cfg_fields c) = true ->
  forallb finiteBounds (cfg_fields c) = true ->
  handleImportSubmit (Parsed (configToJson c)) st = accepted (configToJson c)
  /\ forall c', configToJson c' = configToJson c -> c' = c.
Proof.
  intros Himp Hfin. split.
  - rewrite handleImportSubmit_cases. unfold configToJson.
    cbn [isObject negb fieldsArray]. rewrite lookup_singleton_eq.
    replace (forallb validateField (map fieldToJson (cfg_fields c))) with true;
      [reflexivity|].
    symmetry. apply forallb_forall. intros j Hj.
    apply in_map_iff in Hj as (f & <- & Hf).
    apply validateField_fieldToJson.
    rewrite forallb_forall in Himp. now apply Himp.
  - intros [fields'] Heq. destruct c as [fields]. unfold configToJson in Heq.
    cbn [cfg_fields] in *.
    apply (f_equal fieldsArray) in Heq. unfold fieldsArray in Heq.
    rewrite !lookup_singleton_eq in Heq. injection Heq as Heq.
    f_equal. clear Himp. revert fields' Heq.
    induction fields as [|f fields IH]; intros [|f' fields'] Heq;
      try discriminate; [reflexivity|].
    simpl in Hfin. apply andb_true_iff in Hfin as [Hf Hfin].
    simpl in Heq. injection Heq as Hhead Htail.
    f_equal; [now apply fieldToJson_injective | now apply IH].
Qed.

(** An instance: three groups deep, a text and a number field inside. *)
Lemma export_import_roundtrip_witness :
  let c :=
    mkConfig
      [groupField "g1" "Level 1"
         [groupField "g2" "Level 2"
            [groupField "g3" "Level 3" [textField "t" "Deep"; percent]]]] in
  handleImportSubmit (Parsed (configToJson c)) dialogOpen
  = accepted (configToJson c)
  /\ forall c', configToJson c' = configToJson c -> c' = c.
Proof.
  intros c. apply (export_import_roundtrip c dialogOpen); reflexivity.
Defined.

(** ** The labelled export *)

Lemma setLabel_plain (result : gmap string Labeled) label value :
  label <> "__proto__" ->
  setLabel result label value = Some (<[label := value]> result).
Proof.
  intros Hne. unfold setLabel. apply String.eqb_neq in Hne. now rewrite Hne.
Qed.

(** An assignment that the export goes on after wrote the value under
    the label or, the label being [__proto__], wrote nothing. *)
Lemma setLabel_Some (result result' : gmap string Labeled) label value :
  setLabel result label value = Some result' ->
  result' = <[label := value]> result
  \/ (label = "__proto__" /\ result' = result).
Proof.
  unfold setLabel. destruct (String.eqb label "__proto__") eqn:Hl.
  - apply String.eqb_eq in Hl. destruct (result !! label).
    + intros [= <-]. now left.
    + destruct value; try discriminate; intros [= <-]; now right.
  - intros [= <-]. now left.
Qed.

(** [buildLabeledData] is its first loop followed by its second. *)
Lemma buildLabeledData_loops (data : gmap string FormValue)
    (fieldList : list FormField) (parentPath : list string) :
  buildLabeledData data fieldList parentPath
  = match walkData data parentPath with
    | Some currentData =>
        labelLoop data currentData parentPath fieldList (Some ∅)
    | None => Some ∅
    end.
Proof. reflexivity. Qed.

Lemma labelChildren_group (data : gmap string FormValue) b cs path :
  labelChildren data (GroupField b cs) path = buildLabeledData data cs path.
Proof. reflexivity. Qed.

Section labelled_export.
Variable data : gmap string FormValue.
Variable currentData : JsObject.
Variable parentPath : list string.

(** The step of the loop for one field: it puts the entry of the field
    under its label, or leaves the result as it is. *)
Lemma labelStep_Some (result result' : gmap string Labeled) (f : FormField) :
  labelStep data currentData parentPath result f = Some result' ->
  result' = entryStep data currentData parentPath result f
  \/ (flabel f = "__proto__" /\ result' = result).
Proof.
  unfold labelStep, labelField, entryStep, entryOf.
  destruct f as [b|b|b cs]; cbv zeta.
  - destruct (get currentData (fid (TextField b))) as [[s|n| |m| |]|];
      cbn [labeledOf]; try (intros [= <-]; now left).
    + destruct (String.eqb s ""); [intros [= <-]; now left|].
      apply setLabel_Some.
    + apply setLabel_Some.
    + apply setLabel_Some.
  - destruct (get currentData (fid (NumberField b))) as [[s|n| |m| |]|];
      cbn [labeledOf]; try (intros [= <-]; now left).
    + destruct (String.eqb s ""); [intros [= <-]; now left|].
      apply setLabel_Some.
    + apply setLabel_Some.
    + apply setLabel_Some.
  - rewrite labelChildren_group.
    destruct (buildLabeledData data cs _) as [groupValue|]; [|discriminate].
    destruct (0 <? size groupValue); [|intros [= <-]; now left].
    apply setLabel_Some.
Qed.

(** Where the label is not [__proto__] and the export of the children is
    computed, the step is computed. *)
Lemma labelStep_plain (result : gmap string Labeled) (f : FormField) :
  flabel f <> "__proto__" ->
  is_Some (labelChildren data f (parentPath ++ [fid f])) ->
  labelStep data currentData parentPath result f
  = Some (entryStep data currentData parentPath result f).
Proof.
  intros Hlabel Hchildren.
  unfold labelStep, labelField, entryStep, entryOf.
  destruct f as [b|b|b cs]; cbv zeta.
  - destruct (get currentData (fid (TextField b))) as [[s|n| |m| |]|];
      cbn [labeledOf]; try reflexivity; try (now apply setLabel_plain).
    destruct (String.eqb s ""); [reflexivity | now apply setLabel_plain].
  - destruct (get currentData (fid (NumberField b))) as [[s|n| |m| |]|];
      cbn [labeledOf]; try reflexivity; try (now apply setLabel_plain).
    destruct (String.eqb s ""); [reflexivity | now apply setLabel_plain].
  - rewrite labelChildren_group in Hchildren |- *.
    destruct Hchildren as [groupValue ->].
    destruct (0 <? size groupValue); [now apply setLabel_plain | reflexivity].
Qed.

Lemma labelLoop_cons f l acc :
  labelLoop data currentData parentPath (f :: l) (Some acc)
  = labelLoop data currentData parentPath l
      (labelStep data currentData parentPath acc f).
Proof. reflexivity. Qed.

Lemma labelLoop_None l : labelLoop data currentData parentPath l None = None.
Proof. induction l as [|f l IH]; [reflexivity | exact IH]. Qed.

Lemma labelLoop_app l1 l2 acc :
  labelLoop data currentData parentPath (l1 ++ l2) acc
  = labelLoop data currentData parentPath l2
      (labelLoop data currentData parentPath l1 acc).
Proof. apply fold_left_app. Qed.

(** A loop that is computed was computed step by step. *)
Lemma labelLoop_Some_cons f l acc result :
  labelLoop data currentData parentPath (f :: l) (Some acc) = Some result ->
  exists acc',
    labelStep data currentData parentPath acc f = Some acc'
    /\ labelLoop data currentData parentPath l (Some acc') = Some result.
Proof.
  rewrite labelLoop_cons.
  destruct (labelStep data currentData parentPath acc f) as [acc'|];
    [eauto | now rewrite labelLoop_None].
Qed.

Lemma labelLoop_Some_app l1 l2 acc result :
  labelLoop data currentData parentPath (l1 ++ l2) (Some acc) = Some result ->
  exists middle,
    labelLoop data currentData parentPath l1 (Some acc) = Some middle
    /\ labelLoop data currentData parentPath l2 (Some middle) = Some result.
Proof.
  rewrite labelLoop_app.
  destruct (labelLoop data currentData parentPath l1 (Some acc)) as [middle|];
    [eauto | now rewrite labelLoop_None].
Qed.

(** Where no label is [__proto__] and the exports of the children are
    computed, the loop is computed. *)
Lemma labelLoop_plain (l : list FormField) (acc : gmap string Labeled) :
  Forall
    (fun f =>
       flabel f <> "__proto__"
       /\ is_Some (labelChildren data f (parentPath ++ [fid f])))
    l ->
  labelLoop data currentData parentPath l (Some acc)
  = Some (fold_left (entryStep data currentData parentPath) l acc).
Proof.
  intros Hl. revert acc.
  induction Hl as [|f l [Hlabel Hchildren] _ IH]; intros acc; [reflexivity|].
  rewrite labelLoop_cons, labelStep_plain by assumption. apply IH.
Qed.

Lemma entryOf_leaf (f : FormField) (x : FormValue) :
  type f <> group ->
  get currentData (fid f) = Some x ->
  entryOf data currentData parentPath f = labeledOf x.
Proof.
  intros Hleaf Hx. destruct f as [b|b|b cs]; [| |now elim Hleaf];
    unfold entryOf; now rewrite Hx.
Qed.

(** Fields with another label leave the entry of a label as it is. *)
Lemma fold_other_labels (L : string) (post : list FormField)
    (acc result : gmap string Labeled) :
  Forall (fun f => flabel f <> L) post ->
  labelLoop data currentData parentPath post (Some acc) = Some result ->
  result !! L = acc !! L.
Proof.
  intros Hpost. revert acc.
  induction Hpost as [|f post Hf _ IH]; intros acc Hloop.
  - now injection Hloop as <-.
  - apply labelLoop_Some_cons in Hloop as (acc' & Hstep & Hloop).
    rewrite (IH acc' Hloop).
    apply labelStep_Some in Hstep as [-> | [_ ->]]; [|reflexivity].
    unfold entryStep.
    destruct (entryOf data currentData parentPath f); [|reflexivity].
    now rewrite lookup_insert_ne.
Qed.






(** The entry under a label is the one that was there before the loop, or
    the entry of a field of the list with that label. *)
Lemma fold_owner (L : string) (l : list FormField)
    (acc result : gmap string Labeled) :
  labelLoop data currentData parentPath l (Some acc) = Some result ->
  result !! L = acc !! L
  \/ exists g v,
       In g l /\ flabel g = L
       /\ entryOf data currentData parentPath g = Some v
       /\ result !! L = Some v.
Proof.
  revert acc. induction l as [|g l IH]; intros acc Hloop.
  - injection Hloop as <-. now left.
  - apply labelLoop_Some_cons in Hloop as (acc' & Hstep & Hloop).
    destruct (IH acc' Hloop)
      as [Hsame | (h & v & Hh & Hlabel & Hentry & Hlook)].
    + rewrite Hsame.
      apply labelStep_Some in Hstep as [-> | [_ ->]]; [|now left].
      unfold entryStep.
      destruct (entryOf data currentData parentPath g) as [v|] eqn:Hentry;
        [|now left].
      destruct (decide (flabel g = L)) as [Heq|Hne].
      * right. exists g, v. rewrite Heq, lookup_insert_eq.
        split; [now left|]. auto.
      * left. now rewrite lookup_insert_ne.
    + right. exists h, v. split; [now right|]. auto.
Qed.

End labelled_export.

(** The export of a tree none of whose labels is [__proto__] is
    computed. *)
Lemma labelChildren_total (data : gmap string FormValue) (f : FormField) :
  plainLabels f = true ->
  forall path, is_Some (labelChildren data f path).
Proof.
  induction f as [b|b|b cs IH] using FormField_tree_ind; intros Hplain path;
    [now eexists | now eexists |].
  cbn [plainLabels] in Hplain. apply andb_true_iff in Hplain as [_ Hcs].
  rewrite labelChildren_group, buildLabeledData_loops.
  destruct (walkData data path) as [currentData|]; [|now eexists].
  rewrite labelLoop_plain; [now eexists|].
  rewrite forallb_forall in Hcs. rewrite List.Forall_forall in IH.
  apply List.Forall_forall. intros g Hg. specialize (Hcs g Hg). split.
  - destruct g as [c|c|c gs]; cbn [plainLabels] in Hcs;
      apply andb_true_iff in Hcs as [Hl _]; apply negb_true_iff in Hl;
      now apply String.eqb_neq in Hl.
  - now apply IH.
Qed.

Lemma plainLabels_label (f : FormField) :
  plainLabels f = true -> flabel f <> "__proto__".
Proof.
  intros H. destruct f as [c|c|c gs]; cbn [plainLabels] in H;
    apply andb_true_iff in H as [Hl _]; apply negb_true_iff in Hl;
    now apply String.eqb_neq in Hl.
Qed.

Lemma buildLabeledData_total (data : gmap string FormValue)
    (fieldList : list FormField) (parentPath : list string) :
  forallb plainLabels fieldList = true ->
  is_Some (buildLabeledData data fieldList parentPath).
Proof.
  intros Hplain. rewrite buildLabeledData_loops.
  destruct (walkData data parentPath) as [currentData|]; [|now eexists].
  rewrite labelLoop_plain; [now eexists|].
  rewrite forallb_forall in Hplain.
  apply List.Forall_forall. intros g Hg. split.
  - apply plainLabels_label. now apply Hplain.
  - apply labelChildren_total. now apply Hplain.
Qed.




(** ** The tests of the repository, replayed *)

(** [findField.test.ts], path-based matching. *)
Example test_exact_parent_path :
  let fields :=
    [groupField "group-1" "Group 1"
       [textField "text-1" "Text 1"; textField "text-2" "Text 2"];
     groupField "group-2" "Group 2" [textField "text-1" "Text 1 Duplicate"]] in
  findField "text-1" (Some ["group-1"]) fields
  = Some {| field := textField "text-1" "Text 1";
            parent :=
              [textField "text-1" "Text 1"; textField "text-2" "Text 2"];
            index := 0 |}.
Proof. reflexivity. Qed.

Example test_path_length_does_not_match :
  findField "text-1" (Some ["group-1"; "extra"])
    [groupField "group-1" "Group 1" [textField "text-1" "Text 1"]]
  = None.
Proof. reflexivity. Qed.

Example test_empty_parent_path :
  let fields :=
    [textField "text-1" "Text 1";
     groupField "group-1" "Group 1" [textField "text-1" "Nested Text 1"]] in
  findField "text-1" (Some []) fields
  = Some {| field := textField "text-1" "Text 1";
            parent := fields;
            index := 0 |}.
Proof. reflexivity. Qed.

Example test_same_id_in_different_groups :
  let fields :=
    [groupField "group-1" "Group 1" [textField "duplicate" "First"];
     groupField "group-2" "Group 2" [textField "duplicate" "Second"]] in
  (field <$> findField "duplicate" None fields)
  = Some (textField "duplicate" "First")
  /\ findFieldByPath "duplicate" ["group-2"] fields
     = Some (textField "duplicate" "Second").
Proof. split; reflexivity. Qed.

(** [FormBuilderContext.test.tsx], moveField. *)
Example test_moves_field_within_a_group :
  moveField "n" up
    (mkConfig [groupField "g" "Group" [textField "t" "Text"; percent]])
  = mkConfig [groupField "g" "Group" [percent; textField "t" "Text"]].
Proof. reflexivity. Qed.

Example test_does_not_move_first_up_nor_last_down :
  let config := mkConfig [textField "t" "Text"; percent] in
  moveField "t" up config = config /\ moveField "n" down config = config.
Proof. split; reflexivity. Qed.

(** [FormPreview.test.tsx], validation and submission. *)
Example test_number_min_and_max :
  validateValue decimalToNumber
    (NumberField (mkBase "number-1" "Age" false (Some (Finite 18)) None))
    (VNumber (Finite 15))
  = Some (MinValue (Finite 18))
  /\ validateValue decimalToNumber
       (NumberField (mkBase "number-1" "Age" false None (Some (Finite 100))))
       (VNumber (Finite 150))
     = Some (MaxValue (Finite 100)).
Proof. split; reflexivity. Qed.

Example test_required_field_when_empty :
  let fields := [TextField (mkBase "text-1" "Name" true None None)] in
  validateAllFields decimalToNumber ∅ fields = {[ "text-1" := Required ]}
  /\ validateAllFields decimalToNumber {[ "text-1" := VString "   " ]} fields
     = {[ "text-1" := Required ]}
  /\ validateAllFields decimalToNumber {[ "text-1" := VString "John" ]} fields
     = ∅.
Proof. repeat split; vm_compute; reflexivity. Qed.

Example test_nested_group_data_in_submission :
  let fields :=
    [groupField "group-1" "Personal Info" [textField "text-1" "First Name"]] in
  exists st,
    handleFieldChange decimalToNumber fields "text-1" (VString "John")
      ["group-1"] initial = Some st
    /\ formData st
       = {[ "group-1" := VObject {[ "text-1" := VString "John" ]} ]}
    /\ validateAllFields decimalToNumber (formData st) fields = ∅
    /\ submittedData (handleSubmit decimalToNumber fields st)
       = Some (formData st)
    /\ buildLabeledData (formData st) fields []
       = Some
           {[ "Personal Info" :=
                LObject {[ "First Name" := LString "John" ]} ]}.
Proof. eexists. repeat split; vm_compute; reflexivity. Qed.

(** The scenario of a required field in a group that is not required: one
    entry, under the key of the field; none once the field is filled. *)
Example scenario_required_field_in_group :
  let fields :=
    [groupField "g" "G" [TextField (mkBase "t" "T" true None None)]] in
  validateAllFields decimalToNumber ∅ fields = {[ "g.t" := Required ]}
  /\ validateAllFields decimalToNumber
       {[ "g" := VObject {[ "t" := VString "v" ]} ]} fields = ∅
  /\ buildLabeledData {[ "g" := VObject {[ "t" := VString "v" ]} ]} fields []
     = Some {[ "G" := LObject {[ "T" := LString "v" ]} ]}.
Proof. repeat split; vm_compute; reflexivity. Qed.

(** [ConfigurableFormBuilder.test.tsx], import. *)
Example test_import_missing_fields_array :
  handleImportSubmit (Parsed (JObject ∅)) dialogOpen
  = rejected dialogOpen (Translated missingFields).
Proof. reflexivity. Qed.

Example test_import_valid_document :
  let document :=
    JObject
      {[ "fields" :=
           JArray
             [JObject
                (<["id" := JString "imported-1"]>
                   (<["type" := JString "text"]>
                      (<["label" := JString "Imported Field"]>
                         (<["required" := JBool false]> ∅))))] ]} in
  handleImportSubmit (Parsed document) dialogOpen = accepted document.
Proof. vm_compute. reflexivity. Qed.

(** * Further properties *)

Import Identifier Builder Editor Shape.

(** ** Deleting a field *)

Section delete_facts.
Variable fieldId : string.

Lemma deleteInGroup_group b cs :
  deleteInGroup fieldId (GroupField b cs)
  = GroupField b (deleteFromFields fieldId cs).
Proof. reflexivity. Qed.

(** [deleteFromFields] with the two passes of the source: the members
    with the id are filtered out, then the groups that are left are
    mapped. *)
Lemma deleteFromFields_unfold fields :
  deleteFromFields fieldId fields
  = map
      (fun field =>
         match field with
         | GroupField b cs => GroupField b (deleteFromFields fieldId cs)
         | _ => field
         end)
      (List.filter (fun field => negb (String.eqb (fid field) fieldId)) fields).
Proof.
  induction fields as [|f rest IH]; [reflexivity|].
  cbn [deleteFromFields List.filter].
  destruct (negb (String.eqb (fid f) fieldId)); [|exact IH].
  cbn [map]. rewrite <- IH. f_equal.
  now destruct f.
Qed.

Lemma deleteInGroup_id f : fid (deleteInGroup fieldId f) = fid f.
Proof. destruct f; reflexivity. Qed.

Lemma deleteFromFields_cons f rest :
  deleteFromFields fieldId (f :: rest)
  = if String.eqb (fid f) fieldId then deleteFromFields fieldId rest
    else deleteInGroup fieldId f :: deleteFromFields fieldId rest.
Proof. cbn [deleteFromFields]. now destruct (String.eqb (fid f) fieldId). Qed.

Lemma deleteFromFields_app l1 l2 :
  deleteFromFields fieldId (l1 ++ l2)
  = deleteFromFields fieldId l1 ++ deleteFromFields fieldId l2.
Proof.
  induction l1 as [|f l1 IH]; [reflexivity|].
  rewrite <- app_comm_cons, !deleteFromFields_cons.
  destruct (String.eqb (fid f) fieldId); [exact IH|].
  now rewrite IH.
Qed.

(** Induction on a sibling list and, through the groups, on the lists
    below it. *)
Lemma fields_tree_ind (P : list FormField -> Prop) :
  P [] ->
  (forall b rest, P rest -> P (TextField b :: rest)) ->
  (forall b rest, P rest -> P (NumberField b :: rest)) ->
  (forall b cs rest, P cs -> P rest -> P (GroupField b cs :: rest)) ->
  forall fields, P fields.
Proof.
  intros Hnil Htext Hnumber Hgroup.
  assert (Hall : forall f, forall rest, P rest -> P (f :: rest)).
  { induction f as [b|b|b cs IH] using FormField_tree_ind; intros rest Hrest;
      [now apply Htext | now apply Hnumber |].
    apply Hgroup; [|exact Hrest].
    induction IH as [|g cs Hg _ IHcs]; [exact Hnil | now apply Hg]. }
  induction fields as [|f rest IH]; [exact Hnil | now apply Hall].
Qed.

Lemma deleteFromFields_clears fields :
  occurrencesIn fieldId (deleteFromFields fieldId fields) = 0.
Proof.
  induction fields as [|b rest IH|b rest IH|b cs rest IHcs IH]
    using fields_tree_ind; [reflexivity| | |];
    rewrite deleteFromFields_cons;
    destruct (String.eqb (fid _) fieldId) eqn:Hid; try exact IH;
    rewrite occurrencesIn_cons, IH.
  - cbn [deleteInGroup occurrences]. now rewrite Hid.
  - cbn [deleteInGroup occurrences]. now rewrite Hid.
  - rewrite deleteInGroup_group, occurrences_group, IHcs.
    unfold fid in Hid. cbn [base] in Hid. now rewrite Hid.
Qed.

Lemma deleteFromFields_absent fields :
  occurrencesIn fieldId fields = 0 -> deleteFromFields fieldId fields = fields.
Proof.
  induction fields as [|b rest IH|b rest IH|b cs rest IHcs IH]
    using fields_tree_ind; [reflexivity| | |];
    rewrite occurrencesIn_cons; intros Hnone;
    rewrite deleteFromFields_cons;
    (destruct (String.eqb (fid _) fieldId) eqn:Hid;
     [apply occurrences_own in Hid; lia|]).
  - rewrite IH by lia. reflexivity.
  - rewrite IH by lia. reflexivity.
  - rewrite deleteInGroup_group. rewrite occurrences_group in Hnone.
    rewrite IHcs, IH by lia. reflexivity.
Qed.
End delete_facts.

Lemma deleteFromFields_comm (a b : string) (fields : list FormField) :
  deleteFromFields a (deleteFromFields b fields)
  = deleteFromFields b (deleteFromFields a fields).
Proof.
  induction fields as [|c rest IH|c rest IH|c cs rest IHcs IH]
    using fields_tree_ind; [reflexivity| | |];
    rewrite (deleteFromFields_cons a), (deleteFromFields_cons b);
    destruct (String.eqb (fid _) a) eqn:Ha;
    destruct (String.eqb (fid _) b) eqn:Hb;
    try exact IH;
    rewrite ?(deleteFromFields_cons a), ?(deleteFromFields_cons b),
      ?deleteInGroup_id, ?Ha, ?Hb; try exact IH;
    rewrite IH; try reflexivity.
  rewrite !deleteInGroup_group, IHcs. reflexivity.
Qed.

(** X1. After [deleteField (id)] no field of the tree carries the id, at
    any depth, and no search for the id, scoped or not, returns a field. *)
Theorem deleteField_removes_every_occurrence
    (fieldId : string) (config : FormConfig) :
  occurrencesIn fieldId (cfg_fields (deleteField fieldId config)) = 0
  /\ forall parentPath,
       Locator.findField fieldId parentPath
         (cfg_fields (deleteField fieldId config)) = None.
Proof.
  pose proof (deleteFromFields_clears fieldId (cfg_fields config)) as Hclear.
  split; [exact Hclear|]. intros parentPath.
  destruct (Locator.findField fieldId parentPath
              (cfg_fields (deleteField fieldId config))) as [r|] eqn:Hfind;
    [|reflexivity].
  apply findField_located in Hfind as (suffix & Hlevel & Hlook & Hid & _).
  apply String.eqb_eq in Hid.
  pose proof (occurrence_counted fieldId suffix _ _ _ _ Hlevel Hlook Hid) as H.
  unfold deleteField in H. cbn [cfg_fields] in H. lia.
Qed.

(** X2. Deleting two ids in either order gives the same tree, and deleting
    an id a second time changes nothing. *)
Theorem deleteField_commutes (a b : string) (config : FormConfig) :
  deleteField a (deleteField b config) = deleteField b (deleteField a config)
  /\ deleteField a (deleteField a config) = deleteField a config.
Proof.
  unfold deleteField. cbn [cfg_fields]. split; f_equal.
  - apply deleteFromFields_comm.
  - apply deleteFromFields_absent, deleteFromFields_clears.
Qed.

(** ** Adding a field *)

Section add_facts.
Variable t : DefaultLabel -> string.
Variable newId : string.

Lemma newField_id fieldType : fid (newField t newId fieldType) = newId.
Proof. now destruct fieldType. Qed.

Lemma newField_occurrences fieldType :
  occurrences newId (newField t newId fieldType) = 1.
Proof.
  destruct fieldType; cbn [newField occurrences fid base id];
    rewrite String.eqb_refl; reflexivity.
Qed.

Lemma updateFields_cons parentId added f rest :
  Builder.updateFields parentId added (f :: rest)
  = (fst (addInto parentId added f)
       :: fst (Builder.updateFields parentId added rest),
     snd (addInto parentId added f)
     || snd (Builder.updateFields parentId added rest)).
Proof. reflexivity. Qed.

Lemma addInto_group parentId added b cs :
  addInto parentId added (GroupField b cs)
  = if String.eqb (id b) parentId
    then (GroupField b (cs ++ [added]), true)
    else (GroupField b (fst (Builder.updateFields parentId added cs)),
          snd (Builder.updateFields parentId added cs)).
Proof. reflexivity. Qed.

Lemma addInto_id parentId added f :
  fid (fst (addInto parentId added f)) = fid f.
Proof.
  destruct f as [b|b|b cs]; try reflexivity.
  rewrite addInto_group. now destruct (String.eqb (id b) parentId).
Qed.

Lemma deleteFromFields_added fieldType :
  deleteFromFields newId [newField t newId fieldType] = [].
Proof.
  rewrite deleteFromFields_cons, newField_id, String.eqb_refl. reflexivity.
Qed.

Lemma updateFields_then_delete parentId fieldType fields :
  occurrencesIn newId fields = 0 ->
  deleteFromFields newId
    (fst (Builder.updateFields parentId (newField t newId fieldType) fields))
  = fields.
Proof.
  induction fields as [|b rest IH|b rest IH|b cs rest IHcs IH]
    using fields_tree_ind; [reflexivity| | |];
    rewrite occurrencesIn_cons; intros Hnone;
    rewrite updateFields_cons; cbn [fst];
    rewrite deleteFromFields_cons, addInto_id;
    (destruct (String.eqb (fid _) newId) eqn:Hid;
     [apply occurrences_own in Hid; lia|]);
    rewrite IH by lia; try reflexivity.
  f_equal. rewrite occurrences_group in Hnone.
  rewrite addInto_group. destruct (String.eqb (id b) parentId); cbn [fst].
  - rewrite deleteInGroup_group, deleteFromFields_app, deleteFromFields_added.
    rewrite deleteFromFields_absent by lia. now rewrite app_nil_r.
  - rewrite deleteInGroup_group, IHcs by lia. reflexivity.
Qed.

(** X3. [addField] keeps every field there was: when the new id is not
    in use, deleting the field just added gives the previous config back,
    wherever the field went (the root, a group, or the root as the
    fallback). *)
Theorem addField_then_deleteField
    (parentId : option string) (fieldType : FieldType) (prev : FormConfig) :
  occurrencesIn newId (cfg_fields prev) = 0 ->
  deleteField newId (addField t newId parentId fieldType prev) = prev.
Proof.
  destruct prev as [fields]. cbn [cfg_fields]. intros Hfresh.
  unfold deleteField, addField. cbv zeta.
  destruct parentId as [p|]; cbn [cfg_fields].
  - pose proof (updateFields_then_delete p fieldType fields Hfresh) as Hback.
    destruct (Builder.updateFields p (newField t newId fieldType) fields)
      as [updatedFields parentFound].
    cbn [fst] in Hback.
    destruct parentFound; cbn [negb cfg_fields]; [now rewrite Hback|].
    now rewrite deleteFromFields_app, deleteFromFields_added, Hback, app_nil_r.
  - rewrite deleteFromFields_app, deleteFromFields_added, app_nil_r.
    now rewrite deleteFromFields_absent.
Qed.

Lemma groupsNamedIn_cons parentId f rest :
  groupsNamedIn parentId (f :: rest)
  = groupsNamed parentId f + groupsNamedIn parentId rest.
Proof. reflexivity. Qed.

Lemma updateFields_no_parent parentId added fields :
  groupsNamedIn parentId fields = 0 ->
  Builder.updateFields parentId added fields = (fields, false).
Proof.
  induction fields as [|b rest IH|b rest IH|b cs rest IHcs IH]
    using fields_tree_ind; [reflexivity| | |];
    rewrite groupsNamedIn_cons; intros Hnone;
    rewrite updateFields_cons, IH by lia; try reflexivity.
  cbn [groupsNamed] in Hnone. fold (groupsNamedIn parentId cs) in Hnone.
  rewrite addInto_group.
  destruct (String.eqb (id b) parentId); [lia|].
  now rewrite IHcs by lia.
Qed.

(** X4. When no group of the tree carries the id given as the parent, the
    new field goes to the end of the root list, as it does for no parent;
    the rest of the tree is left as it is.  An id carried by a text or a
    number field only counts as no parent. *)
Theorem addField_without_parent_appends_to_root
    (parentId : string) (fieldType : FieldType) (prev : FormConfig) :
  groupsNamedIn parentId (cfg_fields prev) = 0 ->
  addField t newId (Some parentId) fieldType prev
  = addField t newId None fieldType prev
  /\ cfg_fields (addField t newId (Some parentId) fieldType prev)
     = cfg_fields prev ++ [newField t newId fieldType].
Proof.
  intros Hnone. unfold addField. cbv zeta.
  now rewrite (updateFields_no_parent _ _ _ Hnone).
Qed.

Lemma updateFields_length parentId added fields :
  length (fst (Builder.updateFields parentId added fields)) = length fields.
Proof. unfold Builder.updateFields. cbn [fst]. now rewrite !length_map. Qed.

Lemma updateFields_parent parentId added path : forall fields level,
  ~ In parentId path ->
  In level (levelsAt fields (path ++ [parentId])) ->
  snd (Builder.updateFields parentId added fields) = true
  /\ In (level ++ [added])
       (levelsAt (fst (Builder.updateFields parentId added fields))
          (path ++ [parentId])).
Proof.
  induction path as [|q path IH]; intros fields level Hpath Hlevel;
    cbn [app levelsAt] in *;
    apply in_flat_map in Hlevel as (g & Hg & Hlevel);
    (destruct g as [b|b|b cs]; [contradiction|contradiction|]);
    unfold Builder.updateFields; cbn [fst snd].
  - destruct (String.eqb (id b) parentId) eqn:Hb; [|contradiction].
    destruct Hlevel as [<-|[]].
    assert (Hadd : addInto parentId added (GroupField b cs)
                   = (GroupField b (cs ++ [added]), true))
      by (now rewrite addInto_group, Hb).
    split.
    + apply existsb_exists. exists (GroupField b (cs ++ [added]), true).
      split; [|reflexivity]. rewrite <- Hadd. now apply in_map.
    + apply in_flat_map. exists (GroupField b (cs ++ [added])).
      split; [|rewrite Hb; now left].
      change (GroupField b (cs ++ [added]))
        with (fst (GroupField b (cs ++ [added]), true)).
      rewrite <- Hadd. now apply in_map, in_map.
  - destruct (String.eqb (id b) q) eqn:Hq; [|contradiction].
    apply String.eqb_eq in Hq.
    assert (Hb : String.eqb (id b) parentId = false).
    { apply String.eqb_neq. intros Heq. apply Hpath. left. congruence. }
    destruct (IH cs level) as [Hfound Hin];
      [intros Hin; apply Hpath; now right | exact Hlevel |].
    assert (Hadd : addInto parentId added (GroupField b cs)
                   = (GroupField b
                        (fst (Builder.updateFields parentId added cs)),
                      true))
      by (now rewrite addInto_group, Hb, Hfound).
    split.
    + apply existsb_exists.
      exists (GroupField b (fst (Builder.updateFields parentId added cs)),
              true).
      split; [|reflexivity]. rewrite <- Hadd. now apply in_map.
    + apply in_flat_map.
      exists (GroupField b (fst (Builder.updateFields parentId added cs))).
      split; [|apply String.eqb_eq in Hq; rewrite Hq; exact Hin].
      match goal with
      | |- In ?g _ => change g with (fst (g, true))
      end.
      rewrite <- Hadd. now apply in_map, in_map.
Qed.

(** X5. When a group with the id given as the parent is reached through
    groups of other ids, the new field becomes the last child of that
    group, and the root list keeps its length. *)
Theorem addField_appends_to_parent
    (parentId : string) (fieldType : FieldType) (prev : FormConfig)
    (path : list string) (level : list FormField) :
  ~ In parentId path ->
  In level (levelsAt (cfg_fields prev) (path ++ [parentId])) ->
  let after := cfg_fields (addField t newId (Some parentId) fieldType prev) in
  In (level ++ [newField t newId fieldType])
    (levelsAt after (path ++ [parentId]))
  /\ length after = length (cfg_fields prev).
Proof.
  intros Hpath Hlevel.
  destruct (updateFields_parent parentId (newField t newId fieldType) path
              (cfg_fields prev) level Hpath Hlevel) as [Hfound Hin].
  pose proof (updateFields_length parentId (newField t newId fieldType)
                (cfg_fields prev)) as Hlen.
  unfold addField. cbv zeta.
  destruct (Builder.updateFields parentId (newField t newId fieldType)
              (cfg_fields prev)) as [updatedFields parentFound].
  cbn [fst snd] in *. subst parentFound. cbn [negb cfg_fields].
  split; assumption.
Qed.
End add_facts.

(** ** An id that does not occur *)

Section absent_id.
Variable fieldId : string.

Lemma updateFields_absent updates fields :
  occurrencesIn fieldId fields = 0 ->
  Mutator.updateFields fieldId updates fields = fields.
Proof.
  unfold Mutator.updateFields.
  induction fields as [|b rest IH|b rest IH|b cs rest IHcs IH]
    using fields_tree_ind; [reflexivity| | |];
    rewrite occurrencesIn_cons; intros Hnone; cbn [map updateOne];
    (destruct (String.eqb (fid _) fieldId) eqn:Hid;
     [apply occurrences_own in Hid; lia|]);
    rewrite IH by lia; try reflexivity.
  rewrite occurrences_group in Hnone. now rewrite IHcs by lia.
Qed.

Lemma moveInFields_absent direction fields :
  occurrencesIn fieldId fields = 0 ->
  moveInFields fieldId direction fields = fields.
Proof.
  induction fields as [|b rest IH|b rest IH|b cs rest IHcs IH]
    using fields_tree_ind; [reflexivity| | |];
    rewrite occurrencesIn_cons; intros Hnone;
    (assert (Hrest : findIndex fieldId rest = None)
       by (apply findIndex_none_intro;
           eapply List.Forall_impl;
           [intros g; apply occurrences_none_other
           |apply occurrencesIn_none; lia]));
    specialize (IH ltac:(lia));
    rewrite (moveInFields_none fieldId direction rest Hrest) in IH;
    unfold moveInFields, moveLevel; cbn [findIndex];
    (destruct (String.eqb (fid _) fieldId) eqn:Hid;
     [apply occurrences_own in Hid; lia|]);
    rewrite Hrest; cbn [map]; rewrite IH; try reflexivity.
  rewrite occurrences_group in Hnone.
  change (moveInGroup fieldId direction (GroupField b cs))
    with (GroupField b (moveInFields fieldId direction cs)).
  now rewrite IHcs by lia.
Qed.

(** X6. An id that no field of the tree carries is ignored: [updateField],
    [moveField] and [deleteField] on it return the config as it is. *)
Theorem mutators_ignore_absent_id
    (updates : FieldUpdates) (direction : Direction) (config : FormConfig) :
  occurrencesIn fieldId (cfg_fields config) = 0 ->
  updateField fieldId updates config = config
  /\ moveField fieldId direction config = config
  /\ deleteField fieldId config = config.
Proof.
  destruct config as [fields]. cbn [cfg_fields]. intros Hnone.
  unfold updateField, moveField, deleteField. cbn [cfg_fields].
  rewrite updateFields_absent, moveInFields_absent, deleteFromFields_absent
    by assumption.
  auto.
Qed.
End absent_id.

(** ** Moving a field at the end of its list, and moving an only field *)

Section move_more.
Variable fieldId : string.

(** When every sibling list where the id is found is left as it is, so is
    the tree. *)
Lemma move_fixes (ok : list FormField -> nat -> bool) (direction : Direction) :
  (forall fields i,
     findIndex fieldId fields = Some i -> ok fields i = true ->
     moveInFields fieldId direction fields = fields) ->
  forall fields,
    everyFound fieldId ok fields = true ->
    moveInFields fieldId direction fields = fields.
Proof.
  intros Hfound.
  induction fields as [|b rest IH|b rest IH|b cs rest IHcs IH]
    using fields_tree_ind; [reflexivity| | |];
    unfold everyFound, foundLevel;
    (destruct (findIndex fieldId (_ :: rest)) as [i|] eqn:Hfind;
     [now apply Hfound|]);
    cbn [forallb]; intros Hall;
    pose proof Hfind as Htail; cbn [findIndex] in Htail;
    (destruct (String.eqb (fid _) fieldId); [discriminate|]);
    (destruct (findIndex fieldId rest) eqn:Hrest; [discriminate|]); clear Htail;
    rewrite (moveInFields_none fieldId direction _ Hfind); cbn [map];
    (assert (Hmap : map (moveInGroup fieldId direction) rest = rest)
       by (rewrite <- (moveInFields_none fieldId direction rest Hrest);
           apply IH; unfold everyFound, foundLevel; rewrite Hrest;
           now apply andb_true_iff in Hall));
    rewrite Hmap; try reflexivity.
  apply andb_true_iff in Hall as [Hcs _].
  change (moveInGroup fieldId direction (GroupField b cs))
    with (GroupField b (moveInFields fieldId direction cs)).
  now rewrite IHcs.
Qed.

Lemma moveInFields_disabled direction fields i :
  findIndex fieldId fields = Some i ->
  disabled direction fields i = true ->
  moveInFields fieldId direction fields = fields.
Proof.
  intros Hfind Hoff. unfold moveInFields, moveLevel. rewrite Hfind.
  destruct direction; cbn [disabled] in Hoff; apply negb_true_iff in Hoff.
  - apply Nat.ltb_ge in Hoff. assert (i = 0) as -> by lia. reflexivity.
  - unfold canMoveDown in Hoff. apply Z.ltb_ge in Hoff.
    destruct (_ || _) eqn:Hb; [reflexivity|].
    apply orb_false_iff in Hb as [_ Hb]. rewrite Z.geb_leb in Hb.
    apply Z.leb_gt in Hb. lia.
Qed.

(** X7. Where the tree shows the button of a direction disabled for the
    field ([canMoveUp], [canMoveDown] of the field tree), [moveField] in
    that direction returns the config as it is: the first member of a
    sibling list is not moved up, the last not down. *)
Theorem moveField_disabled_direction
    (direction : Direction) (config : FormConfig) :
  sitsAtEnd direction fieldId (cfg_fields config) = true ->
  moveField fieldId direction config = config.
Proof.
  destruct config as [fields]. cbn [cfg_fields]. intros Hend.
  unfold moveField. cbn [cfg_fields]. f_equal.
  exact (move_fixes (disabled direction) direction
           (moveInFields_disabled direction) fields Hend).
Qed.

Lemma level_occurrences path : forall fields level,
  In level (levelsAt fields path) ->
  occurrencesIn fieldId level <= occurrencesIn fieldId fields.
Proof.
  induction path as [|p rest IH]; intros fields level Hlevel;
    cbn [levelsAt] in Hlevel.
  - destruct Hlevel as [<-|[]]. lia.
  - apply in_flat_map in Hlevel as (g & Hg & Hlevel).
    destruct g as [b|b|b cs]; try contradiction.
    destruct (String.eqb (id b) p); [|contradiction].
    apply in_split in Hg as (l1 & l2 & ->).
    rewrite occurrencesIn_app, occurrencesIn_cons, occurrences_group.
    pose proof (IH cs level Hlevel). lia.
Qed.

Lemma occurrencesIn_others fields :
  occurrencesIn fieldId fields = 0 -> Forall (otherId fieldId) fields.
Proof.
  intros H. eapply List.Forall_impl; [|apply occurrencesIn_none; exact H].
  intros g. apply occurrences_none_other.
Qed.

(** In a tree where the id occurs once, what [moveField] does to the
    sibling list of that field is what it does to the tree at the path of
    that list. *)
Lemma move_only_field direction level level' path :
  moveInFields fieldId direction level = level' ->
  1 <= occurrencesIn fieldId level ->
  forall fields,
    occurrencesIn fieldId fields = 1 ->
    In level (levelsAt fields path) ->
    In level' (levelsAt (moveInFields fieldId direction fields) path).
Proof.
  intros Hmove Hhere.
  induction path as [|p rest IH]; intros fields Hone Hlevel;
    cbn [levelsAt] in *.
  - destruct Hlevel as [<-|[]]. now left.
  - apply in_flat_map in Hlevel as (g & Hg & Hlevel).
    destruct g as [b|b|b cs]; try contradiction.
    destruct (String.eqb (id b) p) eqn:Hp; [|contradiction].
    pose proof (level_occurrences rest cs level Hlevel) as Hdeep.
    apply in_split in Hg as (l1 & l2 & ->).
    rewrite occurrencesIn_app, occurrencesIn_cons, occurrences_group in Hone.
    assert (Hown : String.eqb (id b) fieldId = false)
      by (destruct (String.eqb (id b) fieldId); [lia|reflexivity]).
    rewrite Hown in Hone.
    rewrite moveInFields_none.
    + apply in_flat_map.
      exists (GroupField b (moveInFields fieldId direction cs)). split.
      * rewrite List.map_app. apply in_or_app. right. now left.
      * rewrite Hp. apply IH; [lia | exact Hlevel].
    + apply findIndex_none_intro, Forall_app. split; [|constructor].
      * apply occurrencesIn_others. lia.
      * exact Hown.
      * apply occurrencesIn_others. lia.
Qed.

(** X8. In a tree where the id occurs once, [moveField] swaps the field
    with its neighbour in the sibling list and leaves the other members of
    the list in place: with the sibling before it for [up], with the one
    after it for [down]. *)
Theorem moveField_swaps_with_neighbour
    (config : FormConfig) (path : list string)
    (pre post : list FormField) (f g : FormField) :
  occurrencesIn fieldId (cfg_fields config) = 1 ->
  fid f = fieldId ->
  (In (pre ++ g :: f :: post) (levelsAt (cfg_fields config) path) ->
   In (pre ++ f :: g :: post)
     (levelsAt (cfg_fields (moveField fieldId up config)) path))
  /\ (In (pre ++ f :: g :: post) (levelsAt (cfg_fields config) path) ->
      In (pre ++ g :: f :: post)
        (levelsAt (cfg_fields (moveField fieldId down config)) path)).
Proof.
  intros Hone Hid. apply String.eqb_eq in Hid.
  pose proof (occurrences_own fieldId f Hid) as Hf.
  unfold moveField. cbn [cfg_fields].
  split; intros Hlevel;
    pose proof (level_occurrences path _ _ Hlevel) as Hle;
    rewrite occurrencesIn_app, !occurrencesIn_cons in Hle.
  - refine (move_only_field up (pre ++ g :: f :: post) _ path _ _
              (cfg_fields config) Hone Hlevel).
    + apply moveInFields_up_at; [|exact Hid].
      apply Forall_app. split; [apply occurrencesIn_others; lia|].
      constructor; [apply occurrences_none_other; lia|constructor].
    + rewrite occurrencesIn_app, !occurrencesIn_cons. lia.
  - refine (move_only_field down (pre ++ f :: g :: post) _ path _ _
              (cfg_fields config) Hone Hlevel).
    + apply moveInFields_down_at; [|exact Hid].
      apply occurrencesIn_others. lia.
    + rewrite occurrencesIn_app, !occurrencesIn_cons. lia.
Qed.
End move_more.

(** ** What the search finds *)

Section search_facts.
Variable fieldId : string.

Lemma scanFrom_root_only fieldList rest i :
  scanFrom fieldId (Some []) (searchChildren fieldId (Some []))
    fieldList [] true rest i
  = match findIndex fieldId rest with
    | Some j =>
        match rest !! j with
        | Some f => Some {| field := f; parent := fieldList; index := i + j |}
        | None => None
        end
    | None => None
    end.
Proof.
  revert i. induction rest as [|f rest IH]; intros i; [reflexivity|].
  cbn [scanFrom findIndex andb].
  destruct (String.eqb (fid f) fieldId).
  - cbn [lookup list_lookup]. now rewrite Nat.add_0_r.
  - assert (Hbelow :
      match f with
      | GroupField _ _ =>
          if descends (Some []) ([] ++ [fid f])
          then searchChildren fieldId (Some []) f ([] ++ [fid f])
          else None
      | _ => None
      end = None).
    { now destruct f. }
    rewrite Hbelow, IH.
    destruct (findIndex fieldId rest) as [j|]; [|reflexivity].
    cbn [lookup list_lookup].
    replace (S i + j) with (i + S j) by lia. reflexivity.
Qed.

(** X9. With the empty parent path the search looks at the root list
    only: it returns the first member of the root list that carries the
    id, with the root list as its parent and its index there, and nothing
    when no member of the root list carries the id, whatever the groups
    hold. *)
Theorem findField_root_only (fields : list FormField) :
  findField fieldId (Some []) fields
  = match findIndex fieldId fields with
    | Some i =>
        match fields !! i with
        | Some f => Some {| field := f; parent := fields; index := i |}
        | None => None
        end
    | None => None
    end.
Proof.
  unfold findField, searchRecursive, searchLevel.
  cbn [rootOnlyRejects checkWithinScope length Nat.eqb Nat.ltb Nat.leb andb].
  apply scanFrom_root_only.
Qed.

Variable parentPath : option (list string).

(** Two prefixes of one list: one is a prefix of the other. *)
Lemma prefixes_compare (l1 l2 r1 r2 : list string) :
  l1 ++ r1 = l2 ++ r2 ->
  (exists c, l2 = l1 ++ c) \/ (exists c, l1 = l2 ++ c).
Proof.
  intros H. apply app_eq_app in H as (l & [[-> _]|[-> _]]); eauto.
Qed.

(** The loop descends into a group that lies on the way to a path in
    scope. *)
Lemma descends_toward current q rest :
  checkWithinScope parentPath (current ++ q :: rest) = true ->
  descends parentPath (current ++ [q]) = true.
Proof.
  unfold checkWithinScope, descends. destruct parentPath as [pp|];
    [|reflexivity].
  destruct (length pp =? 0) eqn:Hpp.
  - rewrite length_app. cbn [length]. intros H. apply Nat.eqb_eq in H. lia.
  - intros H. apply pathStartsWith_spec in H as [tail H].
    replace (current ++ q :: rest) with ((current ++ [q]) ++ rest) in H
      by (rewrite <- app_assoc; reflexivity).
    apply orb_true_iff.
    destruct (prefixes_compare _ _ _ _ H) as [[c Hc]|[c Hc]].
    + destruct c as [|x c].
      * left. apply pathStartsWith_spec. exists [].
        rewrite app_nil_r in Hc. now rewrite Hc, app_nil_r.
      * right. apply andb_true_iff. split.
        -- apply Nat.ltb_lt. rewrite Hc, !length_app. cbn [length]. lia.
        -- apply (everyMatches_spec (current ++ [q]) [] pp). now exists (x :: c).
    + left. apply pathStartsWith_spec. now exists c.
Qed.

Lemma rootOnlyRejects_in_scope current suffix :
  checkWithinScope parentPath (current ++ suffix) = true ->
  rootOnlyRejects parentPath current = false.
Proof.
  unfold checkWithinScope, rootOnlyRejects. destruct parentPath as [pp|];
    [|reflexivity].
  destruct (length pp =? 0); [|reflexivity].
  rewrite length_app. intros H. apply Nat.eqb_eq in H.
  cbn [andb]. apply Nat.ltb_ge. lia.
Qed.

(** The loop returns a result as soon as one member of what is left
    matches in scope, or is a group the loop descends into with a
    result. *)
Lemma scanFrom_finds into fieldList current isWithinScope rest :
  forall x i,
    In x rest ->
    (isWithinScope && String.eqb (fid x) fieldId = true
     \/ (type x = group
         /\ descends parentPath (current ++ [fid x]) = true
         /\ into x (current ++ [fid x]) <> None)) ->
    scanFrom fieldId parentPath into fieldList current isWithinScope rest i
    <> None.
Proof.
  induction rest as [|f rest IH]; intros x i Hin Hx; [contradiction|].
  cbn [scanFrom].
  destruct (isWithinScope && String.eqb (fid f) fieldId) eqn:Hmatch;
    [discriminate|].
  destruct Hin as [->|Hin].
  - destruct Hx as [Hx|(Htype & Hdesc & Hinto)]; [congruence|].
    destruct x as [b|b|b cs]; try discriminate Htype.
    rewrite Hdesc.
    destruct (into (GroupField b cs) (current ++ [fid (GroupField b cs)]));
      [discriminate|contradiction].
  - match goal with
    | |- match ?found with _ => _ end <> None =>
        destruct found; [discriminate|]
    end.
    now apply (IH x).
Qed.

Lemma searchRecursive_finds suffix : forall fields current level i f,
  In level (levelsAt fields suffix) ->
  level !! i = Some f ->
  fid f = fieldId ->
  checkWithinScope parentPath (current ++ suffix) = true ->
  searchRecursive fieldId parentPath fields current <> None.
Proof.
  induction suffix as [|q suffix IH];
    intros fields current level i f Hlevel Hlook Hid Hscope;
    unfold searchRecursive, searchLevel;
    rewrite (rootOnlyRejects_in_scope current _ Hscope);
    cbn [levelsAt] in Hlevel.
  - destruct Hlevel as [<-|[]]. rewrite app_nil_r in Hscope.
    apply (scanFrom_finds _ _ _ _ _ f).
    + eapply list_elem_of_In, list_elem_of_lookup_2. exact Hlook.
    + left. rewrite Hscope. now apply String.eqb_eq.
  - apply in_flat_map in Hlevel as (g & Hg & Hlevel).
    destruct g as [b|b|b cs]; try contradiction.
    destruct (String.eqb (id b) q) eqn:Hq; [|contradiction].
    apply String.eqb_eq in Hq.
    apply (scanFrom_finds _ _ _ _ _ (GroupField b cs)); [exact Hg|].
    right. unfold fid. cbn [base type]. rewrite Hq.
    split; [reflexivity|].
    split; [exact (descends_toward current q suffix Hscope)|].
    rewrite searchChildren_group.
    apply (IH cs (current ++ [q]) level i f Hlevel Hlook Hid).
    now rewrite <- app_assoc.
Qed.

(** X10. [findField] returns a field exactly when the tree holds one in
    scope: a field with the id in a sibling list whose path passes the
    scope check of the search (any path when no parent path is given, the
    root for the empty parent path, otherwise a path that starts with the
    parent path). *)
Theorem findField_finds_iff (fields : list FormField) :
  findField fieldId parentPath fields <> None
  <-> exists path level i f,
        inScope fieldId parentPath fields path level i f.
Proof.
  split.
  - destruct (findField fieldId parentPath fields) as [r|] eqn:Hfind;
      [intros _|intros H; now elim H].
    apply findField_located in Hfind as (suffix & Hlevel & Hlook & Hid & Hscope).
    exists suffix, (parent r), (index r), (field r).
    repeat split; assumption.
  - intros (path & level & i & f & Hlevel & Hlook & Hid & Hscope).
    exact (searchRecursive_finds path fields [] level i f
             Hlevel Hlook Hid Hscope).
Qed.
End search_facts.

(** ** A search for an id that occurs once *)

Section unique_search.
Variable fieldId : string.

Lemma member_occurrences x fields :
  In x fields -> occurrences fieldId x <= occurrencesIn fieldId fields.
Proof.
  intros Hin. apply in_split in Hin as (l1 & l2 & ->).
  rewrite occurrencesIn_app, occurrencesIn_cons. lia.
Qed.

Lemma lookup_occurrences fields i f :
  fields !! i = Some f -> fid f = fieldId ->
  1 <= occurrencesIn fieldId fields.
Proof.
  intros Hlook Hid. apply String.eqb_eq, occurrences_own in Hid.
  apply list_elem_of_lookup_2, list_elem_of_In, member_occurrences in Hlook.
  lia.
Qed.

(** A member with the id and a group with the id below it, in one list:
    the id occurs twice. *)
Lemma member_and_below fields i f b cs :
  fields !! i = Some f -> fid f = fieldId ->
  In (GroupField b cs) fields -> 1 <= occurrencesIn fieldId cs ->
  2 <= occurrencesIn fieldId fields.
Proof.
  intros Hlook Hid Hin Hbelow. apply in_split in Hin as (l1 & l2 & ->).
  rewrite occurrencesIn_app, occurrencesIn_cons, occurrences_group.
  destruct (Nat.lt_trichotomy i (length l1)) as [Hlt|[->|Hgt]].
  - rewrite lookup_app_l in Hlook by assumption.
    pose proof (lookup_occurrences _ _ _ Hlook Hid). lia.
  - rewrite list_lookup_middle in Hlook by reflexivity.
    injection Hlook as <-. unfold fid in Hid. cbn [base] in Hid.
    rewrite Hid, String.eqb_refl. lia.
  - rewrite lookup_app_r in Hlook by lia.
    destruct (i - length l1) as [|k] eqn:Hk; [lia|]. cbn in Hlook.
    pose proof (lookup_occurrences _ _ _ Hlook Hid). lia.
Qed.

(** When the id occurs once in the tree, two occurrences of it are one:
    the same sibling list, at the same path, and the same index. *)
Lemma unique_occurrence path : forall fields path' level level' i i' f f',
  occurrencesIn fieldId fields = 1 ->
  In level (levelsAt fields path) -> level !! i = Some f -> fid f = fieldId ->
  In level' (levelsAt fields path') -> level' !! i' = Some f' ->
  fid f' = fieldId ->
  level' = level /\ i' = i /\ f' = f.
Proof.
  induction path as [|q path IH];
    intros fields [|q' path'] level level' i i' f f'
      Hone Hlevel Hlook Hid Hlevel' Hlook' Hid';
    cbn [levelsAt] in Hlevel, Hlevel'.
  - destruct Hlevel as [<-|[]]. destruct Hlevel' as [<-|[]].
    split; [reflexivity|].
    assert (Hi : i' = i).
    { pose proof (take_drop_middle _ _ _ Hlook) as Hsplit.
      rewrite <- Hsplit in Hone, Hlook'.
      rewrite occurrencesIn_app, occurrencesIn_cons in Hone.
      pose proof (occurrences_own fieldId f (proj2 (String.eqb_eq _ _) Hid)).
      assert (Hlen : length (take i fields) = i).
      { apply length_take_le.
        apply lookup_lt_Some in Hlook. lia. }
      destruct (Nat.lt_trichotomy i' i) as [Hlt|[->|Hgt]];
        [|reflexivity|].
      - rewrite lookup_app_l in Hlook' by lia.
        pose proof (lookup_occurrences _ _ _ Hlook' Hid'). lia.
      - rewrite lookup_app_r in Hlook' by lia. rewrite Hlen in Hlook'.
        destruct (i' - i) as [|k] eqn:Hk; [lia|]. cbn in Hlook'.
        pose proof (lookup_occurrences _ _ _ Hlook' Hid'). lia. }
    subst i'. split; [reflexivity|]. congruence.
  - exfalso. destruct Hlevel as [<-|[]].
    apply in_flat_map in Hlevel' as (g & Hg & Hlevel').
    destruct g as [b|b|b cs]; try contradiction.
    destruct (String.eqb (id b) q'); [|contradiction].
    pose proof (occurrence_counted fieldId path' cs level' i' f' Hlevel' Hlook'
                  (proj2 (String.eqb_eq _ _) Hid')) as Hbelow.
    pose proof (member_and_below fields i f b cs Hlook Hid Hg Hbelow). lia.
  - exfalso. destruct Hlevel' as [<-|[]].
    apply in_flat_map in Hlevel as (g & Hg & Hlevel).
    destruct g as [b|b|b cs]; try contradiction.
    destruct (String.eqb (id b) q); [|contradiction].
    pose proof (occurrence_counted fieldId path cs level i f Hlevel Hlook
                  (proj2 (String.eqb_eq _ _) Hid)) as Hbelow.
    pose proof (member_and_below fields i' f' b cs Hlook' Hid' Hg Hbelow). lia.
  - apply in_flat_map in Hlevel as (g & Hg & Hlevel).
    destruct g as [b|b|b cs]; try contradiction.
    destruct (String.eqb (id b) q); [|contradiction].
    apply in_flat_map in Hlevel' as (g' & Hg' & Hlevel').
    destruct g' as [b'|b'|b' cs']; try contradiction.
    destruct (String.eqb (id b') q'); [|contradiction].
    pose proof (occurrence_counted fieldId path cs level i f Hlevel Hlook
                  (proj2 (String.eqb_eq _ _) Hid)) as Hbelow.
    pose proof (occurrence_counted fieldId path' cs' level' i' f' Hlevel'
                  Hlook' (proj2 (String.eqb_eq _ _) Hid')) as Hbelow'.
    apply in_split in Hg as (l1 & l2 & ->).
    rewrite occurrencesIn_app, occurrencesIn_cons, occurrences_group in Hone.
    assert (Hsame : GroupField b' cs' = GroupField b cs).
    { apply in_app_or in Hg' as [Hg'|[Hg'|Hg']].
      - apply member_occurrences in Hg'.
        rewrite occurrences_group in Hg'. lia.
      - now symmetry.
      - apply member_occurrences in Hg'.
        rewrite occurrences_group in Hg'. lia. }
    injection Hsame as -> ->.
    apply (IH cs path' level level' i i' f f'); try assumption. lia.
Qed.

(** X11. When the id occurs once in the tree, the search returns that
    field, with its sibling list and its index there, for every parent
    path that is in scope of it: no parent path, the path of the field
    itself, or a non-empty path that the path of the field starts with. *)
Theorem findField_unique_id
    (parentPath : option (list string)) (fields : list FormField)
    (path : list string) (level : list FormField) (i : nat) (f : FormField) :
  occurrencesIn fieldId fields = 1 ->
  inScope fieldId parentPath fields path level i f ->
  findField fieldId parentPath fields
  = Some {| field := f; parent := level; index := i |}.
Proof.
  intros Hone (Hlevel & Hlook & Hid & Hscope).
  pose proof (searchRecursive_finds fieldId parentPath path fields [] level i f
                Hlevel Hlook Hid Hscope) as Hfound.
  change (findField fieldId parentPath fields <> None) in Hfound.
  destruct (findField fieldId parentPath fields) as [r|] eqn:Hfind;
    [|now elim Hfound].
  apply findField_located in Hfind as (suffix & Hlevel' & Hlook' & Hid' & _).
  destruct (unique_occurrence path fields suffix level (parent r) i (index r)
              f (field r) Hone Hlevel Hlook Hid Hlevel' Hlook' Hid')
    as (Hp & Hi & Hf).
  destruct r as [rf rp ri]. cbn in Hp, Hi, Hf. now subst.
Qed.
End unique_search.

(** ** Blank values and required fields *)

Lemma trimStart_blank (s : string) :
  trimStart s = "" <-> allWhiteSpace s = true.
Proof.
  induction s as [|c s IH]; cbn [trimStart allWhiteSpace]; [tauto|].
  destruct (isWhiteSpace c); cbn [andb]; [exact IH|].
  split; discriminate.
Qed.

Lemma trimStart_head (s : string) (c : ascii) (r : string) :
  trimStart s = String c r -> isWhiteSpace c = false.
Proof.
  induction s as [|d s IH]; cbn [trimStart]; [discriminate|].
  destruct (isWhiteSpace d) eqn:Hd; [exact IH|].
  intros H. injection H as <- _. exact Hd.
Qed.

Lemma allWhiteSpace_of_list (l : list ascii) :
  allWhiteSpace (string_of_list_ascii l) = forallb isWhiteSpace l.
Proof.
  induction l as [|c l IH]; [reflexivity|].
  cbn [string_of_list_ascii allWhiteSpace forallb]. now rewrite IH.
Qed.

Lemma reverse_string_empty (s : string) : reverse_string s = "" -> s = "".
Proof.
  unfold reverse_string. intros H.
  apply (f_equal list_ascii_of_string) in H.
  rewrite list_ascii_of_string_of_list_ascii in H. cbn in H.
  destruct s as [|c s]; [reflexivity|]. cbn in H.
  now apply app_eq_nil in H as [_ H].
Qed.

(** [s.trim ()] is empty exactly when [s] is made of white space. *)
Lemma trim_blank (s : string) : trim s = "" <-> allWhiteSpace s = true.
Proof.
  rewrite <- trimStart_blank. unfold trim. split.
  - intros H. apply reverse_string_empty in H.
    apply trimStart_blank in H.
    destruct (trimStart s) as [|c r] eqn:Hs; [reflexivity|].
    apply trimStart_head in Hs.
    unfold reverse_string in H. rewrite allWhiteSpace_of_list in H.
    cbn [list_ascii_of_string rev] in H.
    rewrite forallb_app in H. cbn [forallb] in H.
    rewrite Hs, andb_false_r in H. discriminate.
  - intros ->. reflexivity.
Qed.

Lemma isEmptyValue_string (s : string) :
  isEmptyValue (Some (VString s)) = allWhiteSpace s.
Proof.
  cbn [isEmptyValue].
  destruct (allWhiteSpace s) eqn:Hs.
  - apply trim_blank in Hs. rewrite Hs. cbn. apply orb_true_r.
  - apply orb_false_iff. split.
    + destruct s; [discriminate Hs|reflexivity].
    + apply String.eqb_neq. intros H. apply trim_blank in H. congruence.
Qed.

(** X12. A required field, of any type, gets the "required" message
    exactly for [null] (which also stands for a value never entered) and
    for a string made of white space only, the empty string included. *)
Theorem validateValue_required_blank
    (toNumber : string -> JsNumber) (field : FormField) (value : FormValue) :
  frequired field = true ->
  validateValue toNumber field value = Some Required
  <-> match value with
      | VNull => True
      | VString s => allWhiteSpace s = true
      | _ => False
      end.
Proof.
  intros Hreq. unfold validateValue. rewrite Hreq. cbn [andb].
  destruct value as [s|n| |m| |].
  - rewrite isEmptyValue_string.
    destruct (allWhiteSpace s); [tauto|].
    split; [|discriminate]. destruct (type field); try discriminate.
    destruct (isNaN _); [discriminate|].
    destruct (fmin field) as [lo|], (fmax field) as [hi|];
      repeat match goal with
             | |- context [if ?c then _ else _] => destruct c
             end; discriminate.
  - cbn [isEmptyValue]. split; [|contradiction].
    destruct (type field); try discriminate.
    destruct (isNaN _); [discriminate|].
    destruct (fmin field) as [lo|], (fmax field) as [hi|];
      repeat match goal with
             | |- context [if ?c then _ else _] => destruct c
             end; discriminate.
  - cbn [isEmptyValue]. tauto.
  - cbn [isEmptyValue]. split; [|contradiction].
    destruct (type field); discriminate.
  - cbn [isEmptyValue]. split; [|contradiction].
    destruct (type field); discriminate.
  - cbn [isEmptyValue]. split; [|contradiction].
    destruct (type field); discriminate.
Qed.

(** ** Bounds in the wrong order *)



(** ** A change of a control, read back *)

Lemma dotFree_separator (p rest : string) :
  dotFree (p +:+ "." +:+ rest) = false.
Proof.
  induction p as [|c p IH]; simpl; [reflexivity|].
  rewrite IH. apply andb_false_r.
Qed.

(** The only key that is [__proto__] is the one of a field with that id
    at the root. *)
Lemma makeErrorKey_proto (path : list string) (fieldId : string) :
  makeErrorKey path fieldId = "__proto__" ->
  path = [] /\ fieldId = "__proto__".
Proof.
  destruct path as [|p rest]; [intros H; split; [reflexivity | exact H]|].
  rewrite makeErrorKey_cons. intros H.
  apply (f_equal dotFree) in H. rewrite dotFree_separator in H.
  discriminate H.
Qed.

Lemma isPrimitive_held (value : FormValue) :
  isPrimitive value = true -> held value.
Proof. destruct value; try discriminate; constructor. Qed.

Lemma getFieldValue_writeAt (parentPath : list string) :
  forall (data data' : gmap string FormValue) (fieldId : string)
         (value : FormValue),
    fieldId <> "__proto__" ->
    isPrimitive value = true ->
    writeAt data parentPath fieldId value = Some data' ->
    getFieldValue data' fieldId parentPath = Some value.
Proof.
  induction parentPath as [|p rest IH];
    intros data data' fieldId value Hid Hprim Hw.
  - cbn [writeAt] in Hw. unfold store in Hw.
    apply String.eqb_neq in Hid. rewrite Hid in Hw. injection Hw as <-.
    unfold getFieldValue. cbn [walk]. rewrite get_insert_eq.
    now destruct value.
  - apply writeAt_cons in Hw as (_ & m' & Hw & ->).
    unfold getFieldValue. cbn [walk]. rewrite get_insert_eq.
    exact (IH (recordAt data p) m' fieldId value Hid Hprim Hw).
Qed.

(** X14. A control changed, of a field whose id is not [__proto__] and
    none of whose ancestors has that id, in form data that hold what was
    typed in before.  The change is stored; the value it stored is the
    value read back for the field, and the form data again hold what was
    typed in.  The entry of the field in the error map is the validation
    of that value against the field the search returns for the id and the
    path: an earlier message does not stay, and no message is shown when
    the search returns nothing. *)
Theorem handleFieldChange_read_back
    (toNumber : string -> JsNumber) (fields : list FormField)
    (fieldId : string) (value : FormValue) (parentPath : list string)
    (st : PreviewState) :
  isPrimitive value = true ->
  ~ In "__proto__" parentPath -> fieldId <> "__proto__" ->
  held (VObject (formData st)) ->
  exists st',
    handleFieldChange toNumber fields fieldId value parentPath st = Some st'
    /\ getFieldValue (formData st') fieldId parentPath = Some value
    /\ held (VObject (formData st'))
    /\ errors st' !! makeErrorKey parentPath fieldId
       = match findFieldByPath fieldId parentPath fields with
         | Some field => validateValue toNumber field value
         | None => None
         end.
Proof.
  intros Hprim Hpath Hid Hdata.
  destruct (writeAt_held parentPath fieldId value (formData st) Hpath Hid
              Hdata (isPrimitive_held value Hprim)) as (data' & Hw & Hheld).
  unfold handleFieldChange. rewrite Hw. eexists. split; [reflexivity|].
  cbn [formData errors].
  split; [exact (getFieldValue_writeAt parentPath _ data' fieldId value
                   Hid Hprim Hw)|].
  split; [exact Hheld|].
  assert (Hkey : makeErrorKey parentPath fieldId <> "__proto__").
  { intros H. apply makeErrorKey_proto in H as [_ H]. contradiction. }
  destruct (findFieldByPath fieldId parentPath fields) as [field|].
  - destruct (validateValue toNumber field value).
    + now apply lookup_assign_eq.
    + now rewrite lookup_delete_eq.
  - now rewrite lookup_delete_eq.
Qed.

(** ** Submitting *)

Section submit_facts.
Variable toNumber : string -> JsNumber.
Variable data : gmap string FormValue.

Lemma validateFieldRecursive_app l1 l2 path errs :
  validateFieldRecursive toNumber data (l1 ++ l2) path errs
  = validateFieldRecursive toNumber data l2 path
      (validateFieldRecursive toNumber data l1 path errs).
Proof.
  unfold validateFieldRecursive, validateLevel. apply fold_left_app.
Qed.

Lemma recorded_keeps (errs : gmap string ValidationError)
    (own key : string) (error : option ValidationError) :
  is_Some (errs !! key) ->
  is_Some (match error with
           | Some e => assign errs own e
           | None => errs
           end !! key).
Proof.
  intros Hkey. destruct error as [e|]; [|exact Hkey].
  unfold assign. destruct (String.eqb own "__proto__"), (errs !! own);
    try exact Hkey;
    rewrite lookup_insert_is_Some; destruct (decide (own = key)); auto.
Qed.

(** The error map never owns the key [__proto__]. *)
Lemma recorded_proto (errs : gmap string ValidationError)
    (own : string) (error : option ValidationError) :
  errs !! "__proto__" = None ->
  match error with
  | Some e => assign errs own e
  | None => errs
  end !! "__proto__" = None.
Proof.
  intros Hnone. destruct error as [e|]; [|exact Hnone].
  unfold assign. destruct (String.eqb own "__proto__") eqn:Hown.
  - apply String.eqb_eq in Hown. subst own. now rewrite Hnone.
  - apply String.eqb_neq in Hown. now rewrite lookup_insert_ne.
Qed.

Lemma validateFieldRecursive_proto fields : forall path errs,
  errs !! "__proto__" = None ->
  validateFieldRecursive toNumber data fields path errs !! "__proto__" = None.
Proof.
  induction fields as [|b rest IH|b rest IH|b cs rest IHcs IH]
    using fields_tree_ind; intros path errs Hnone; [exact Hnone| | |];
    rewrite validateFieldRecursive_cons; cbv zeta; apply IH.
  - now apply recorded_proto.
  - now apply recorded_proto.
  - apply IHcs. now apply recorded_proto.
Qed.

(** An entry, once written, stays, possibly with another message. *)
Lemma validateFieldRecursive_keeps fields : forall path errs key,
  is_Some (errs !! key) ->
  is_Some (validateFieldRecursive toNumber data fields path errs !! key).
Proof.
  induction fields as [|b rest IH|b rest IH|b cs rest IHcs IH]
    using fields_tree_ind; intros path errs key Hkey; [exact Hkey| | |];
    rewrite validateFieldRecursive_cons; cbv zeta; apply IH.
  - now apply recorded_keeps.
  - now apply recorded_keeps.
  - apply IHcs. now apply recorded_keeps.
Qed.

(** Every field that fails its validation has an entry under its key,
    unless the key is [__proto__]. *)
Lemma validateFieldRecursive_records suffix : forall fields path errs f e,
  occursAt fields suffix f ->
  makeErrorKey (path ++ suffix) (fid f) <> "__proto__" ->
  validateValue toNumber f (orNull (valueAt data (path ++ suffix) f))
  = Some e ->
  is_Some (validateFieldRecursive toNumber data fields path errs
           !! makeErrorKey (path ++ suffix) (fid f)).
Proof.
  intros fields path errs f e Hocc. revert path errs.
  induction Hocc as [fields f Hin | fields b cs suffix f Hin Hocc IH];
    intros path errs Hkey Hval; apply in_split in Hin as (l1 & l2 & ->);
    rewrite validateFieldRecursive_app, validateFieldRecursive_cons;
    cbv zeta; apply validateFieldRecursive_keeps.
  - rewrite app_nil_r in *. rewrite Hval.
    assert (Hown : is_Some
              (assign (validateFieldRecursive toNumber data l1 path errs)
                 (makeErrorKey path (fid f)) e
               !! makeErrorKey path (fid f)))
      by (rewrite lookup_assign_eq by assumption; eauto).
    destruct f as [b|b|b cs]; try exact Hown.
    now apply validateFieldRecursive_keeps.
  - change (validateChildren toNumber data (GroupField b cs))
      with (validateFieldRecursive toNumber data cs).
    replace (path ++ id b :: suffix) with ((path ++ [id b]) ++ suffix) in *
      by (rewrite <- app_assoc; reflexivity).
    now apply IH.
Qed.
End submit_facts.


(** The error map is empty exactly when every field passes, a field with
    the id [__proto__] at the root apart. *)
Lemma validateAllFields_empty_iff
    (toNumber : string -> JsNumber) (data : gmap string FormValue)
    (fields : list FormField) :
  validateAllFields toNumber data fields = ∅
  <-> forall path f,
        occursAt fields path f ->
        makeErrorKey path (fid f) <> "__proto__" ->
        validateValue toNumber f (orNull (valueAt data path f)) = None.
Proof.
  split.
  - intros Hempty path f Hocc Hkey.
    destruct (validateValue toNumber f (orNull (valueAt data path f)))
      as [e|] eqn:Hval; [|reflexivity].
    pose proof (validateFieldRecursive_records toNumber data path fields [] ∅
                  f e Hocc Hkey Hval) as [e' He'].
    change (validateAllFields toNumber data fields
            !! makeErrorKey path (fid f) = Some e') in He'.
    rewrite Hempty, lookup_empty in He'. discriminate.
  - intros Hvalid. apply map_eq. intros key. rewrite lookup_empty.
    destruct (validateAllFields toNumber data fields !! key) as [e|] eqn:Hkey;
      [|reflexivity].
    assert (Hproto : key <> "__proto__").
    { intros ->. unfold validateAllFields in Hkey.
      rewrite validateFieldRecursive_proto in Hkey; [discriminate|].
      apply lookup_empty. }
    unfold validateAllFields in Hkey.
    apply validateFieldRecursive_entries in Hkey
      as [Hkey | (suffix & f & Hocc & -> & Hval)].
    + rewrite lookup_empty in Hkey. discriminate.
    + cbn [app] in Hval, Hproto.
      rewrite (Hvalid suffix f Hocc Hproto) in Hval. discriminate.
    + apply List.Forall_forall. intros f _ path errs k e'.
      apply validateChildren_entries.
Qed.


Lemma validateValue_null (toNumber : string -> JsNumber) (f : FormField) :
  validateValue toNumber f VNull
  = if frequired f then Some Required else None.
Proof. unfold validateValue. cbn [isEmptyValue]. now destruct (frequired f). Qed.

Lemma ordinary_get (key : string) :
  ordinary key = true -> get (Plain ∅) key = None.
Proof.
  unfold ordinary, get. rewrite lookup_empty. intros H.
  apply andb_true_iff in H as [H1 H2]. apply negb_true_iff in H1, H2.
  now rewrite H1, H2.
Qed.

Lemma ordinary_proto (key : string) :
  ordinary key = true -> key <> "__proto__".
Proof.
  unfold ordinary. intros H. apply andb_true_iff in H as [H _].
  apply negb_true_iff in H. now apply String.eqb_neq.
Qed.

Lemma ordinaryIds_own (f : FormField) :
  ordinaryIds f = true -> ordinary (fid f) = true.
Proof.
  destruct f as [b|b|b cs]; cbn [ordinaryIds]; intros H;
    now apply andb_true_iff in H as [H _].
Qed.

Lemma ordinaryIds_occursAt (fields : list FormField) (path : list string)
    (f : FormField) :
  occursAt fields path f ->
  forallb ordinaryIds fields = true ->
  ordinary (fid f) = true.
Proof.
  induction 1 as [fields f Hin | fields b cs path f Hin Hocc IH];
    intros Hall; rewrite forallb_forall in Hall.
  - apply ordinaryIds_own. now apply Hall.
  - apply IH. specialize (Hall _ Hin). cbn [ordinaryIds] in Hall.
    now apply andb_true_iff in Hall as [_ Hall].
Qed.

(** The export of empty form data: below a list whose ids are ordinary
    nothing is read, and the groups are not entered. *)
Lemma buildLabeledData_empty (fieldList : list FormField) :
  forallb (fun f => ordinary (fid f)) fieldList = true ->
  buildLabeledData ∅ fieldList [] = Some ∅.
Proof.
  intros Hord. rewrite buildLabeledData_loops. cbn [walkData walk].
  induction fieldList as [|f fieldList IH] using rev_ind; [reflexivity|].
  rewrite forallb_app in Hord. apply andb_true_iff in Hord as [Hrest Hf].
  cbn [forallb] in Hf. rewrite andb_true_r in Hf.
  rewrite labelLoop_app, (IH Hrest). cbn [labelLoop fold_left].
  unfold labelStep, labelField. rewrite (ordinary_get _ Hf).
  destruct f as [b|b|b cs]; try reflexivity.
  rewrite labelChildren_group, buildLabeledData_loops.
  unfold walkData. rewrite app_nil_l. cbn [walk].
  now rewrite (ordinary_get _ Hf).
Qed.

Lemma ordinaryIds_top (fields : list FormField) :
  forallb ordinaryIds fields = true ->
  forallb (fun f => ordinary (fid f)) fields = true.
Proof.
  rewrite !forallb_forall. intros H f Hf. apply ordinaryIds_own. auto.
Qed.

(** X17. A form none of whose ids is [__proto__] or the name of a
    function of [Object.prototype], submitted untouched, from the state
    the preview starts in: the dialog opens exactly when no field of the
    tree, group or not, is marked required, and the document shown is
    then the empty one. *)
Theorem handleSubmit_untouched_form
    (toNumber : string -> JsNumber) (fields : list FormField) :
  forallb ordinaryIds fields = true ->
  let st' := handleSubmit toNumber fields initial in
  (showSubmitModal st' = true
   <-> forall path f, occursAt fields path f -> frequired f = false)
  /\ (showSubmitModal st' = true ->
      submittedData st' = Some ∅
      /\ buildLabeledData ∅ fields [] = Some ∅).
Proof.
  intros Hord. cbv zeta. unfold handleSubmit, initial. cbv zeta.
  cbn [formData showSubmitModal submittedData].
  pose proof (validateAllFields_empty_iff toNumber ∅ fields) as Hiff.
  assert (Hnull : forall path f,
            occursAt fields path f ->
            validateValue toNumber f (orNull (valueAt ∅ path f))
            = if frequired f then Some Required else None).
  { intros path f Hocc.
    pose proof (ordinaryIds_occursAt fields path f Hocc Hord) as Hf.
    unfold valueAt.
    rewrite dataAt_empty by now apply ordinary_proto.
    rewrite (ordinary_get _ Hf). apply validateValue_null. }
  destruct (size (validateAllFields toNumber ∅ fields) =? 0) eqn:Hsize;
    cbn [showSubmitModal submittedData].
  - apply Nat.eqb_eq, map_size_empty_iff in Hsize.
    split.
    + split; [intros _|reflexivity]. intros path f Hocc.
      assert (Hkey : makeErrorKey path (fid f) <> "__proto__").
      { intros H. apply makeErrorKey_proto in H as [_ H].
        pose proof (ordinaryIds_occursAt fields path f Hocc Hord) as Hf.
        now apply ordinary_proto in Hf. }
      pose proof (proj1 Hiff Hsize path f Hocc Hkey) as Hval.
      rewrite Hnull in Hval by assumption. now destruct (frequired f).
    + intros _. split; [reflexivity|].
      apply buildLabeledData_empty. now apply ordinaryIds_top.
  - apply Nat.eqb_neq in Hsize.
    split; [|discriminate]. split; [discriminate|].
    intros Hnone. exfalso. apply Hsize.
    rewrite (proj2 Hiff); [apply map_size_empty|].
    intros path f Hocc _. rewrite Hnull by assumption.
    now rewrite (Hnone path f Hocc).
Qed.

(** With an id that [Object.prototype] has a function under, the
    untouched form reads that function as the value of the field: a
    required text field passes, and an optional number field gets the
    message "invalid number". *)
Example untouched_inherited_values :
  showSubmitModal
    (handleSubmit decimalToNumber
       [TextField (mkBase "constructor" "C" true None None)] initial)
  = true
  /\ errors
       (handleSubmit decimalToNumber
          [NumberField (mkBase "toString" "N" false None None)] initial)
     = {[ "toString" := InvalidNumber ]}
  /\ buildLabeledData ∅ [textField "toString" "T"] []
     = Some {[ "T" := LFunction ]}.
Proof. repeat split; vm_compute; reflexivity. Qed.


(** ** More on the labelled export *)

Section export_facts.
Variable data : gmap string FormValue.

(** A record of the export is the export of the children of a group, and
    it is not empty. *)
Lemma entryOf_record currentData path f m :
  entryOf data currentData path f = Some (LObject m) ->
  0 < size m.
Proof.
  unfold entryOf. destruct f as [b|b|b cs].
  - destruct (get currentData _) as [[s|n| |o| |]|]; cbn [labeledOf];
      try discriminate.
    destruct (String.eqb s ""); discriminate.
  - destruct (get currentData _) as [[s|n| |o| |]|]; cbn [labeledOf];
      try discriminate.
    destruct (String.eqb s ""); discriminate.
  - destruct (buildLabeledData data _ _) as [groupValue|]; [|discriminate].
    destruct (0 <? size groupValue) eqn:Hsize; [|discriminate].
    intros H. injection H as <-. now apply Nat.ltb_lt.
Qed.

(** X18. The labelled export holds no record without a property of its
    own: a group none of whose fields has a value to export is left out.
    A property of such a record may hold a function that the form data
    inherit, which is all that [Object.keys] asks for. *)
Theorem buildLabeledData_no_empty_record
    (fieldList : list FormField) (parentPath : list string)
    (result : gmap string Labeled) (k : string) (m : gmap string Labeled) :
  buildLabeledData data fieldList parentPath = Some result ->
  result !! k = Some (LObject m) ->
  m <> ∅.
Proof.
  rewrite buildLabeledData_loops.
  destruct (walkData data parentPath) as [currentData|];
    [|intros [= <-]; rewrite lookup_empty; discriminate].
  intros Hloop Hk Hm. subst m.
  destruct (fold_owner data currentData parentPath k fieldList ∅ result Hloop)
    as [Hsame | (g & v & _ & _ & Hentry & Hlook)].
  - rewrite Hsame, lookup_empty in Hk. discriminate.
  - rewrite Hlook in Hk. injection Hk as ->.
    apply entryOf_record in Hentry. rewrite map_size_empty in Hentry. lia.
Qed.
End export_facts.

(** X19. The export of empty form data is the empty document: at the
    root, for every tree whose ids at the top level are ordinary, and at
    a parent path that starts with an ordinary id, for every tree. *)
Theorem buildLabeledData_empty_data
    (fieldList : list FormField) (parentPath : list string) :
  match parentPath with
  | [] => forallb (fun f => ordinary (fid f)) fieldList = true
  | parentId :: _ => ordinary parentId = true
  end ->
  buildLabeledData ∅ fieldList parentPath = Some ∅.
Proof.
  destruct parentPath as [|p rest]; [apply buildLabeledData_empty|].
  intros Hp. rewrite buildLabeledData_loops. unfold walkData. cbn [walk].
  now rewrite (ordinary_get _ Hp).
Qed.

(** X20. A text or number field, with another label than [__proto__],
    whose label no other member of its sibling list carries: once the
    export of the list is computed, which it is when no field of the
    list is labelled [__proto__], at any depth, the field is exported
    under its label exactly when the value read for it is a number, a
    string other than the empty one, or a function that the form data
    inherit under the id of the field, and with that value. *)
Theorem buildLabeledData_own_label
    (data : gmap string FormValue) (parentPath : list string)
    (pre post : list FormField) (f : FormField) :
  type f <> group ->
  flabel f <> "__proto__" ->
  Forall (fun g => flabel g <> flabel f) (pre ++ post) ->
  (forallb plainLabels (pre ++ f :: post) = true ->
   is_Some (buildLabeledData data (pre ++ f :: post) parentPath))
  /\ (forall result,
        buildLabeledData data (pre ++ f :: post) parentPath = Some result ->
        result !! flabel f
        = match walkData data parentPath with
          | Some currentData =>
              match get currentData (fid f) with
              | Some x => labeledOf x
              | None => None
              end
          | None => None
          end).
Proof.
  intros Hleaf Hlabel Hothers. split; [apply buildLabeledData_total|].
  apply Forall_app in Hothers as [Hpre Hpost].
  intros result. rewrite buildLabeledData_loops.
  destruct (walkData data parentPath) as [currentData|];
    [|intros [= <-]; apply lookup_empty].
  intros Hloop.
  apply labelLoop_Some_app in Hloop as (before & Hbefore & Hloop).
  apply labelLoop_Some_cons in Hloop as (after & Hstep & Hafter).
  rewrite (fold_other_labels data currentData parentPath (flabel f) post
             after result Hpost Hafter).
  apply labelStep_Some in Hstep as [-> | [Hproto _]]; [|contradiction].
  pose proof (fold_other_labels data currentData parentPath (flabel f) pre
                ∅ before Hpre Hbefore) as Hnone.
  rewrite lookup_empty in Hnone.
  unfold entryStep.
  assert (Hentry : entryOf data currentData parentPath f
                   = match get currentData (fid f) with
                     | Some x => labeledOf x
                     | None => None
                     end)
    by (destruct f as [b|b|b cs]; [reflexivity|reflexivity|now elim Hleaf]).
  rewrite Hentry.
  destruct (get currentData (fid f)) as [x|]; [|exact Hnone].
  destruct (labeledOf x); [apply lookup_insert_eq | exact Hnone].
Qed.

(** ** More on the import *)

(** X21. The import checks [id], [type], [label], [required] and, for a
    group, [fields], and nothing else: any other property of a field
    object, [min] and [max] included, may hold any value. *)
Theorem validateField_ignores_other_properties
    (props : gmap string Json) (k : string) (v : Json) :
  ~ In k ["id"; "type"; "label"; "required"; "fields"] ->
  validateField (JObject (<[k := v]> props)) = validateField (JObject props).
Proof.
  intros Hk. rewrite !validateField_unfold.
  rewrite !lookup_insert_ne; [reflexivity|..];
    intros ->; apply Hk; cbn; tauto.
Qed.

(** X22. The import is all or nothing.  When it leaves a message, the
    live config, the open dialog and the text in it are as before; when it
    leaves none, the text parsed, the live config is the parsed document,
    unchanged, and the dialog is closed and emptied. *)
Theorem handleImportSubmit_all_or_none
    (outcome : ParseOutcome) (st : BuilderState) :
  let st' := handleImportSubmit outcome st in
  match importError st' with
  | Some _ =>
      config st' = config st
      /\ showImportModal st' = showImportModal st
      /\ importJson st' = importJson st
  | None =>
      exists parsed fields,
        outcome = Parsed parsed
        /\ fieldsArray parsed = Some fields
        /\ forallb validateField fields = true
        /\ config st' = parsed
        /\ showImportModal st' = false
        /\ importJson st' = ""
  end.
Proof.
  cbv zeta. rewrite handleImportSubmit_cases.
  destruct outcome as [parsed|message]; [|repeat split].
  destruct (negb (isObject parsed)); [repeat split|].
  destruct (fieldsArray parsed) as [fields|] eqn:Hfields; [|repeat split].
  destruct (forallb validateField fields) eqn:Hvalid; [|repeat split].
  exists parsed, fields. repeat split; assumption.
Qed.

(** ** What the edits keep *)

(** Where the id is found, the sibling list is left as it is or two
    neighbours of it change places. *)
Lemma moveInFields_found_cases fieldId direction fields i :
  findIndex fieldId fields = Some i ->
  moveInFields fieldId direction fields = fields
  \/ exists pre a b post,
       fields = pre ++ a :: b :: post
       /\ moveInFields fieldId direction fields = pre ++ b :: a :: post.
Proof.
  intros Hfind.
  destruct (findIndex_split _ _ _ Hfind)
    as (pre & x & post & -> & Hlen & Hx & Hpre).
  destruct direction.
  - induction pre as [|y pre' _] using rev_ind.
    + left. unfold moveInFields, moveLevel. rewrite Hfind.
      cbn in Hlen. now subst i.
    + right. exists pre', y, x, post. rewrite <- app_assoc. cbn [app].
      split; [reflexivity|]. now apply moveInFields_up_at.
  - destruct post as [|z post].
    + left. unfold moveInFields, moveLevel. rewrite Hfind.
      rewrite length_app. cbn [length]. subst i.
      destruct (_ || _) eqn:Hb; [reflexivity|].
      apply orb_false_iff in Hb as [_ Hb]. rewrite Z.geb_leb in Hb.
      apply Z.leb_gt in Hb. lia.
    + right. exists pre, x, z, post.
      split; [reflexivity|]. now apply moveInFields_down_at.
Qed.

Section kept_by_edits.
(** A test of the whole tree: [here] on the attributes of each field. *)
Variable here : BaseField -> bool.
Variable P : FormField -> bool.
Hypothesis P_unfold : forall f,
  P f = here (base f)
        && match f with
           | GroupField _ cs => forallb P cs
           | _ => true
           end.

Lemma P_group b cs : P (GroupField b cs) = here b && forallb P cs.
Proof. now rewrite P_unfold. Qed.

Lemma deleteFromFields_keeps fieldId fields :
  forallb P fields = true ->
  forallb P (deleteFromFields fieldId fields) = true.
Proof.
  induction fields as [|b rest IH|b rest IH|b cs rest IHcs IH]
    using fields_tree_ind; [reflexivity| | |];
    cbn [forallb]; intros H; apply andb_true_iff in H as [Hf Hrest];
    rewrite deleteFromFields_cons;
    (destruct (String.eqb (fid _) fieldId); [now apply IH|]);
    cbn [forallb]; rewrite IH by assumption;
    try (cbn [deleteInGroup]; now rewrite Hf).
  rewrite deleteInGroup_group, P_group. rewrite P_group in Hf.
  apply andb_true_iff in Hf as [-> Hcs]. now rewrite IHcs.
Qed.

Lemma moveInFields_keeps_level fieldId direction fields :
  Forall (fun f => P f = true -> P (moveInGroup fieldId direction f) = true)
    fields ->
  forallb P fields = true ->
  forallb P (moveInFields fieldId direction fields) = true.
Proof.
  intros Hgroups H.
  destruct (findIndex fieldId fields) as [i|] eqn:Hfind.
  - destruct (moveInFields_found_cases fieldId direction _ i Hfind)
      as [-> | (pre & x & y & post & Hsplit & ->)]; [exact H|].
    rewrite Hsplit in H. rewrite forallb_app in *. cbn [forallb] in *.
    apply andb_true_iff in H as [-> H].
    apply andb_true_iff in H as [-> H].
    now apply andb_true_iff in H as [-> ->].
  - rewrite (moveInFields_none fieldId direction _ Hfind).
    apply forallb_forall. intros g Hg.
    apply in_map_iff in Hg as (f & <- & Hf).
    rewrite List.Forall_forall in Hgroups. apply Hgroups; [exact Hf|].
    rewrite forallb_forall in H. now apply H.
Qed.

Lemma moveInGroup_keeps fieldId direction f :
  P f = true -> P (moveInGroup fieldId direction f) = true.
Proof.
  induction f as [b|b|b cs IH] using FormField_tree_ind; try (intros H; exact H).
  change (moveInGroup fieldId direction (GroupField b cs))
    with (GroupField b (moveInFields fieldId direction cs)).
  rewrite !P_group. intros H. apply andb_true_iff in H as [-> Hcs].
  now rewrite moveInFields_keeps_level.
Qed.

Lemma moveInFields_keeps fieldId direction fields :
  forallb P fields = true ->
  forallb P (moveInFields fieldId direction fields) = true.
Proof.
  apply moveInFields_keeps_level, List.Forall_forall.
  intros f _. apply moveInGroup_keeps.
Qed.

Lemma updateFields_keeps parentId added fields :
  P added = true ->
  forallb P fields = true ->
  forallb P (fst (Builder.updateFields parentId added fields)) = true.
Proof.
  intros Hadded.
  induction fields as [|b rest IH|b rest IH|b cs rest IHcs IH]
    using fields_tree_ind; [reflexivity| | |];
    cbn [forallb]; intros H; apply andb_true_iff in H as [Hf Hrest];
    rewrite updateFields_cons; cbn [fst forallb];
    rewrite IH by assumption; rewrite andb_true_r; try exact Hf.
  rewrite addInto_group. rewrite P_group in Hf.
  apply andb_true_iff in Hf as [Hb Hcs].
  destruct (String.eqb (id b) parentId); cbn [fst]; rewrite P_group, Hb.
  - rewrite forallb_app, Hcs. cbn [forallb]. now rewrite Hadded.
  - now rewrite IHcs.
Qed.

Lemma addField_keeps t newId parentId fieldType prev :
  P (newField t newId fieldType) = true ->
  forallb P (cfg_fields prev) = true ->
  forallb P (cfg_fields (addField t newId parentId fieldType prev)) = true.
Proof.
  intros Hadded Hprev. unfold addField. cbv zeta.
  destruct parentId as [p|]; cbn [cfg_fields].
  - pose proof (updateFields_keeps p _ _ Hadded Hprev) as Hkept.
    destruct (Builder.updateFields p (newField t newId fieldType)
                (cfg_fields prev)) as [updatedFields parentFound].
    cbn [fst] in Hkept.
    destruct parentFound; cbn [negb cfg_fields]; [exact Hkept|].
    rewrite forallb_app, Hkept. cbn [forallb]. now rewrite Hadded.
  - rewrite forallb_app, Hprev. cbn [forallb]. now rewrite Hadded.
Qed.
End kept_by_edits.

Lemma importable_unfold f :
  importable f
  = (negb (String.eqb (id (base f)) "") && negb (String.eqb (label (base f)) ""))
    && match f with
       | GroupField _ cs => forallb importable cs
       | _ => true
       end.
Proof. now destruct f. Qed.

Lemma finiteBounds_unfold f :
  finiteBounds f
  = (finiteBound (min (base f)) && finiteBound (max (base f)))
    && match f with
       | GroupField _ cs => forallb finiteBounds cs
       | _ => true
       end.
Proof. now destruct f. Qed.

(** X23. The edits of the builder keep a config fit for the export and
    import round trip: when every id and label is non-empty and every
    bound present is finite, this still holds after [deleteField], after
    [moveField], and after [addField] with a non-empty new id and
    non-empty default labels. *)
Theorem edits_keep_round_trip
    (t : DefaultLabel -> string) (newId fieldId : string)
    (parentId : option string) (fieldType : FieldType)
    (direction : Direction) (config : FormConfig) :
  roundTrips (cfg_fields config) = true ->
  roundTrips (cfg_fields (deleteField fieldId config)) = true
  /\ roundTrips (cfg_fields (moveField fieldId direction config)) = true
  /\ (newId <> "" -> (forall key, t key <> "") ->
      roundTrips (cfg_fields (addField t newId parentId fieldType config))
      = true).
Proof.
  unfold roundTrips. intros H. apply andb_true_iff in H as [Himp Hfin].
  set (named := fun b : BaseField =>
         negb (String.eqb (id b) "") && negb (String.eqb (label b) "")).
  set (bounded := fun b : BaseField =>
         finiteBound (min b) && finiteBound (max b)).
  split; [|split].
  - apply andb_true_iff. split.
    + exact (deleteFromFields_keeps named _ importable_unfold fieldId _ Himp).
    + exact (deleteFromFields_keeps bounded _ finiteBounds_unfold fieldId _
               Hfin).
  - apply andb_true_iff. split.
    + exact (moveInFields_keeps named _ importable_unfold fieldId direction _
               Himp).
    + exact (moveInFields_keeps bounded _ finiteBounds_unfold fieldId direction
               _ Hfin).
  - intros Hid Hlabels. apply andb_true_iff. split.
    + apply (addField_keeps named _ importable_unfold); [|exact Himp].
      apply String.eqb_neq in Hid.
      destruct fieldType; cbn; rewrite Hid;
        match goal with
        | |- context [t ?key] =>
            pose proof (proj2 (String.eqb_neq _ _) (Hlabels key)) as ->
        end; reflexivity.
    + apply (addField_keeps bounded _ finiteBounds_unfold); [|exact Hfin].
      now destruct fieldType.
Qed.

(** ** The search of the context *)

Section first_match.
Variable fieldId : string.

Lemma preorderIn_cons f rest :
  preorderIn (f :: rest) = f :: preorderIn (children f) ++ preorderIn rest.
Proof. unfold preorderIn. cbn [flat_map]. now destruct f. Qed.

Lemma find_app {A : Type} (p : A -> bool) (l1 l2 : list A) :
  List.find p (l1 ++ l2)
  = match List.find p l1 with
    | Some x => Some x
    | None => List.find p l2
    end.
Proof.
  induction l1 as [|x l1 IH]; [reflexivity|].
  cbn [app List.find]. now destruct (p x).
Qed.

Lemma scanFrom_first fieldList current rest :
  Forall
    (fun g => forall p,
       field <$> searchChildren fieldId None g p
       = List.find (fun f => String.eqb (fid f) fieldId)
           (preorderIn (children g)))
    rest ->
  forall i,
    field <$> scanFrom fieldId None (searchChildren fieldId None)
                fieldList current true rest i
    = List.find (fun f => String.eqb (fid f) fieldId) (preorderIn rest).
Proof.
  induction 1 as [|f rest Hf _ IH]; intros i; [reflexivity|].
  rewrite preorderIn_cons. cbn [scanFrom List.find andb].
  destruct (String.eqb (fid f) fieldId); [reflexivity|].
  rewrite find_app, <- (Hf (current ++ [fid f])), <- (IH (S i)).
  destruct f as [b|b|b cs]; try reflexivity.
  cbn [descends].
  now destruct (searchChildren fieldId None (GroupField b cs) _).
Qed.

Lemma searchChildren_first g : forall p,
  field <$> searchChildren fieldId None g p
  = List.find (fun f => String.eqb (fid f) fieldId) (preorderIn (children g)).
Proof.
  induction g as [b|b|b cs IH] using FormField_tree_ind; intros p;
    try reflexivity.
  cbn [searchChildren children]. unfold searchLevel.
  cbn [rootOnlyRejects checkWithinScope].
  now apply scanFrom_first.
Qed.

Lemma findField_preorder
    (config : FormConfig) (fields : option (list FormField)) :
  field <$> Context.findField config fieldId fields
  = List.find (fun f => String.eqb (fid f) fieldId)
      (preorderIn (orElse fields (cfg_fields config))).
Proof.
  unfold Context.findField, findField, searchRecursive, searchLevel.
  cbv zeta. cbn [rootOnlyRejects checkWithinScope].
  apply scanFrom_first, List.Forall_forall.
  intros g _. apply searchChildren_first.
Qed.

(** X24. The search that the context hands out returns the first field
    with the id in depth-first order, a group being looked at before its
    children and the children before the siblings that follow: with an id
    repeated in the tree, that first field and no other. *)
Theorem findField_first_in_preorder
    (config : FormConfig) (fields : option (list FormField)) :
  field <$> Context.findField config fieldId fields
  = List.find (fun f => String.eqb (fid f) fieldId)
      (preorderIn (orElse fields (cfg_fields config))).
Proof. apply findField_preorder. Qed.

Lemma applyUpdates_id updates f :
  u_id updates = None -> fid (applyUpdates f updates) = fid f.
Proof.
  intros Hid. unfold applyUpdates.
  destruct (u_type updates) as [[| |]|];
    destruct f as [b|b|b cs]; cbn; now rewrite ?Hid.
Qed.

Lemma find_preorder_own g :
  String.eqb (fid g) fieldId = true ->
  List.find (fun f => String.eqb (fid f) fieldId) (preorder g) = Some g.
Proof. intros Hown. destruct g; cbn [preorder List.find]; now rewrite Hown. Qed.

Lemma updateOne_group updates b cs :
  String.eqb (id b) fieldId = false ->
  updateOne fieldId updates (GroupField b cs)
  = GroupField b (map (updateOne fieldId updates) cs).
Proof.
  intros Hown. cbn [updateOne]. unfold fid. cbn [base]. now rewrite Hown.
Qed.

Lemma updateOne_own updates f :
  String.eqb (fid f) fieldId = true ->
  updateOne fieldId updates f = applyUpdates f updates.
Proof. intros Hown. destruct f; cbn [updateOne]; now rewrite Hown. Qed.

Lemma updateOne_preorder updates f :
  u_id updates = None ->
  List.find (fun g => String.eqb (fid g) fieldId)
    (preorder (updateOne fieldId updates f))
  = (fun g => applyUpdates g updates)
    <$> List.find (fun g => String.eqb (fid g) fieldId) (preorder f).
Proof.
  intros Hid.
  assert (Hmatch : forall g,
            String.eqb (fid g) fieldId = true ->
            List.find (fun g => String.eqb (fid g) fieldId)
              (preorder (updateOne fieldId updates g))
            = (fun g => applyUpdates g updates)
              <$> List.find (fun g => String.eqb (fid g) fieldId)
                    (preorder g)).
  { intros g Hown. rewrite (updateOne_own updates g Hown).
    rewrite (find_preorder_own g Hown).
    apply find_preorder_own. now rewrite applyUpdates_id. }
  induction f as [b|b|b cs IH] using FormField_tree_ind.
  - destruct (String.eqb (fid (TextField b)) fieldId) eqn:Hown;
      [now apply Hmatch|].
    cbn [updateOne]. rewrite Hown. cbn [preorder List.find]. now rewrite Hown.
  - destruct (String.eqb (fid (NumberField b)) fieldId) eqn:Hown;
      [now apply Hmatch|].
    cbn [updateOne]. rewrite Hown. cbn [preorder List.find]. now rewrite Hown.
  - destruct (String.eqb (fid (GroupField b cs)) fieldId) eqn:Hown;
      [now apply Hmatch|].
    rewrite updateOne_group by exact Hown.
    cbn [preorder List.find].
    change (String.eqb (fid (GroupField b (map (updateOne fieldId updates) cs)))
              fieldId) with (String.eqb (fid (GroupField b cs)) fieldId).
    rewrite Hown. clear Hown.
    induction IH as [|g cs Hg _ IHcs]; [reflexivity|].
    cbn [map flat_map]. rewrite !find_app, IHcs, Hg.
    now destruct (List.find _ (preorder g)).
Qed.

(** X25. An update that does not change the id, such as those the field
    editor sends for the label, the flag and the bounds, changes the very
    field that the search of the context returns for the id: the field
    found afterwards is the field found before with the update applied. *)
Theorem updateField_then_findField
    (updates : FieldUpdates) (config : FormConfig) :
  u_id updates = None ->
  field <$> Context.findField (updateField fieldId updates config) fieldId None
  = (fun f => applyUpdates f updates)
    <$> (field <$> Context.findField config fieldId None).
Proof.
  intros Hid. rewrite !findField_preorder.
  unfold updateField, Mutator.updateFields. cbn [orElse cfg_fields].
  induction (cfg_fields config) as [|f fields IH]; [reflexivity|].
  unfold preorderIn in *. cbn [map flat_map].
  rewrite !find_app, updateOne_preorder, IH by assumption.
  now destruct (List.find _ (preorder f)).
Qed.
End first_match.

(** ** Generated identifiers *)

Lemma dotFree_append (s1 s2 : string) :
  dotFree (s1 +:+ s2) = dotFree s1 && dotFree s2.
Proof.
  induction s1 as [|c s1 IH]; [reflexivity|].
  simpl. now rewrite IH, andb_assoc.
Qed.

Lemma dotFree_decimal (n : N) : dotFree (decimal n) = true.
Proof.
  unfold decimal.
  assert (Hdigits : forall d,
            dotFree (DecimalString.NilEmpty.string_of_uint d) = true)
    by (induction d; cbn; auto).
  destruct (N.to_uint n); try apply (Hdigits (_ _)); reflexivity.
Qed.

Lemma dotFree_get (s : string) (i : nat) (c : ascii) :
  dotFree s = true -> String.get i s = Some c -> dotFree (String c "") = true.
Proof.
  revert i. induction s as [|d s IH]; intros i Hfree Hget; [discriminate|].
  cbn [dotFree] in Hfree. apply andb_true_iff in Hfree as [Hd Hs].
  destruct i as [|i]; cbn [String.get] in Hget.
  - injection Hget as <-. cbn [dotFree]. now rewrite Hd.
  - exact (IH i Hs Hget).
Qed.

Lemma dotFree_charAt (alphabet : string) (index : nat) :
  dotFree alphabet = true -> dotFree (charAt alphabet index) = true.
Proof.
  intros Hfree. unfold charAt.
  destruct (String.get index alphabet) as [c|] eqn:Hget; [|reflexivity].
  exact (dotFree_get alphabet index c Hfree Hget).
Qed.

Lemma dotFree_randomPart alphabet draw turns : forall i,
  dotFree alphabet = true ->
  dotFree (randomPart alphabet draw i turns) = true.
Proof.
  induction turns as [|turns IH]; intros i Hfree; [reflexivity|].
  cbn [randomPart]. now rewrite dotFree_append, dotFree_charAt, IH.
Qed.

Lemma length_charAt (alphabet : string) (index : nat) :
  index < String.length alphabet ->
  String.length (charAt alphabet index) = 1.
Proof.
  intros Hlt. unfold charAt.
  destruct (String.get index alphabet) as [c|] eqn:Hget; [reflexivity|].
  exfalso. revert index Hlt Hget.
  induction alphabet as [|d s IH]; intros index Hlt Hget;
    cbn [String.length] in Hlt; [lia|].
  destruct index as [|index]; [discriminate|].
  cbn [String.get] in Hget. apply (IH index); [lia|exact Hget].
Qed.

Lemma length_randomPart alphabet draw turns : forall i,
  (forall j, draw j < String.length alphabet) ->
  String.length (randomPart alphabet draw i turns) = turns.
Proof.
  induction turns as [|turns IH]; intros i Hdraw; [reflexivity|].
  cbn [randomPart].
  now rewrite string_length_append, length_charAt, IH.
Qed.

Lemma prefix_append (s t : string) : String.prefix s (s +:+ t) = true.
Proof.
  induction s as [|c s IH]; [now destruct t|].
  simpl. destruct (ascii_dec c c); [exact IH|contradiction].
Qed.

(** X26. [generateId] throws exactly when all four character sets are
    switched off; lower case, upper case and digits count as switched on
    when the option is absent, the symbols as switched off. *)
Theorem generateId_throws_iff (options : CreateIdOptions) (now : N)
    (draw : nat -> nat) :
  generateId options now draw = None
  <-> orElse (o_lowercase options) true = false
      /\ orElse (o_uppercase options) true = false
      /\ orElse (o_numbers options) true = false
      /\ orElse (o_symbols options) false = false.
Proof.
  unfold generateId, alphabetOf, enabled. cbv zeta.
  destruct (orElse (o_lowercase options) true),
    (orElse (o_uppercase options) true),
    (orElse (o_numbers options) true),
    (orElse (o_symbols options) false);
    cbn; split; try discriminate; try tauto;
    intros (H1 & H2 & H3 & H4); discriminate.
Qed.

(** X27. With the symbols switched off, as they are by default, an id
    that [generateId] returns starts with [field-], contains no dot, and,
    the draws being indices of the alphabet, is as long as the prefix,
    the digits of the clock, a dash and the length asked for (11 by
    default). *)
Theorem generateId_without_symbols (options : CreateIdOptions) (now : N)
    (draw : nat -> nat) (newId : string) :
  orElse (o_symbols options) false = false ->
  generateId options now draw = Some newId ->
  String.prefix "field-" newId = true
  /\ dotFree newId = true
  /\ ((forall j, draw j < String.length (alphabetOf options)) ->
      String.length newId
      = 6 + String.length (decimal now) + 1 + orElse (o_length options) 11).
Proof.
  intros Hsym. unfold generateId. cbv zeta.
  destruct (String.length (alphabetOf options) =? 0); [discriminate|].
  intros H. injection H as <-.
  assert (Hfree : dotFree (alphabetOf options) = true).
  { unfold alphabetOf, enabled. rewrite Hsym.
    destruct (orElse (o_lowercase options) true),
      (orElse (o_uppercase options) true),
      (orElse (o_numbers options) true); reflexivity. }
  split; [apply prefix_append|]. split.
  - rewrite !dotFree_append, dotFree_decimal, dotFree_randomPart by assumption.
    reflexivity.
  - intros Hdraw.
    rewrite !string_length_append, length_randomPart by assumption.
    cbn [String.length]. lia.
Qed.

(** ** Bounds typed in the editor *)

(** X28. The editor sends a bound for a number field only; the bound it
    sends for the text of the input is never [NaN]: an empty text and a
    text that is no number remove the bound.  Applied to the field, the
    update changes that bound and nothing else. *)
Theorem editor_bounds_are_numbers
    (toNumber : string -> JsNumber) (b : BaseField) (value : string) :
  boundOf toNumber value <> Some NaN
  /\ boundOf toNumber "" = None
  /\ (exists updates,
        handleMinChange toNumber (NumberField b) value = Some updates
        /\ applyUpdates (NumberField b) updates
           = NumberField
               (mkBase (id b) (label b) (required b)
                  (boundOf toNumber value) (max b)))
  /\ (exists updates,
        handleMaxChange toNumber (NumberField b) value = Some updates
        /\ applyUpdates (NumberField b) updates
           = NumberField
               (mkBase (id b) (label b) (required b)
                  (min b) (boundOf toNumber value)))
  /\ (forall f, type f <> number ->
      handleMinChange toNumber f value = None
      /\ handleMaxChange toNumber f value = None).
Proof.
  split; [|split; [reflexivity|split; [|split]]].
  - unfold boundOf.
    destruct (String.eqb value "" || isNaN (toNumber value)) eqn:Hbad;
      [discriminate|].
    apply orb_false_iff in Hbad as [_ Hnan].
    intros H. injection H as H. now rewrite H in Hnan.
  - eexists. split; reflexivity.
  - eexists. split; reflexivity.
  - intros f Hf. unfold handleMinChange, handleMaxChange.
    destruct (type f); [auto | now elim Hf | auto].
Qed.

(** ** Instances *)

Import Cases.

(** A number field added to the group [address], then deleted. *)
Lemma addField_then_deleteField_witness :
  deleteField "field-2"
    (addField englishLabels "field-2" (Some "address") number contactForm)
  = contactForm.
Proof.
  apply (addField_then_deleteField englishLabels "field-2" (Some "address")
           number contactForm).
  reflexivity.
Defined.

(** [name] is the id of a text field, not of a group. *)
Lemma addField_without_parent_appends_to_root_witness :
  addField englishLabels "field-2" (Some "name") text contactForm
  = addField englishLabels "field-2" None text contactForm
  /\ cfg_fields (addField englishLabels "field-2" (Some "name") text contactForm)
     = cfg_fields contactForm ++ [newField englishLabels "field-2" text].
Proof.
  apply (addField_without_parent_appends_to_root englishLabels "field-2"
           "name" text contactForm).
  reflexivity.
Defined.

(** A text field added to the group [geo] inside [address]. *)
Lemma addField_appends_to_parent_witness :
  let after :=
    cfg_fields (addField englishLabels "field-2" (Some "geo") text contactForm)
  in
  In ([percent] ++ [newField englishLabels "field-2" text])
    (levelsAt after (["address"] ++ ["geo"]))
  /\ length after = length (cfg_fields contactForm).
Proof.
  apply (addField_appends_to_parent englishLabels "field-2" "geo" text
           contactForm ["address"] [percent]).
  - intros [H|[]]. discriminate H.
  - left. reflexivity.
Defined.

Lemma mutators_ignore_absent_id_witness :
  updateField "gone" (handleLabelChange "Renamed") contactForm = contactForm
  /\ moveField "gone" up contactForm = contactForm
  /\ deleteField "gone" contactForm = contactForm.
Proof.
  apply (mutators_ignore_absent_id "gone" (handleLabelChange "Renamed") up
           contactForm).
  reflexivity.
Defined.

(** [name] is the first field of the root list. *)
Lemma moveField_disabled_direction_witness :
  moveField "name" up contactForm = contactForm.
Proof.
  apply (moveField_disabled_direction "name" up contactForm). reflexivity.
Defined.

(** The group [geo] and the field [street] before it. *)
Lemma moveField_swaps_with_neighbour_witness :
  (In ([] ++ street :: geo :: [])
     (levelsAt (cfg_fields contactForm) ["address"]) ->
   In ([] ++ geo :: street :: [])
     (levelsAt (cfg_fields (moveField "geo" up contactForm)) ["address"]))
  /\ (In ([] ++ geo :: street :: [])
        (levelsAt (cfg_fields contactForm) ["address"]) ->
      In ([] ++ street :: geo :: [])
        (levelsAt (cfg_fields (moveField "geo" down contactForm)) ["address"])).
Proof.
  apply (moveField_swaps_with_neighbour "geo" contactForm ["address"] [] []
           geo street); reflexivity.
Defined.

(** [street], searched for below [address]. *)
Lemma findField_unique_id_witness :
  Locator.findField "street" (Some ["address"]) (cfg_fields contactForm)
  = Some {| field := street; parent := [street; geo]; index := 0 |}.
Proof.
  apply (findField_unique_id "street" (Some ["address"])
           (cfg_fields contactForm) ["address"] [street; geo] 0 street).
  - reflexivity.
  - repeat split. left. reflexivity.
Defined.

(** Two blanks typed into a required field. *)
Lemma validateValue_required_blank_witness :
  validateValue decimalToNumber requiredName (VString "  ") = Some Required
  <-> allWhiteSpace "  " = true.
Proof.
  apply (validateValue_required_blank decimalToNumber requiredName
           (VString "  ")).
  reflexivity.
Defined.


(** A street typed into the untouched form. *)
Lemma handleFieldChange_read_back_witness :
  exists st',
    handleFieldChange decimalToNumber (cfg_fields contactForm)
      "street" (VString "Main") ["address"] initial = Some st'
    /\ getFieldValue (formData st') "street" ["address"]
       = Some (VString "Main")
    /\ held (VObject (formData st'))
    /\ errors st' !! makeErrorKey ["address"] "street"
       = match
           findFieldByPath "street" ["address"] (cfg_fields contactForm)
         with
         | Some field => validateValue decimalToNumber field (VString "Main")
         | None => None
         end.
Proof.
  apply (handleFieldChange_read_back decimalToNumber (cfg_fields contactForm)
           "street" (VString "Main") ["address"] initial).
  - reflexivity.
  - simpl. intros [H|[]]. discriminate H.
  - discriminate.
  - constructor. intros key x Hx. unfold initial, formData in Hx.
    rewrite lookup_empty in Hx. discriminate Hx.
Defined.


(** The form [contactForm], in which no field is required. *)
Lemma handleSubmit_untouched_form_witness :
  let st' := handleSubmit decimalToNumber (cfg_fields contactForm) initial in
  (showSubmitModal st' = true
   <-> forall path f,
         occursAt (cfg_fields contactForm) path f -> frequired f = false)
  /\ (showSubmitModal st' = true ->
      submittedData st' = Some ∅
      /\ buildLabeledData ∅ (cfg_fields contactForm) [] = Some ∅).
Proof.
  apply (handleSubmit_untouched_form decimalToNumber (cfg_fields contactForm)).
  reflexivity.
Defined.


(** The record exported for [address] when the street is filled in. *)
Lemma buildLabeledData_no_empty_record_witness :
  buildLabeledData streetData (cfg_fields contactForm) []
  = Some {[ "Address" := LObject {[ "Street" := LString "Main" ]} ]}
  /\ ({[ "Street" := LString "Main" ]} : gmap string Labeled) <> ∅.
Proof.
  assert (Hresult :
    buildLabeledData streetData (cfg_fields contactForm) []
    = Some {[ "Address" := LObject {[ "Street" := LString "Main" ]} ]})
    by (vm_compute; reflexivity).
  split; [exact Hresult|].
  exact (buildLabeledData_no_empty_record streetData (cfg_fields contactForm)
           [] _ "Address" _ Hresult (lookup_singleton_eq _ _)).
Defined.

(** The untouched form [contactForm]. *)
Lemma buildLabeledData_empty_data_witness :
  buildLabeledData ∅ (cfg_fields contactForm) [] = Some ∅.
Proof.
  apply (buildLabeledData_empty_data (cfg_fields contactForm) []).
  reflexivity.
Defined.

(** [street] is the only field labelled [Street] in its group. *)
Lemma buildLabeledData_own_label_witness :
  (forallb plainLabels ([] ++ street :: [geo]) = true ->
   is_Some (buildLabeledData streetData ([] ++ street :: [geo]) ["address"]))
  /\ (forall result,
        buildLabeledData streetData ([] ++ street :: [geo]) ["address"]
        = Some result ->
        result !! flabel street
        = match walkData streetData ["address"] with
          | Some currentData =>
              match get currentData (fid street) with
              | Some x => labeledOf x
              | None => None
              end
          | None => None
          end).
Proof.
  apply (buildLabeledData_own_label streetData ["address"] [] [geo] street).
  - discriminate.
  - discriminate.
  - repeat constructor. discriminate.
Defined.

(** A number field whose [min] is a string. *)
Lemma validateField_ignores_other_properties_witness :
  validateField (JObject (<["min" := JString "ten"]> oddNumber))
  = validateField (JObject oddNumber).
Proof.
  apply (validateField_ignores_other_properties oddNumber "min"
           (JString "ten")).
  intros [H|[H|[H|[H|[H|[]]]]]]; discriminate H.
Defined.

Lemma edits_keep_round_trip_witness :
  roundTrips (cfg_fields (deleteField "street" contactForm)) = true
  /\ roundTrips (cfg_fields (moveField "street" down contactForm)) = true
  /\ ("field-2" <> "" -> (forall key, englishLabels key <> "") ->
      roundTrips
        (cfg_fields
           (addField englishLabels "field-2" (Some "geo") group contactForm))
      = true).
Proof.
  apply (edits_keep_round_trip englishLabels "field-2" "street" (Some "geo")
           group down contactForm).
  reflexivity.
Defined.

(** [generateId ()] at the clock 1700000000000. *)
Lemma generateId_without_symbols_witness :
  String.prefix "field-" "field-1700000000000-hhhhhhhhhhh" = true
  /\ dotFree "field-1700000000000-hhhhhhhhhhh" = true
  /\ ((forall j, sevens j < String.length (alphabetOf noOptions)) ->
      String.length "field-1700000000000-hhhhhhhhhhh"
      = 6 + String.length (decimal 1700000000000) + 1
        + orElse (o_length noOptions) 11).
Proof.
  apply (generateId_without_symbols noOptions 1700000000000 sevens
           "field-1700000000000-hhhhhhhhhhh"); reflexivity.
Defined.

(** The label of [street], changed in the editor. *)
Lemma updateField_then_findField_witness :
  field
    <$> Context.findField
          (updateField "street" (handleLabelChange "Road") contactForm)
          "street" None
  = (fun f => applyUpdates f (handleLabelChange "Road"))
    <$> (field <$> Context.findField contactForm "street" None).
Proof.
  apply (updateField_then_findField "street" (handleLabelChange "Road")
           contactForm).
  reflexivity.
Defined.
